(** * secret_santa.py: a shallow embedding and its verified properties

    The script reads a configuration file, draws a random giver -> receiver
    assignment that honours every participant's exclusions, retries a bounded
    number of times, and labels the result with a short identifier; it then
    prints the assignment or mails every giver their receiver.

    Modelling conventions.
    - A Python [str] is a [string]; each [ascii] stands for the code point of
      the same number (U+0000 .. U+00FF).
    - A Python [set] of [str] is a [gset string].
    - A Python [dict] keeps insertion order, and the order of
      [participant_data.keys()] feeds [random.shuffle]; a dict is therefore an
      association list whose keys are pairwise distinct ([Dict.wf]).
    - The top-level [config] dict has three fixed keys; it is a record of
      optional fields, [None] meaning that the key is absent.
    - Exceptions are values of [exn]; a computation that may raise returns a
      [result].
    - The process-wide random generator is threaded explicitly: the state is
      the tape of raw numbers it is still going to produce.
    - [get_assignments] is embedded twice: over values, where most properties
      are proved, and over a heap of shared mutable objects ([Store]), where
      the question of what the call may overwrite makes sense; the two are
      proved to compute the same result.
    - Printing, the SMTP session and the files the script opens are effects
      on a [world]: what has been printed, what the server has been asked and
      how it answered, and which calls are going to raise. *)

From Stdlib Require Import Ascii String.
From stdpp Require Import gmap strings list sets.

(** ** Exceptions *)

Inductive exn : Type :=
  | KeyError (key : string)
      (* subscripting a dict, or [set.remove], with a missing key *)
  | ValueError (targets values : nat)
      (* unpacking [values] items into [targets] names *)
  | IndexError
      (* [random.choice] on an empty sequence *)
  | TypeError
      (* an operation applied to an object of the wrong kind *)
  | BadExclusionFormat (assignment_exclusions : string)
      (* "assignment_exclusions=(%s) is not formatted with parentheses in the
         configuration." *)
  | DuplicatePersonId (person_id : string)
      (* "person_id=(%s) has appeared more than once in the configuration." *)
  | UnknownExclusionIds (unknown_exclusion_ids : gset string)
      (* "Assignment exclusions reference unknown participants=(%s)." *)
  | MissingAdministratorEmail
      (* "Missing administrator email in configuration file." *)
  | MissingAdministratorPassword
      (* "Missing administrator email password in configuration file." *)
  | MissingParticipants
      (* "Missing participants in configuration file." *)
  | AssignmentInfeasible (attempts : nat)
      (* "Assignment restrictions cannot be easily met; attempts=%s. Please
         modify the configuration file." *).

Inductive result (A : Type) : Type :=
  | Ok (a : A)
  | Raise (e : exn).
Arguments Ok {A} a.
Arguments Raise {A} e.

Definition result_bind {A B} (r : result A) (k : A → result B) : result B :=
  match r with
  | Ok a => k a
  | Raise e => Raise e
  end.

(** ** Insertion-ordered dictionaries *)

Module Dict.

Definition t (V : Type) : Type := list (string * V).

Definition empty {V} : t V := [].

Definition keys {V} (d : t V) : list string := d.*1.

Definition values {V} (d : t V) : list V := d.*2.

Fixpoint get {V} (d : t V) (k : string) : option V :=
  match d with
  | [] => None
  | (k', v) :: d' => if decide (k' = k) then Some v else get d' k
  end.

Definition mem {V} (k : string) (d : t V) : bool := bool_decide (is_Some (get d k)).

(** [d[k]]: raises [KeyError] when the key is absent. *)
Definition getitem {V} (d : t V) (k : string) : result V :=
  match get d k with
  | Some v => Ok v
  | None => Raise (KeyError k)
  end.

(** [d[k] = v]: an existing key keeps its position, a new one goes last. *)
Fixpoint set {V} (d : t V) (k : string) (v : V) : t V :=
  match d with
  | [] => [(k, v)]
  | (k', v') :: d' =>
      if decide (k' = k) then (k', v) :: d' else (k', v') :: set d' k v
  end.

Definition wf {V} (d : t V) : Prop := NoDup (keys d).

End Dict.

(** ** The string primitives the parser uses *)

(** [str.isspace] on the code points below 256. *)
Definition is_space (c : ascii) : bool :=
  let n := nat_of_ascii c in
  ((9 <=? n) && (n <=? 13)) || ((28 <=? n) && (n <=? 32))
  || (n =? 133) || (n =? 160).

Definition newline : ascii := ascii_of_nat 10.
Definition carriage_return : ascii := ascii_of_nat 13.

Fixpoint lstrip (s : string) : string :=
  match s with
  | EmptyString => EmptyString
  | String c s' => if is_space c then lstrip s' else s
  end.

Fixpoint rstrip (s : string) : string :=
  match s with
  | EmptyString => EmptyString
  | String c s' =>
      match rstrip s' with
      | EmptyString => if is_space c then EmptyString else String c EmptyString
      | r => String c r
      end
  end.

(** [s.strip()] *)
Definition strip (s : string) : string := lstrip (rstrip s).

(** [s.split(sep)] for a one-character separator: never an empty list. *)
Fixpoint split (sep : ascii) (s : string) : list string :=
  match s with
  | EmptyString => [EmptyString]
  | String c s' =>
      if decide (c = sep) then EmptyString :: split sep s'
      else match split sep s' with
           | [] => [String c EmptyString]
           | piece :: pieces => String c piece :: pieces
           end
  end.

(** Reading in text mode with the default [newline=None]: "\r\n" and a lone
    "\r" both arrive as "\n". *)
Fixpoint universal_newlines (s : string) : string :=
  match s with
  | EmptyString => EmptyString
  | String c s' =>
      if decide (c = carriage_return) then
        match s' with
        | String c' _ =>
            if decide (c' = newline) then universal_newlines s'
            else String newline (universal_newlines s')
        | EmptyString => String newline EmptyString
        end
      else String c (universal_newlines s')
  end.

(** Iterating over a text file: each line keeps its terminating "\n"; only
    the last line can lack one. *)
Fixpoint lines (s : string) : list string :=
  match s with
  | EmptyString => []
  | String c s' =>
      if decide (c = newline) then String c EmptyString :: lines s'
      else match lines s' with
           | [] => [String c EmptyString]
           | line :: rest => String c line :: rest
           end
  end.

(** [s[0]] and [s[-1]] as options, and the slice [s[1:-1]]. *)
Definition first_char (s : string) : option ascii :=
  match s with
  | EmptyString => None
  | String c _ => Some c
  end.
Fixpoint last_char (s : string) : option ascii :=
  match s with
  | EmptyString => None
  | String c EmptyString => Some c
  | String _ s' => last_char s'
  end.
Definition slice_1_m1 (s : string) : string :=
  String.substring 1 (String.length s - 2) s.

(** ** The configuration *)

(** The inner dict of a participant, keyed by [PARTICIPANT_NAME_KEY],
    [PARTICIPANT_EMAIL_KEY] and [PARTICIPANT_ASSIGNMENT_EXCLUSIONS_KEY]. *)
Record participant : Type := Participant {
  name : string;
  email : string;
  exclusion_ids : gset string
}.

(** The [config] dict, keyed by [ADMINISTRATOR_EMAIL_KEY],
    [ADMINISTRATOR_EMAIL_PASSWORD_KEY] and [PARTICIPANTS_KEY]. *)
Record config : Type := Config {
  administrator_email : option string;
  administrator_email_password : option string;
  participants : option (Dict.t participant)
}.

Definition MAX_ASSIGNMENT_UUID_LENGTH : nat := 7.
Definition MAX_ASSIGNMENT_ATTEMPTS : nat := 3.
Definition ADMINISTRATOR_EMAIL_KEY : string := "administrator_email".
Definition ADMINISTRATOR_EMAIL_PASSWORD_KEY : string :=
  "administrator_email_password".
Definition PARTICIPANTS_KEY : string := "participants".
Definition PARTICIPANT_NAME_KEY : string := "name".
Definition PARTICIPANT_EMAIL_KEY : string := "email".
Definition PARTICIPANT_ASSIGNMENT_EXCLUSIONS_KEY : string := "exclusion_ids".

Definition empty_config : config := Config None None None.

Definition set_administrator_email (v : string) (c : config) : config :=
  Config (Some v) (administrator_email_password c) (participants c).
Definition set_administrator_email_password (v : string) (c : config) : config :=
  Config (administrator_email c) (Some v) (participants c).
Definition set_participants (d : Dict.t participant) (c : config) : config :=
  Config (administrator_email c) (administrator_email_password c) (Some d).

(** ** parse_config_file *)

(** The state the reading loop carries from line to line. *)
Record parse_state : Type := ParseState {
  ps_config : config;
  ps_all_exclusion_ids : gset string
}.

(** The body of the [else] branch for a non-blank participant line. *)
Definition parse_participant_line (line : string) (st : parse_state)
  : result parse_state :=
  match strip <$> split "," line with
  | [person_id; name; email; assignment_exclusions] =>
      if bool_decide (assignment_exclusions = "")
         || bool_decide (first_char assignment_exclusions ≠ Some "("%char)
         || bool_decide (last_char assignment_exclusions ≠ Some ")"%char)
      then Raise (BadExclusionFormat assignment_exclusions)
      else
        let exclusion_ids : gset string :=
          list_to_set (strip <$> split ";" (slice_1_m1 assignment_exclusions)) in
        let exclusion_ids :=
          if decide ("" ∈ exclusion_ids) then exclusion_ids ∖ {[""]}
          else exclusion_ids in
        let exclusion_ids := exclusion_ids ∪ {[person_id]} in
        let all_exclusion_ids := ps_all_exclusion_ids st ∪ exclusion_ids in
        (* config.setdefault(PARTICIPANTS_KEY, {}) *)
        let table := default Dict.empty (participants (ps_config st)) in
        if Dict.mem person_id table then Raise (DuplicatePersonId person_id)
        else
          let table :=
            Dict.set table person_id (Participant name email exclusion_ids) in
          Ok (ParseState (set_participants table (ps_config st))
                         all_exclusion_ids)
  | fields => Raise (ValueError 4 (length fields))
  end.

(** One iteration of [for line_number, line in enumerate(cfg_file)]. *)
Definition parse_line (line_number : nat) (line : string) (st : parse_state)
  : result parse_state :=
  match line_number with
  | 0 =>
      Ok (ParseState (set_administrator_email (strip line) (ps_config st))
                     (ps_all_exclusion_ids st))
  | 1 =>
      Ok (ParseState (set_administrator_email_password line (ps_config st))
                     (ps_all_exclusion_ids st))
  | _ =>
      if bool_decide (strip line = "") then Ok st
      else parse_participant_line line st
  end.

Fixpoint parse_lines (line_number : nat) (ls : list string) (st : parse_state)
  : result parse_state :=
  match ls with
  | [] => Ok st
  | line :: ls' =>
      result_bind (parse_line line_number line st)
                  (parse_lines (S line_number) ls')
  end.

(** The checks after the file is closed. *)
Definition check_config (st : parse_state) : result config :=
  let config := ps_config st in
  match participants config with
  | None => Raise (KeyError PARTICIPANTS_KEY)
  | Some table =>
      let all_participants : gset string := list_to_set (Dict.keys table) in
      let unknown_exclusion_ids := ps_all_exclusion_ids st ∖ all_participants in
      if decide (unknown_exclusion_ids ≠ ∅) then
        Raise (UnknownExclusionIds unknown_exclusion_ids)
      else if decide (administrator_email config = None) then
        Raise MissingAdministratorEmail
      else if decide (administrator_email_password config = None) then
        Raise MissingAdministratorPassword
      else if decide (participants config = None) then
        Raise MissingParticipants
      else Ok config
  end.

(** [parse_config_file], as a function of the text of the file: what
    decoding gives, before the line ends are translated. *)
Definition parse_config_file (contents : string) : result config :=
  result_bind
    (parse_lines 0 (lines (universal_newlines contents))
                 (ParseState empty_config ∅))
    check_config.

(** ** The random generator *)

(** The generator's state: the raw numbers it will hand out, in order.  An
    exhausted tape keeps answering 0, so every draw is defined. *)
Definition rng : Type := list nat.

(** Computations that consume randomness and may raise. *)
Definition M (A : Type) : Type := rng → result A * rng.

Definition ret {A} (a : A) : M A := λ g, (Ok a, g).
Definition raise {A} (e : exn) : M A := λ g, (Raise e, g).
Definition bind {A B} (m : M A) (k : A → M B) : M B :=
  λ g, match m g with
       | (Ok a, g') => k a g'
       | (Raise e, g') => (Raise e, g')
       end.
Definition lift {A} (r : result A) : M A := λ g, (r, g).

#[global] Instance M_ret : MRet M := @ret.
#[global] Instance M_bind : MBind M := λ A B k m, bind m k.

(** [random._randbelow(n)], for [n > 0]: a number below [n]. *)
Definition randbelow (n : nat) : M nat :=
  λ g, match g with
       | [] => (Ok 0, [])
       | x :: g' => (Ok (x mod n), g')
       end.

(** [x[i], x[j] = x[j], x[i]]: both reads happen before the two writes. *)
Definition swap {A} (x : list A) (i j : nat) : list A :=
  match x !! i, x !! j with
  | Some xi, Some xj => <[j := xi]> (<[i := xj]> x)
  | _, _ => x
  end.

(** The loop of [random.shuffle]: [for i in reversed(range(1, len(x)))]
    exchanges [x[i]] with [x[randbelow(i + 1)]]. *)
Fixpoint shuffle_loop {A} (indices : list nat) (x : list A) : M (list A) :=
  match indices with
  | [] => ret x
  | i :: indices' =>
      j ← randbelow (i + 1);
      shuffle_loop indices' (swap x i j)
  end.

Definition shuffle {A} (x : list A) : M (list A) :=
  shuffle_loop (reverse (seq 1 (length x - 1))) x.

(** [random.choice(seq)] is [seq[randbelow(len(seq))]]. *)
Definition choice {A} (seq : list A) : M A :=
  match seq with
  | [] => raise IndexError
  | _ :: _ =>
      i ← randbelow (length seq);
      match seq !! i with
      | Some a => ret a
      | None => raise IndexError
      end
  end.

(** [s.remove(x)] on a set. *)
Definition set_remove (s : gset string) (x : string) : result (gset string) :=
  if decide (x ∈ s) then Ok (s ∖ {[x]}) else Raise (KeyError x).

(** ** get_assignments *)

(** An assignment: giver id -> receiver id. *)
Abbreviation assignment := (Dict.t string).

(** The [for participant in all_participants_randomized] loop, started with
    the current [remaining_participants] and [assignments].  Python does not
    fix the order in which [tuple(available_participants)] lists a set of
    strings; the model lists it with [elements]. *)
Fixpoint assign_loop (participant_data : Dict.t participant)
    (all_participants_randomized : list string)
    (remaining_participants : gset string) (assignments : assignment)
  : M (option assignment) :=
  match all_participants_randomized with
  | [] => ret (Some assignments)
  | participant :: rest =>
      data ← lift (Dict.getitem participant_data participant);
      let assignment_exclusions := exclusion_ids data in
      let available_participants :=
        remaining_participants ∖ assignment_exclusions in
      if decide (available_participants = ∅) then ret None
      else
        assignment ← choice (elements available_participants);
        remaining_participants ← lift (set_remove remaining_participants assignment);
        assign_loop participant_data rest remaining_participants
                    (Dict.set assignments participant assignment)
  end.

Definition get_assignments (config : config) : M (option assignment) :=
  participant_data ←
    lift (match participants config with
          | Some d => Ok d
          | None => Raise (KeyError PARTICIPANTS_KEY)
          end);
  all_participants_randomized ← shuffle (Dict.keys participant_data);
  let remaining_participants : gset string :=
    list_to_set (Dict.keys participant_data) in
  assign_loop participant_data all_participants_randomized
              remaining_participants Dict.empty.

(** ** The retry loop of the main program *)

(** Python truth value of [assignments]: [None] and the empty dict are
    false. *)
Definition truthy (assignments : option assignment) : bool :=
  match assignments with
  | None | Some [] => false
  | Some (_ :: _) => true
  end.

(** The loop variables, with a log of what each call of [get_assignments]
    returned (oldest first); the log is not a program variable. *)
Record loop_state : Type := LoopState {
  attempts : nat;
  assignments : option assignment;
  calls : list (option assignment)
}.

(** [while attempts <= max_attempts and not assignments: ...], unfolded at
    most [fuel] times; [None] when the fuel is used up with the condition
    still true. *)
Fixpoint retry_loop (fuel max_attempts : nat) (config : config)
    (st : loop_state) : M (option loop_state) :=
  if bool_decide (attempts st ≤ max_attempts) && negb (truthy (assignments st))
  then
    match fuel with
    | 0 => ret None
    | S fuel' =>
        a ← get_assignments config;
        retry_loop fuel' max_attempts config
          (LoopState (attempts st + 1) a (calls st ++ [a]))
    end
  else ret (Some st).

Definition initial_loop_state : loop_state := LoopState 0 None [].

(** [if not assignments: raise Exception(...)] *)
Definition check_assignments (st : loop_state) : M assignment :=
  match assignments st with
  | Some (entry :: entries) => ret (entry :: entries)
  | Some [] | None => raise (AssignmentInfeasible (attempts st))
  end.

(** The retry loop followed by that check.  [None] only reports that [fuel]
    was too small to run the loop to its end. *)
Definition assign_with_retries (fuel max_attempts : nat) (config : config)
  : M (option assignment) :=
  st ← retry_loop fuel max_attempts config initial_loop_state;
  match st with
  | None => ret None
  | Some st => a ← check_assignments st; ret (Some a)
  end.

(** [k] calls of [get_assignments] one after the other, each starting from
    the generator the one before left: what every call returned, and the
    generator after the last. *)
Fixpoint successive_attempts (config : config) (k : nat) (g : rng)
  : list (result (option assignment)) * rng :=
  match k with
  | 0 => ([], g)
  | S k' =>
      let '(r, g1) := get_assignments config g in
      let '(results, g') := successive_attempts config k' g1 in
      (r :: results, g')
  end.

(** ** The assignment identifier *)

(** [int.from_bytes(bytes, 'big')] *)
Definition from_bytes_big (bytes : list Byte.byte) : Z :=
  fold_left (λ acc b, acc * 256 + Z.of_N (Byte.to_N b))%Z bytes 0%Z.

(** [uuid.uuid4().int]: [UUID(bytes=os.urandom(16), version=4)] forces the
    variant and version bits of the random 128-bit number. *)
Definition uuid4_int (entropy : list Byte.byte) : Z :=
  let int := from_bytes_big entropy in
  let int := Z.land int (Z.lnot (Z.shiftl 0xc000 48)) in
  let int := Z.lor int (Z.shiftl 0x8000 48) in
  let int := Z.land int (Z.lnot (Z.shiftl 0xf000 64)) in
  Z.lor int (Z.shiftl 4 76).

Definition hexdigits : list ascii := list_ascii_of_string "0123456789abcdef".

Definition hex_digit (d : Z) : ascii := nth (Z.to_nat d) hexdigits "0"%char.

(** The number of hexadecimal digits of a non-negative integer. *)
Definition hex_width (n : Z) : nat := Z.to_nat (Z.log2 n / 4 + 1).

(** ['%032x' % n] for [n >= 0]: zero-padded to 32 digits, never truncated. *)
Definition format_032x (n : Z) : string :=
  string_of_list_ascii
    ((λ i, hex_digit (Z.land (Z.shiftr n (4 * Z.of_nat i)) 15))
       <$> reverse (seq 0 (32 `max` hex_width n))).

(** [uuid.uuid4().hex] *)
Definition uuid4_hex (entropy : list Byte.byte) : string :=
  format_032x (uuid4_int entropy).

(** [s[:n]] *)
Definition slice_to (n : nat) (s : string) : string := String.substring 0 n s.

(** [str(uuid.uuid4().hex[:MAX_ASSIGNMENT_UUID_LENGTH])] *)
Definition assignment_uuid (entropy : list Byte.byte) : string :=
  slice_to MAX_ASSIGNMENT_UUID_LENGTH (uuid4_hex entropy).

(** ** The main program, up to the hand-over to the reporters *)

(** [contents] is the configuration file, [entropy] the 16 bytes that
    [os.urandom] gives [uuid4].  The result is the identifier and the
    assignment that [send_assignment_emails] or [pretty_print_assignments]
    receive.  The loop gets more fuel than it can use, so [None] does not
    occur ([main_terminates]). *)
Definition main (contents : string) (entropy : list Byte.byte)
  : M (option (string * assignment)) :=
  config ← lift (parse_config_file contents);
  assignments ← assign_with_retries (MAX_ASSIGNMENT_ATTEMPTS + 2)
                                    MAX_ASSIGNMENT_ATTEMPTS config;
  match assignments with
  | None => ret None
  | Some assignments => ret (Some (assignment_uuid entropy, assignments))
  end.

(** ** The engine over a store of shared, mutable objects

  Python passes dicts, sets and lists by reference.  Here every such
  object lives in a heap, [config] is the address of the configuration
  dict, and [assignment_exclusions] is an alias of the set stored in the
  configuration, not a copy. *)

Module Store.

Definition loc : Type := nat.

Inductive value : Type :=
  | VNone
  | VStr (s : string)
  | VRef (l : loc).

Inductive object : Type :=
  | ODict (d : Dict.t value)
  | OSet (s : gset string)
  | OList (l : list string).

Abbreviation heap := (gmap loc object).

(** Computations over the heap and the random generator. *)
Definition S (A : Type) : Type := heap * rng → result A * (heap * rng).

Definition ret {A} (a : A) : S A := λ σ, (Ok a, σ).
Definition raise {A} (e : exn) : S A := λ σ, (Raise e, σ).
Definition bind {A B} (m : S A) (k : A → S B) : S B :=
  λ σ, match m σ with
       | (Ok a, σ') => k a σ'
       | (Raise e, σ') => (Raise e, σ')
       end.
#[global] Instance S_ret : MRet S := @ret.
#[global] Instance S_bind : MBind S := λ A B k m, bind m k.

(** Run a computation that only draws random numbers. *)
Definition draw {A} (m : M A) : S A :=
  λ σ, let '(r, g') := m σ.2 in (r, (σ.1, g')).

(** A new object, at an address not in use. *)
Definition alloc (o : object) : S loc :=
  λ σ, let l := fresh (dom σ.1) in (Ok l, (<[l := o]> σ.1, σ.2)).

(** The object at an address.  Python has no dangling references; an
    address that holds nothing is treated like an object of the wrong
    kind. *)
Definition read (l : loc) : S object :=
  λ σ, match σ.1 !! l with
       | Some o => (Ok o, σ)
       | None => (Raise TypeError, σ)
       end.

Definition write (l : loc) (o : object) : S unit :=
  λ σ, (Ok (), (<[l := o]> σ.1, σ.2)).

Definition read_dict (l : loc) : S (Dict.t value) :=
  o ← read l;
  match o with ODict d => mret d | _ => raise TypeError end.

Definition read_set (l : loc) : S (gset string) :=
  o ← read l;
  match o with OSet s => mret s | _ => raise TypeError end.

Definition read_list (l : loc) : S (list string) :=
  o ← read l;
  match o with OList x => mret x | _ => raise TypeError end.

(** [d[k]] *)
Definition dict_getitem (d : loc) (k : string) : S value :=
  entries ← read_dict d;
  match Dict.get entries k with
  | Some v => mret v
  | None => raise (KeyError k)
  end.

(** [d[k]] when the program goes on to use the item as an object. *)
Definition dict_getitem_ref (d : loc) (k : string) : S loc :=
  v ← dict_getitem d k;
  match v with VRef l => mret l | _ => raise TypeError end.

(** [d[k] = v] *)
Definition dict_setitem (d : loc) (k : string) (v : value) : S unit :=
  entries ← read_dict d;
  write d (ODict (Dict.set entries k v)).

(** [list(d.keys())] *)
Definition list_of_keys (d : loc) : S loc :=
  entries ← read_dict d;
  alloc (OList (Dict.keys entries)).

(** [set(d.keys())] *)
Definition set_of_keys (d : loc) : S loc :=
  entries ← read_dict d;
  alloc (OSet (list_to_set (Dict.keys entries))).

(** [random.shuffle(x)]: the list object is permuted in place. *)
Definition shuffle_in_place (x : loc) : S unit :=
  items ← read_list x;
  items ← draw (shuffle items);
  write x (OList items).

(** [a - b]: a new set. *)
Definition set_difference (a b : loc) : S loc :=
  sa ← read_set a;
  sb ← read_set b;
  alloc (OSet (sa ∖ sb)).

(** [s.remove(x)] *)
Definition set_remove_in_place (s : loc) (x : string) : S unit :=
  elems ← read_set s;
  if decide (x ∈ elems) then write s (OSet (elems ∖ {[x]}))
  else raise (KeyError x).

Fixpoint assign_loop (participant_data : loc)
    (all_participants_randomized : list string)
    (remaining_participants assignments : loc) : S value :=
  match all_participants_randomized with
  | [] => mret (VRef assignments)
  | participant :: rest =>
      data ← dict_getitem_ref participant_data participant;
      assignment_exclusions ←
        dict_getitem_ref data PARTICIPANT_ASSIGNMENT_EXCLUSIONS_KEY;
      available_participants ←
        set_difference remaining_participants assignment_exclusions;
      available ← read_set available_participants;
      if decide (available = ∅) then mret VNone
      else
        assignment ← draw (choice (elements available));
        _ ← set_remove_in_place remaining_participants assignment;
        _ ← dict_setitem assignments participant (VStr assignment);
        assign_loop participant_data rest remaining_participants assignments
  end.

(** [get_assignments(config)]; the [for] loop runs over the items the
    shuffled list holds when the loop starts, which nothing changes
    afterwards. *)
Definition get_assignments (config : loc) : S value :=
  participant_data ← dict_getitem_ref config PARTICIPANTS_KEY;
  all_participants_randomized ← list_of_keys participant_data;
  _ ← shuffle_in_place all_participants_randomized;
  remaining_participants ← set_of_keys participant_data;
  assignments ← alloc (ODict Dict.empty);
  order ← read_list all_participants_randomized;
  assign_loop participant_data order remaining_participants assignments.

(** Reading a participant record, and the whole registry, out of the
    heap. *)
Definition load_participant (h : heap) (v : value) : option participant :=
  match v with
  | VRef l =>
      match h !! l with
      | Some (ODict d) =>
          match Dict.get d PARTICIPANT_NAME_KEY,
                Dict.get d PARTICIPANT_EMAIL_KEY,
                Dict.get d PARTICIPANT_ASSIGNMENT_EXCLUSIONS_KEY with
          | Some (VStr name), Some (VStr email), Some (VRef e) =>
              match h !! e with
              | Some (OSet s) => Some (Participant name email s)
              | _ => None
              end
          | _, _, _ => None
          end
      | _ => None
      end
  | _ => None
  end.

Fixpoint load_entries (h : heap) (d : Dict.t value)
  : option (Dict.t participant) :=
  match d with
  | [] => Some []
  | (k, v) :: d' =>
      p ← load_participant h v;
      reg ← load_entries h d';
      Some ((k, p) :: reg)
  end.

Definition load_registry (h : heap) (config : loc)
  : option (Dict.t participant) :=
  match h !! config with
  | Some (ODict c) =>
      match Dict.get c PARTICIPANTS_KEY with
      | Some (VRef p) =>
          match h !! p with
          | Some (ODict d) => load_entries h d
          | _ => None
          end
      | _ => None
      end
  | _ => None
  end.

(** Every object of [h0] is still there, unchanged. *)
Definition preserves (h0 h : heap) : Prop :=
  ∀ l, l ∈ dom h0 → h !! l = h0 !! l.

(** [h] extends [h0] without touching it. *)
Definition extends (h0 h : heap) : Prop :=
  dom h0 ⊆ dom h ∧ preserves h0 h.

(** Started in an extension of [h0], [m] ends in one, and a value it
    returns satisfies [post]. *)
Definition framed {A} (h0 : heap) (m : S A) (post : A → Prop) : Prop :=
  ∀ h g r h' g',
    extends h0 h → m (h, g) = (r, (h', g')) →
    extends h0 h' ∧ ∀ a, r = Ok a → post a.

(** An assignment as the entries of a heap dict. *)
Definition encode_assignment (a : assignment) : Dict.t value :=
  prod_map id VStr <$> a.

(** [v], in heap [h], is the Python value of the result [res]. *)
Definition represents (h : heap) (v : value) (res : option assignment) : Prop :=
  match res with
  | None => v = VNone
  | Some a => ∃ l, v = VRef l ∧ h !! l = Some (ODict (encode_assignment a))
  end.

End Store.

(** ** The single attempt as the specification words it *)

(** [greedy reg order remaining m res]: processing the givers of [order] one
    by one, with the pool [remaining] and the mapping [m] built so far, can
    end with [res]. *)
Inductive greedy (reg : Dict.t participant)
  : list string → gset string → assignment → option assignment → Prop :=
  | greedy_done remaining m :
      greedy reg [] remaining m (Some m)
  | greedy_stuck giver order remaining m data :
      Dict.get reg giver = Some data →
      remaining ∖ exclusion_ids data = ∅ →
      greedy reg (giver :: order) remaining m None
  | greedy_pick giver order remaining m data receiver res :
      Dict.get reg giver = Some data →
      receiver ∈ remaining ∖ exclusion_ids data →
      greedy reg order (remaining ∖ {[receiver]}) (Dict.set m giver receiver) res →
      greedy reg (giver :: order) remaining m res.

Definition all_ids (reg : Dict.t participant) : gset string :=
  list_to_set (Dict.keys reg).

Definition single_attempt (reg : Dict.t participant)
    (res : option assignment) : Prop :=
  ∃ order, order ≡ₚ Dict.keys reg ∧ greedy reg order (all_ids reg) Dict.empty res.

(** The greedy run with its random choices written out: [picks] lists the
    receivers taken, one per giver served, and [draws] the position of each
    of them in the listing of the set it was taken from. *)
Inductive greedy_draws (reg : Dict.t participant)
  : list string → gset string → assignment → list string → list nat
    → option assignment → Prop :=
  | greedy_draws_done remaining m :
      greedy_draws reg [] remaining m [] [] (Some m)
  | greedy_draws_stuck giver order remaining m data :
      Dict.get reg giver = Some data →
      remaining ∖ exclusion_ids data = ∅ →
      greedy_draws reg (giver :: order) remaining m [] [] None
  | greedy_draws_pick giver order remaining m data receiver i picks draws res :
      Dict.get reg giver = Some data →
      elements (remaining ∖ exclusion_ids data) !! i = Some receiver →
      greedy_draws reg order (remaining ∖ {[receiver]})
                   (Dict.set m giver receiver) picks draws res →
      greedy_draws reg (giver :: order) remaining m
                   (receiver :: picks) (i :: draws) res.

(** The receiver is allowed for the giver. *)
Definition allowed (reg : Dict.t participant) (giver receiver : string) : Prop :=
  ∃ data, Dict.get reg giver = Some data ∧ receiver ∉ exclusion_ids data.

(** Draws that are already in range: each [j] drawn for index [i] is at most
    [i]. *)
Definition in_range (indices draws : list nat) : Prop :=
  Forall2 (λ i j, j ≤ i) indices draws.

Definition shuffle_indices (n : nat) : list nat := reverse (seq 1 (n - 1)).

(** ** Invariants of the registry and of the reader *)

Definition blank (line : string) : Prop := strip line = "".

Definition registry_invariants (reg : Dict.t participant) : Prop :=
  Dict.wf reg
  ∧ Forall (λ entry, entry.1 ∈ exclusion_ids entry.2
                     ∧ exclusion_ids entry.2 ⊆ all_ids reg) reg.

(** What the reading loop maintains. *)
Definition parse_inv (st : parse_state) : Prop :=
  match participants (ps_config st) with
  | None => True
  | Some reg =>
      reg ≠ [] ∧ Dict.wf reg
      ∧ Forall (λ entry, entry.1 ∈ exclusion_ids entry.2
                         ∧ exclusion_ids entry.2 ⊆ ps_all_exclusion_ids st) reg
  end.

Fixpoint all_space (s : string) : bool :=
  match s with
  | EmptyString => true
  | String c s' => is_space c && all_space s'
  end.

(** No whitespace at either end. *)
Definition trimmed (s : string) : Prop :=
  (∀ c, first_char s = Some c → is_space c = false)
  ∧ (∀ c, last_char s = Some c → is_space c = false).

(** ** Concrete inputs *)

(** Three participants with no exclusions beyond themselves. *)
Definition example_registry : Dict.t participant :=
  [("a", Participant "Ann" "ann@example.org" {["a"]});
   ("b", Participant "Bob" "bob@example.org" {["b"]});
   ("c", Participant "Cy" "cy@example.org" {["c"]})].

Definition example_config : config :=
  Config (Some "administrator@gmail.com") (Some "secret") (Some example_registry).

Definition end_of_line : string := String newline EmptyString.

(** Two participants, the first of whom excludes everybody. *)
Definition blocked_contents : string :=
  String.concat end_of_line
    ["administrator@gmail.com";
     "secret";
     "a, Ann, ann@example.org, (b)";
     "b, Bob, bob@example.org, ()"].

Definition ann_excludes_all : participant :=
  Participant "Ann" "ann@example.org" (list_to_set ["a"; "b"]).

Definition blocked_registry : Dict.t participant :=
  [("a", ann_excludes_all); ("b", Participant "Bob" "bob@example.org" {["b"]})].

Definition blocked_config : config :=
  Config (Some "administrator@gmail.com") (Some ("secret" +:+ end_of_line))
         (Some blocked_registry).

(** A single participant. *)
Definition lonely_contents : string :=
  String.concat end_of_line
    ["administrator@gmail.com"; "secret"; "a, Ann, ann@example.org, ()"; ""].

Definition ann : participant := Participant "Ann" "ann@example.org" {["a"]}.

Definition lonely_config : config :=
  Config (Some "administrator@gmail.com") (Some ("secret" +:+ end_of_line))
         (Some [("a", ann)]).

(** The example configuration of the script's documentation. *)
Definition example_contents : string :=
  String.concat end_of_line
    ["administrator@gmail.com";
     "myGmailGeneratedAppPassword";
     "person_id1, name1, abcd@email.com, (person_id2; person_id3)";
     "person_id2, name2, abce@email.com, (person_id1; person_id3)";
     "person_id3, name3, abcf@email.com, (person_id1; person_id2)";
     "person_id4, name4, abcg@email.com, (person_id5)";
     "person_id5, name5, abch@email.com, (person_id4)";
     "person_id6, name6, abci@email.com, ()";
     ""].

Definition example_parsed : config :=
  match parse_config_file example_contents with
  | Ok config => config
  | Raise _ => empty_config
  end.

(** Only the two administrator lines. *)
Definition administrators_only : string :=
  String.concat end_of_line ["administrator@gmail.com"; "secret"; ""].

Definition example_entropy : list Byte.byte :=
  [Byte.x21; Byte.xf7; Byte.xd6; Byte.x8a; Byte.x00; Byte.x11; Byte.x22;
   Byte.x33; Byte.x44; Byte.x55; Byte.x66; Byte.x77; Byte.x88; Byte.x99;
   Byte.xaa; Byte.xbb].

(** A heap holding a configuration with two participants. *)
Definition example_heap : Store.heap :=
  list_to_map
    [(0, Store.ODict
           [(ADMINISTRATOR_EMAIL_KEY, Store.VStr "administrator@gmail.com");
            (ADMINISTRATOR_EMAIL_PASSWORD_KEY, Store.VStr "secret");
            (PARTICIPANTS_KEY, Store.VRef 1)]);
     (1, Store.ODict [("a", Store.VRef 2); ("b", Store.VRef 4)]);
     (2, Store.ODict
           [(PARTICIPANT_NAME_KEY, Store.VStr "Ann");
            (PARTICIPANT_EMAIL_KEY, Store.VStr "ann@example.org");
            (PARTICIPANT_ASSIGNMENT_EXCLUSIONS_KEY, Store.VRef 3)]);
     (3, Store.OSet {["a"]});
     (4, Store.ODict
           [(PARTICIPANT_NAME_KEY, Store.VStr "Bob");
            (PARTICIPANT_EMAIL_KEY, Store.VStr "bob@example.org");
            (PARTICIPANT_ASSIGNMENT_EXCLUSIONS_KEY, Store.VRef 5)]);
     (5, Store.OSet {["b"]})].

(** ** The reporters and the command line

    Everything the rest of the script does to the outside: it prints, it
    talks to an SMTP server, it opens files and it exits.  The outside is a
    [world]: what has been printed, what the SMTP server has been asked, the
    calls to [smtplib] that are going to raise, and the random generator. *)

(** What can end the script, beyond the exceptions of the core. *)
Inductive failure : Type :=
  | Uncaught (e : exn)
      (* an exception of [exn] that nothing caught *)
  | OSError (filename : string)
      (* [open(filename, 'r')] could not open the file *)
  | SMTPError (text : string)
      (* an exception raised inside a call to [smtplib]: a refusal by the
         server, a failure of the network, or an error of [smtplib] itself,
         such as the [UnicodeEncodeError] of [sendmail] for a message that
         is not ASCII; [text] is what [str(e)] gives *)
  | SendFailed
      (* Exception('Failed to send all e-mails successfully.') *)
  | SystemExit (code : nat)
      (* [exit(code)] *).

Inductive outcome (A : Type) : Type :=
  | Returned (a : A)
  | Failed (f : failure).
Arguments Returned {A} a.
Arguments Failed {A} f.

(** One call of [print]: a string, or an exception object, whose text the
    model does not spell out. *)
Inductive printed : Type :=
  | Text (s : string)
  | ExceptionText (f : failure).

Inductive smtp_call : Type :=
  | SMTP_connect (host : string) (port : nat)
  | SMTP_starttls
  | SMTP_login (user password : string)
  | SMTP_sendmail (from_addr to_addr msg : string)
  | SMTP_quit.

(** A call that went through, or one that raised. *)
Inductive smtp_event : Type :=
  | Done (call : smtp_call)
  | Refused (call : smtp_call) (text : string).

Record world : Type := World {
  stdout : list printed;
  smtp_log : list smtp_event;
  smtp_faults : list (option string);
  generator : rng
}.

Definition W (A : Type) : Type := world → outcome A * world.

Definition W_unit {A} (a : A) : W A := λ w, (Returned a, w).
Definition fail {A} (f : failure) : W A := λ w, (Failed f, w).
Definition W_then {A B} (m : W A) (k : A → W B) : W B :=
  λ w, match m w with
       | (Returned a, w') => k a w'
       | (Failed f, w') => (Failed f, w')
       end.
#[global] Instance W_ret : MRet W := @W_unit.
#[global] Instance W_bind : MBind W := λ A B k m, W_then m k.

(** A pure step of the core that may raise. *)
Definition of_result {A} (r : result A) : W A :=
  match r with
  | Ok a => mret a
  | Raise e => fail (Uncaught e)
  end.

(** A step of the core that draws random numbers. *)
Definition run_random {A} (m : M A) : W A :=
  λ w, let '(r, g) := m (generator w) in
       (match r with Ok a => Returned a | Raise e => Failed (Uncaught e) end,
        World (stdout w) (smtp_log w) (smtp_faults w) g).

(** [print(x)]; the write to the standard output is taken to succeed. *)
Definition print (x : printed) : W unit :=
  λ w, (Returned (),
        World (stdout w ++ [x]) (smtp_log w) (smtp_faults w) (generator w)).

(** One call to [smtplib]: the next fault, if there is one, decides whether
    it raises.  The faults stand for everything that makes such a call
    raise, the server's refusals as well as the errors [smtplib] raises
    before it sends anything. *)
Definition smtp (call : smtp_call) : W unit :=
  λ w, match smtp_faults w with
       | Some text :: faults =>
           (Failed (SMTPError text),
            World (stdout w) (smtp_log w ++ [Refused call text]) faults
                  (generator w))
       | None :: faults =>
           (Returned (),
            World (stdout w) (smtp_log w ++ [Done call]) faults (generator w))
       | [] =>
           (Returned (),
            World (stdout w) (smtp_log w ++ [Done call]) [] (generator w))
       end.

(** Whether [except Exception] catches it. *)
Definition is_Exception (f : failure) : bool :=
  match f with
  | SystemExit _ => false
  | _ => true
  end.

(** [try: body  except Exception as e: handler(e)] *)
Definition try_except {A} (body : W A) (handler : failure → W A) : W A :=
  λ w, match body w with
       | (Failed f, w') =>
           if is_Exception f then handler f w' else (Failed f, w')
       | returned => returned
       end.

(** [try: body  finally: cleanup]: the cleanup always runs; when it raises,
    its exception is the one that goes on. *)
Definition try_finally {A} (body : W A) (cleanup : W unit) : W A :=
  λ w, let '(r, w') := body w in
       match cleanup w' with
       | (Returned _, w'') => (r, w'')
       | (Failed f, w'') => (Failed f, w'')
       end.

Definition tab : ascii := ascii_of_nat 9.
Definition LF : string := String newline EmptyString.
Definition CRLF : string := String carriage_return (String newline EmptyString).

(** [config[ADMINISTRATOR_EMAIL_KEY]] and
    [config[ADMINISTRATOR_EMAIL_PASSWORD_KEY]] *)
Definition config_administrator_email (config : config) : result string :=
  match administrator_email config with
  | Some v => Ok v
  | None => Raise (KeyError ADMINISTRATOR_EMAIL_KEY)
  end.

Definition config_administrator_password (config : config) : result string :=
  match administrator_email_password config with
  | Some v => Ok v
  | None => Raise (KeyError ADMINISTRATOR_EMAIL_PASSWORD_KEY)
  end.

(** [config[PARTICIPANTS_KEY][person_id][key]] for the name and the address. *)
Definition config_participant (config : config) (person_id : string)
  : result participant :=
  match participants config with
  | Some table => Dict.getitem table person_id
  | None => Raise (KeyError PARTICIPANTS_KEY)
  end.

Definition participant_name (config : config) (person_id : string)
  : result string :=
  result_bind (config_participant config person_id) (λ data, Ok (name data)).

Definition participant_email (config : config) (person_id : string)
  : result string :=
  result_bind (config_participant config person_id) (λ data, Ok (email data)).

(** ["%s will give to %s." % (giver_name, getter_name)] *)
Definition will_give_to (giver_name getter_name : string) : string :=
  giver_name +:+ " will give to " +:+ getter_name +:+ ".".

(** ['Subject: {}\n\n{}'.format(subject, content)] *)
Definition subject_and_content (subject content : string) : string :=
  "Subject: " +:+ subject +:+ LF +:+ LF +:+ content.

(** *** pretty_print_assignments *)

Fixpoint pretty_print_loop (items : list (string * string)) (config : config)
  : W unit :=
  match items with
  | [] => mret ()
  | (giver, getter) :: items' =>
      giver_name ← of_result (participant_name config giver);
      getter_name ← of_result (participant_name config getter);
      _ ← print (Text (will_give_to giver_name getter_name));
      pretty_print_loop items' config
  end.

Definition pretty_print_assignments (assignment_uuid : string)
    (assignments : assignment) (config : config) : W unit :=
  _ ← print (Text ("Assignment Id: " +:+ assignment_uuid));
  pretty_print_loop assignments config.

(** *** get_email_content *)

(** The files that can be opened, with their text. *)
Definition file_system : Type := string → option string.

(** [open(filename, 'r')]: the text of the file, before the translation of
    newlines that reading applies. *)
Definition open_file (fs : file_system) (filename : string) : W string :=
  match fs filename with
  | Some text => mret text
  | None => fail (OSError filename)
  end.

(** [if email_content_filename:] is false for [None] and for the empty
    string; otherwise the whole file is read. *)
Definition get_email_content (fs : file_system)
    (email_content_filename : option string) : W (option string) :=
  match email_content_filename with
  | Some (String c filename) =>
      text ← open_file fs (String c filename);
      mret (Some (universal_newlines text))
  | Some EmptyString | None => mret None
  end.

(** *** generate_administrator_email_message *)

Fixpoint administrator_content (items : list (string * string)) (content : string)
  : string :=
  match items with
  | [] => content
  | (giver, getter) :: items' =>
      administrator_content items'
        (content +:+ will_give_to giver getter +:+ CRLF)
  end.

Definition generate_administrator_email_message (assignment_uuid : string)
    (assignments_by_name : Dict.t string) (administrator_email : string)
  : string :=
  let subject := "Secret Santa Assignments (" +:+ assignment_uuid +:+ ")" in
  let content := administrator_content assignments_by_name "" in
  subject_and_content subject content.

(** *** send_assignment_emails *)

(** The message for one participant. *)
Definition participant_message (subject giver_name getter_name : string)
    (email_content : option string) : string :=
  let content := will_give_to giver_name getter_name in
  let content :=
    match email_content with
    | Some (String c text) => content +:+ CRLF +:+ CRLF +:+ String c text
    | Some EmptyString | None => content
    end in
  subject_and_content subject content.

(** The loop over [assignments.items()]; it returns [assignments_by_name]. *)
Fixpoint send_loop (items : list (string * string)) (config : config)
    (administrator_email subject : string) (email_content : option string)
    (assignments_by_name : Dict.t string) : W (Dict.t string) :=
  match items with
  | [] => mret assignments_by_name
  | (giver, getter) :: items' =>
      giver_name ← of_result (participant_name config giver);
      getter_name ← of_result (participant_name config getter);
      let assignments_by_name :=
        Dict.set assignments_by_name giver_name getter_name in
      recipient_email ← of_result (participant_email config giver);
      let message :=
        participant_message subject giver_name getter_name email_content in
      _ ← smtp (SMTP_sendmail administrator_email recipient_email message);
      _ ← print (Text ("Sent assignment to " +:+ recipient_email +:+ "."));
      send_loop items' config administrator_email subject email_content
                assignments_by_name
  end.

(** ["Alert: Secret Santa Assignment (%s)" % assignment_uuid] *)
Definition alert_subject (assignment_uuid : string) : string :=
  "Alert: Secret Santa Assignment (" +:+ assignment_uuid +:+ ")".

(** The body of the [try]. *)
Definition send_all (assignment_uuid : string) (assignments : assignment)
    (config : config) (email_content : option string)
    (administrator_email : string) : W unit :=
  let subject := alert_subject assignment_uuid in
  assignments_by_name ←
    send_loop assignments config administrator_email subject email_content
              Dict.empty;
  let administrator_email_message :=
    generate_administrator_email_message assignment_uuid assignments_by_name
                                         administrator_email in
  _ ← smtp (SMTP_sendmail administrator_email administrator_email
                          administrator_email_message);
  print (Text ("Sent all assignments to " +:+ administrator_email +:+ ".")).

Definition send_assignment_emails (assignment_uuid : string)
    (assignments : assignment) (config : config)
    (email_content : option string) : W unit :=
  administrator_email ← of_result (config_administrator_email config);
  administrator_password ← of_result (config_administrator_password config);
  _ ← smtp (SMTP_connect "smtp.gmail.com" 587);
  _ ← smtp SMTP_starttls;
  _ ← smtp (SMTP_login administrator_email administrator_password);
  try_finally
    (try_except
       (send_all assignment_uuid assignments config email_content
                 administrator_email)
       (λ e, _ ← print (ExceptionText e); fail SendFailed))
    (smtp SMTP_quit).

(** *** The main program *)

(** The two usage messages, for [sys.argv[0]]. *)
Definition usage_send (prog : string) : string :=
  "To generate and send emails:" +:+ LF +:+ String tab "usage: python "
  +:+ prog +:+ " config_filename [email_content_filename]".

Definition usage_print (prog : string) : string :=
  "To generate and print output without emails:" +:+ LF
  +:+ String tab "usage: python " +:+ prog +:+ " -p config_filename".

(** What the argument vector selects: the configuration file, whether to
    send, and the file of additional content ([None] also where the script
    leaves the variable unbound, in print mode, where it is not read). *)
Record invocation : Type := Invocation {
  config_filename : string;
  should_send_email : bool;
  email_content_filename : option string
}.

Definition usage_error (argv : list string) : W invocation :=
  match argv with
  | [] => fail (Uncaught IndexError)
  | prog :: _ =>
      _ ← print (Text (usage_send prog));
      _ ← print (Text (usage_print prog));
      fail (SystemExit 1)
  end.

(** The [if len(sys.argv) not in [2, 3]: ... else: ...] chain. *)
Definition read_arguments (argv : list string) : W invocation :=
  match argv with
  | [_; a1] => mret (Invocation a1 true None)
  | [_; a1; a2] =>
      if decide (a1 = "-p") then mret (Invocation a2 false None)
      else mret (Invocation a1 true (Some a2))
  | _ => usage_error argv
  end.

(** The script from its first line to its last.  [None] only reports that
    the retry loop ran out of fuel, which it does not. *)
Definition program (fs : file_system) (entropy : list Byte.byte)
    (argv : list string) : W (option unit) :=
  inv ← read_arguments argv;
  contents ← open_file fs (config_filename inv);
  config ← of_result (parse_config_file contents);
  assignments ← run_random (assign_with_retries (MAX_ASSIGNMENT_ATTEMPTS + 2)
                                                MAX_ASSIGNMENT_ATTEMPTS config);
  match assignments with
  | None => mret None
  | Some assignments =>
      let assignment_uuid := assignment_uuid entropy in
      if should_send_email inv then
        email_content ← get_email_content fs (email_content_filename inv);
        _ ← send_assignment_emails assignment_uuid assignments config
                                   email_content;
        mret (Some ())
      else
        _ ← pretty_print_assignments assignment_uuid assignments config;
        mret (Some ())
  end.

(** ** What the reporters are expected to produce *)

(** The name and the address under which the registry knows an id. *)
Definition display_name (reg : Dict.t participant) (person_id : string) : string :=
  from_option name "" (Dict.get reg person_id).

Definition address (reg : Dict.t participant) (person_id : string) : string :=
  from_option email "" (Dict.get reg person_id).

(** Every giver and every receiver of [a] is in the registry. *)
Definition known (reg : Dict.t participant) (a : assignment) : Prop :=
  Forall (λ entry, entry.1 ∈ Dict.keys reg ∧ entry.2 ∈ Dict.keys reg) a.

Definition printed_pair (reg : Dict.t participant) (entry : string * string)
  : printed :=
  Text (will_give_to (display_name reg entry.1) (display_name reg entry.2)).

Definition mail_to (reg : Dict.t participant)
    (administrator assignment_uuid : string) (email_content : option string)
    (entry : string * string) : smtp_call :=
  SMTP_sendmail administrator (address reg entry.1)
    (participant_message (alert_subject assignment_uuid)
       (display_name reg entry.1) (display_name reg entry.2) email_content).

Definition sent_line (reg : Dict.t participant) (entry : string * string)
  : printed :=
  Text ("Sent assignment to " +:+ address reg entry.1 +:+ ".").

(** [assignments_by_name] after the loop has run over [a]. *)
Definition by_name (reg : Dict.t participant) (a : assignment)
    (assignments_by_name : Dict.t string) : Dict.t string :=
  foldl (λ d entry,
           Dict.set d (display_name reg entry.1) (display_name reg entry.2))
        assignments_by_name a.

Definition summary_mail (reg : Dict.t participant)
    (administrator assignment_uuid : string) (a : assignment) : smtp_call :=
  SMTP_sendmail administrator administrator
    (generate_administrator_email_message assignment_uuid (by_name reg a [])
                                          administrator).

(** None of these calls raises. *)
Definition no_fault (faults : list (option string)) : Prop :=
  Forall (λ fault, fault = None) faults.

(** The three calls that open the session, before the [try]. *)
Definition session_setup (administrator password : string) : list smtp_call :=
  [SMTP_connect "smtp.gmail.com" 587; SMTP_starttls;
   SMTP_login administrator password].

(** One line of the administrator's summary. *)
Definition summary_line (reg : Dict.t participant) (entry : string * string)
  : string :=
  will_give_to (display_name reg entry.1) (display_name reg entry.2) +:+ CRLF.

Definition names_pair (reg : Dict.t participant) (entry : string * string)
  : string * string :=
  (display_name reg entry.1, display_name reg entry.2).

(** The address a [sendmail] that went through was sent to. *)
Definition recipient (event : smtp_event) : option string :=
  match event with
  | Done (SMTP_sendmail _ to_addr _) => Some to_addr
  | _ => None
  end.

(** ** Shapes of registries and of assignments *)

(** Three participants who exclude only themselves. *)
Definition three_registry (a b c : string) (pa pb pc : participant)
  : Dict.t participant := [(a, pa); (b, pb); (c, pc)].

(** [a] assigns within [reg]: it is a bijection on the ids and no receiver
    is excluded by, or the same as, the giver. *)
Definition valid_assignment (reg : Dict.t participant) (a : assignment) : Prop :=
  Dict.keys a ≡ₚ Dict.keys reg
  ∧ Dict.values a ≡ₚ Dict.keys reg
  ∧ ∀ giver receiver, (giver, receiver) ∈ a →
      ∃ data, Dict.get reg giver = Some data
              ∧ (receiver ∉ exclusion_ids data) ∧ receiver ≠ giver.

(** ** What the reader maintains for the fields *)

(** The id, the name, the address and every excluded id of a participant
    carry no white space at either end. *)
Definition participant_trimmed (entry : string * participant) : Prop :=
  trimmed entry.1 ∧ trimmed (name entry.2) ∧ trimmed (email entry.2)
  ∧ ∀ excluded, excluded ∈ exclusion_ids entry.2 → trimmed excluded.

Definition fields_inv (st : parse_state) : Prop :=
  match participants (ps_config st) with
  | None => True
  | Some reg => Forall participant_trimmed reg
  end.

(** ** Further concrete inputs *)

(** [blocked_contents] with blank lines between the participants. *)
Definition blocked_contents_spaced : string :=
  String.concat end_of_line
    ["administrator@gmail.com";
     "secret";
     "";
     "a, Ann, ann@example.org, (b)";
     "   ";
     "b, Bob, bob@example.org, ()"].

(** Two participants who may give to each other. *)
Definition pair_config : config :=
  Config (Some "administrator@gmail.com") (Some ("secret" +:+ end_of_line))
         (Some [("a", ann); ("b", Participant "Bob" "bob@example.org" {["b"]})]).

(** Two participants of the same name. *)
Definition namesake_registry : Dict.t participant :=
  [("a", ann); ("b", Participant "Ann" "ann2@example.org" {["b"]})].

Definition namesake_config : config :=
  Config (Some "administrator@gmail.com") (Some ("secret" +:+ end_of_line))
         (Some namesake_registry).

(** An assignment for [example_registry]. *)
Definition example_assignment : assignment :=
  [("a", "c"); ("c", "b"); ("b", "a")].

(** A file of additional content, with a Windows line end. *)
Definition example_greeting : string :=
  "Merry Christmas!" +:+ String carriage_return end_of_line.

(** A file system with the example configuration and the greeting. *)
Definition example_files : file_system :=
  λ filename,
    if decide (filename = "config.txt") then Some example_contents
    else if decide (filename = "greeting.txt") then Some example_greeting
    else None.

Definition example_argv : list string :=
  ["secret_santa.py"; "config.txt"; "greeting.txt"].

(** A server that refuses the fifth call. *)
Definition example_faults : list (option string) :=
  [None; None; None; None; Some "550 rejected"].

(** * Proofs *)

(** ** The model at work *)

Example strip_example : strip ("  a b " +:+ end_of_line) = "a b".
Proof. reflexivity. Qed.

Example split_example : split "," "a,,b," = ["a"; ""; "b"; ""].
Proof. reflexivity. Qed.

Example lines_example :
  lines ("a" +:+ end_of_line +:+ end_of_line +:+ "b")
  = ["a" +:+ end_of_line; end_of_line; "b"].
Proof. reflexivity. Qed.

Example universal_newlines_example :
  universal_newlines
    (String "a" (String carriage_return (String newline
       (String "b" (String carriage_return EmptyString)))))
  = "a" +:+ end_of_line +:+ "b" +:+ end_of_line.
Proof. reflexivity. Qed.

Example parse_blocked_example : parse_config_file blocked_contents = Ok blocked_config.
Proof. vm_compute. reflexivity. Qed.

Example parse_lonely_example : parse_config_file lonely_contents = Ok lonely_config.
Proof. vm_compute. reflexivity. Qed.

Example parse_unpack_example :
  parse_config_file (administrators_only +:+ "a, Ann, ann@example.org")
  = Raise (ValueError 4 3).
Proof. vm_compute. reflexivity. Qed.

Example parse_duplicate_example :
  parse_config_file (lonely_contents +:+ "a, Ann, ann@example.org, ()")
  = Raise (DuplicatePersonId "a").
Proof. vm_compute. reflexivity. Qed.

Example parse_unknown_example :
  parse_config_file (administrators_only +:+ "a, Ann, ann@example.org, (z)")
  = Raise (UnknownExclusionIds {["z"]}).
Proof. vm_compute. reflexivity. Qed.

Example shuffle_example : shuffle [1; 2; 3; 4] [0; 0; 0] = (Ok [2; 3; 4; 1], []).
Proof. reflexivity. Qed.

Example get_assignments_example :
  get_assignments example_config [1; 1; 0; 1; 0]
  = (Ok (Some [("a", "c"); ("c", "b"); ("b", "a")]), []).
Proof. vm_compute. reflexivity. Qed.

Example get_assignments_stuck_example :
  get_assignments example_config [2; 1; 1; 1; 0] = (Ok None, [0]).
Proof. vm_compute. reflexivity. Qed.

Example assignment_uuid_example : assignment_uuid example_entropy = "21f7d68".
Proof. vm_compute. reflexivity. Qed.

Example main_example :
  main example_contents example_entropy [1; 2; 3; 1; 1; 2; 1; 0; 1; 1; 0]
  = (Ok (Some ("21f7d68",
               [("person_id1", "person_id4"); ("person_id5", "person_id1");
                ("person_id6", "person_id3"); ("person_id4", "person_id2");
                ("person_id3", "person_id6"); ("person_id2", "person_id5")])),
     []).
Proof. vm_compute. reflexivity. Qed.

(** ** Facts about dictionaries *)

Section dict_facts.
Context {V : Type}.
Implicit Types (d : Dict.t V) (k : string) (v : V).

Lemma dict_get_None d k : Dict.get d k = None ↔ k ∉ Dict.keys d.
Proof.
  induction d as [|[k' v'] d IH]; simpl.
  - split; [intros _; apply not_elem_of_nil | done].
  - rewrite not_elem_of_cons. destruct (decide (k' = k)) as [->|Hne].
    + split; [done | by intros [? _]].
    + rewrite IH. split; [by intros; split; [congruence|] | by intros [_ ?]].
Qed.

Lemma dict_get_is_Some d k : k ∈ Dict.keys d → is_Some (Dict.get d k).
Proof.
  intros Hk. destruct (Dict.get d k) eqn:E; [eauto|].
  by apply dict_get_None in E.
Qed.

Lemma dict_get_elem_of d k v : Dict.get d k = Some v → (k, v) ∈ d.
Proof.
  induction d as [|[k' v'] d IH]; simpl; [done|].
  destruct (decide (k' = k)) as [->|].
  - intros [= ->]. left.
  - intros. right. auto.
Qed.

Lemma dict_get_keys d k v : Dict.get d k = Some v → k ∈ Dict.keys d.
Proof.
  intros Hget%dict_get_elem_of. by apply (list_elem_of_fmap_2 fst) in Hget.
Qed.

Lemma dict_elem_of_get d k v : Dict.wf d → (k, v) ∈ d → Dict.get d k = Some v.
Proof.
  unfold Dict.wf, Dict.keys.
  induction d as [|[k' v'] d IH]; simpl; [by intros _ ?%elem_of_nil|].
  intros [Hk' Hd]%NoDup_cons [[= -> ->]|Hin]%elem_of_cons.
  - by rewrite decide_True.
  - rewrite decide_False; [auto|].
    intros ->. apply Hk'. by apply (list_elem_of_fmap_2 fst) in Hin.
Qed.

Lemma dict_set_new d k v : k ∉ Dict.keys d → Dict.set d k v = d ++ [(k, v)].
Proof.
  unfold Dict.keys.
  induction d as [|[k' v'] d IH]; simpl; [done|].
  intros [Hne Hk]%not_elem_of_cons.
  rewrite decide_False by done. by rewrite IH.
Qed.


Lemma dict_mem_false d k : Dict.mem k d = false ↔ k ∉ Dict.keys d.
Proof.
  unfold Dict.mem. rewrite bool_decide_eq_false, <- dict_get_None.
  rewrite eq_None_not_Some. done.
Qed.
End dict_facts.

(** ** Facts about the random primitives *)

Lemma swap_length {A} (x : list A) i j : length (swap x i j) = length x.
Proof.
  unfold swap. destruct (x !! i), (x !! j); try done.
  by rewrite !length_insert.
Qed.

Lemma insert_insert_Permutation {A} (x : list A) i j a b :
  x !! i = Some a → x !! j = Some b → <[j := a]> (<[i := b]> x) ≡ₚ x.
Proof.
  revert i j. induction x as [|h x IH]; intros [|i] [|j]; simpl; try done.
  - by intros [= ->] [= ->].
  - intros [= ->] Hj. clear IH. revert j Hj.
    induction x as [|h x IH]; intros [|j]; simpl; try done.
    + intros [= ->]. apply perm_swap.
    + intros Hj. rewrite (perm_swap h b), (perm_swap h a). by rewrite IH.
  - intros Hi [= ->]. clear IH. revert i Hi.
    induction x as [|h x IH]; intros [|i]; simpl; try done.
    + intros [= ->]. apply perm_swap.
    + intros Hi. rewrite (perm_swap h b), (perm_swap h a). by rewrite IH.
  - intros Hi Hj. by rewrite IH.
Qed.

Lemma swap_Permutation {A} (x : list A) i j : swap x i j ≡ₚ x.
Proof.
  unfold swap. destruct (x !! i) eqn:Hi, (x !! j) eqn:Hj; try done.
  by apply insert_insert_Permutation.
Qed.

Lemma randbelow_lt n g : 0 < n → ∃ j g', randbelow n g = (Ok j, g') ∧ j < n.
Proof.
  intros Hn. destruct g as [|x g]; simpl; [by eauto|].
  eexists _, _. split; [done|]. apply Nat.mod_upper_bound. lia.
Qed.

Lemma shuffle_loop_Permutation {A} indices (x : list A) g :
  ∃ y g', shuffle_loop indices x g = (Ok y, g') ∧ y ≡ₚ x.
Proof.
  revert x g. induction indices as [|i indices IH]; intros x g; simpl.
  - by eexists _, _.
  - destruct (randbelow_lt (i + 1) g) as (j & g1 & Hj & _); [lia|].
    unfold mbind, M_bind, bind. rewrite Hj.
    destruct (IH (swap x i j) g1) as (y & g' & -> & Hy).
    eexists _, _. split; [done|]. by rewrite Hy, swap_Permutation.
Qed.

Lemma shuffle_Permutation {A} (x : list A) g :
  ∃ y g', shuffle x g = (Ok y, g') ∧ y ≡ₚ x.
Proof. apply shuffle_loop_Permutation. Qed.

Lemma choice_elem_of {A} (seq : list A) g :
  seq ≠ [] → ∃ a g', choice seq g = (Ok a, g') ∧ a ∈ seq.
Proof.
  intros Hseq. destruct seq as [|a0 seq]; [done|].
  unfold choice.
  destruct (randbelow_lt (length (a0 :: seq)) g) as (i & g' & Hi & Hlt);
    [simpl; lia|].
  unfold mbind, M_bind, bind. rewrite Hi.
  destruct (lookup_lt_is_Some_2 (a0 :: seq) i Hlt) as [a Ha].
  rewrite Ha. eexists _, _. split; [done|].
  by eapply list_elem_of_lookup_2.
Qed.

Lemma assign_loop_greedy reg order remaining m g :
  order ⊆ Dict.keys reg →
  ∃ res g', assign_loop reg order remaining m g = (Ok res, g')
            ∧ greedy reg order remaining m res.
Proof.
  revert remaining m g.
  induction order as [|giver order IH]; intros remaining m g Hsub; simpl.
  - eexists _, _. split; [done | constructor].
  - destruct (dict_get_is_Some reg giver) as [data Hdata];
      [apply Hsub; left|].
    unfold mbind, M_bind, bind, lift, Dict.getitem. rewrite Hdata.
    case_decide as Hav.
    + eexists _, _. split; [done|]. by eapply greedy_stuck.
    + set (available := remaining ∖ exclusion_ids data) in *.
      destruct (choice_elem_of (elements available) g)
        as (receiver & g1 & -> & Hrecv).
      { intros Hnil. apply Hav. apply leibniz_equiv.
        by apply elements_empty_inv. }
      apply elem_of_elements in Hrecv.
      assert (receiver ∈ remaining) as Hrem.
      { subst available. by apply elem_of_difference in Hrecv as [? _]. }
      unfold set_remove. rewrite decide_True by done.
      destruct (IH (remaining ∖ {[receiver]}) (Dict.set m giver receiver) g1)
        as (res & g' & -> & Hgreedy).
      { intros k Hk. apply Hsub. by right. }
      eexists _, _. split; [done|]. by eapply greedy_pick.
Qed.

Lemma get_assignments_greedy config reg g :
  participants config = Some reg →
  ∃ res g', get_assignments config g = (Ok res, g') ∧ single_attempt reg res.
Proof.
  intros Hreg. unfold get_assignments, mbind, M_bind, bind, lift.
  rewrite Hreg.
  destruct (shuffle_Permutation (Dict.keys reg) g) as (order & g1 & -> & Horder).
  destruct (assign_loop_greedy reg order (list_to_set (Dict.keys reg))
              Dict.empty g1) as (res & g' & -> & Hgreedy).
  { intros k Hk. by rewrite <- Horder. }
  eexists _, _. split; [done|]. by exists order.
Qed.

(** What a completed greedy run has built. *)
Lemma greedy_Some reg order remaining m a :
  greedy reg order remaining m (Some a) →
  NoDup (Dict.keys m ++ order) →
  ∃ picked,
    a = m ++ zip order picked ∧ length picked = length order
    ∧ NoDup picked ∧ (∀ r, r ∈ picked → r ∈ remaining)
    ∧ Forall2 (allowed reg) order picked.
Proof.
  intros Hgreedy. remember (Some a) as res eqn:Hres.
  revert a Hres.
  induction Hgreedy as [remaining m
                       |giver order remaining m data Hdata Hav
                       |giver order remaining m data receiver res Hdata Hrecv Hgreedy IH];
    intros a Hres Hnodup; simplify_eq.
  - exists []. rewrite app_nil_r.
    split_and!; [done | done | constructor | | constructor].
    by intros r ?%elem_of_nil.
  - assert (giver ∉ Dict.keys m) as Hfresh.
    { apply NoDup_app in Hnodup as (_ & Hdisj & _).
      intros Hin. apply (Hdisj _ Hin). left. }
    rewrite (dict_set_new m giver receiver Hfresh) in IH.
    destruct (IH a eq_refl) as (picked & -> & Hlen & Hnd & Hin & Hall).
    { unfold Dict.keys in *. rewrite fmap_app. simpl.
      by rewrite <- app_assoc. }
    exists (receiver :: picked). simpl. rewrite <- app_assoc. simpl.
    split_and!; [done | by rewrite Hlen | | | ].
    + apply NoDup_cons. split; [|done].
      intros Hr%Hin%elem_of_difference. apply Hr. by apply elem_of_singleton.
    + intros r [->|Hr%Hin%elem_of_difference]%elem_of_cons; [|tauto].
      by apply elem_of_difference in Hrecv as [? _].
    + constructor; [|done]. exists data. split; [done|].
      by apply elem_of_difference in Hrecv as [_ ?].
Qed.

Lemma single_attempt_Some reg a :
  Dict.wf reg → single_attempt reg (Some a) →
  Dict.keys a ≡ₚ Dict.keys reg ∧ Dict.values a ≡ₚ Dict.keys reg
  ∧ ∀ giver receiver, (giver, receiver) ∈ a → allowed reg giver receiver.
Proof.
  intros Hwf (order & Horder & Hgreedy).
  apply greedy_Some in Hgreedy as (picked & -> & Hlen & Hnd & Hin & Hall).
  2:{ simpl. by rewrite Horder. }
  simpl. unfold Dict.keys, Dict.values.
  rewrite fst_zip, snd_zip by lia.
  split; [done|]. split.
  - trans order; [|done].
    apply submseteq_length_Permutation; [|lia].
    apply NoDup_submseteq; [done|].
    intros r Hr. rewrite Horder. apply Hin in Hr.
    by apply elem_of_list_to_set in Hr.
  - intros giver receiver Hgr.
    apply list_elem_of_lookup in Hgr as [i Hi].
    apply lookup_zip_with_Some in Hi as (x & y & [= <- <-] & Hx & Hy).
    by eapply Forall2_lookup_lr.
Qed.

(** ** Every order and every receiver can be drawn, in exactly one way *)

Lemma randbelow_small n j rest : j < n → randbelow n (j :: rest) = (Ok j, rest).
Proof. intros Hj. simpl. by rewrite Nat.mod_small. Qed.

Lemma rev_seq_S k : reverse (seq 1 (S k)) = S k :: reverse (seq 1 k).
Proof. by rewrite seq_S, reverse_snoc. Qed.

Lemma swap_lookup_l {A} (x : list A) i j b :
  i < length x → x !! j = Some b → swap x i j !! i = Some b.
Proof.
  intros Hi Hj. unfold swap.
  destruct (lookup_lt_is_Some_2 x i Hi) as [a Ha]. rewrite Ha, Hj.
  destruct (decide (i = j)) as [->|Hne].
  - rewrite list_lookup_insert_eq by (by rewrite length_insert). congruence.
  - rewrite list_lookup_insert_ne by done.
    by rewrite list_lookup_insert_eq.
Qed.

Lemma swap_take {A} (x : list A) i j :
  j ≤ i → take (S i) (swap x i j) = swap (take (S i) x) i j.
Proof.
  intros Hji. unfold swap. rewrite !lookup_take_lt by lia.
  destruct (x !! i), (x !! j); try done.
  by rewrite !take_insert_lt by lia.
Qed.

Lemma swap_drop {A} (x : list A) i j n :
  i < n → j < n → drop n (swap x i j) = drop n x.
Proof.
  intros Hi Hj. unfold swap. destruct (x !! i), (x !! j); try done.
  by rewrite !drop_insert_lt by lia.
Qed.

Lemma shuffle_loop_reach {A} k (x t : list A) :
  k < length x →
  take (S k) t ≡ₚ take (S k) x → drop (S k) t = drop (S k) x →
  ∃ draws, in_range (reverse (seq 1 k)) draws
    ∧ ∀ rest, shuffle_loop (reverse (seq 1 k)) x (draws ++ rest) = (Ok t, rest).
Proof.
  revert x t. induction k as [|k IH]; intros x t Hk Htake Hdrop.
  - exists []. split; [constructor|]. intros rest. simpl.
    destruct x as [|x0 x]; [simpl in Hk; lia|].
    destruct t as [|t0 t]; simpl in *.
    { by apply Permutation_nil_cons in Htake. }
    rewrite !take_0 in Htake. apply Permutation_singleton_r in Htake.
    rewrite !drop_0 in Hdrop. by simplify_eq.
  - rewrite rev_seq_S. set (i := S k) in *.
    assert (length (take (S i) t) = S i) as Hlen.
    { rewrite Htake, length_take. lia. }
    rewrite length_take in Hlen.
    destruct (lookup_lt_is_Some_2 t i) as [e He]; [lia|].
    assert (e ∈ take (S i) x) as Hin.
    { rewrite <- Htake. apply elem_of_take. exists i. split; [done | lia]. }
    apply elem_of_take in Hin as (j & Hj & Hji).
    assert (swap x i j !! i = Some e) as Hswap by by apply swap_lookup_l.
    destruct (IH (swap x i j) t) as (draws & Hrange & Hrun).
    + rewrite swap_length. lia.
    + apply (Permutation_app_inv_r [e]).
      rewrite <- !take_S_r by done.
      rewrite Htake, swap_take by lia. by rewrite swap_Permutation.
    + rewrite (drop_S t e i), (drop_S (swap x i j) e i) by done.
      by rewrite Hdrop, swap_drop by lia.
    + exists (j :: draws). split.
      * constructor; [lia | done].
      * intros rest. simpl.
        unfold mbind, M_bind, bind.
        rewrite randbelow_small by lia. apply Hrun.
Qed.

Lemma shuffle_reach {A} (x t : list A) :
  t ≡ₚ x →
  ∃ draws, in_range (shuffle_indices (length x)) draws
    ∧ ∀ rest, shuffle x (draws ++ rest) = (Ok t, rest).
Proof.
  intros Ht. unfold shuffle, shuffle_indices.
  destruct x as [|x0 x].
  - apply Permutation_nil_r in Ht as ->. exists []. split; [constructor|done].
  - assert (length t = length (x0 :: x)) as Hlen by by rewrite Ht.
    apply shuffle_loop_reach.
    + simpl. lia.
    + by rewrite !take_ge by (simpl in *; lia).
    + by rewrite !drop_ge by (simpl in *; lia).
Qed.

(** Later iterations only touch indices below the current one. *)
Lemma shuffle_loop_frame {A} indices (x : list A) draws rest n :
  Forall (λ i, i < n) indices → in_range indices draws →
  ∃ y, shuffle_loop indices x (draws ++ rest) = (Ok y, rest)
       ∧ y ≡ₚ x ∧ drop n y = drop n x.
Proof.
  intros Hidx Hrange. revert x. induction Hrange as [|i j indices draws Hji _ IH];
    intros x; simpl.
  - by exists x.
  - apply Forall_cons in Hidx as [Hi Hidx].
    unfold mbind, M_bind, bind. rewrite randbelow_small by lia.
    destruct (IH Hidx (swap x i j)) as (y & -> & Hperm & Hdrop).
    exists y. split; [done|]. split.
    + by rewrite Hperm, swap_Permutation.
    + rewrite Hdrop. apply swap_drop; lia.
Qed.

Lemma lookup_of_drop {A} (x y : list A) n :
  drop n y = drop n x → y !! n = x !! n.
Proof.
  intros Hdrop.
  pose proof (lookup_drop y n 0) as Hy. pose proof (lookup_drop x n 0) as Hx.
  rewrite Nat.add_0_r in Hy, Hx. by rewrite <- Hy, <- Hx, Hdrop.
Qed.

Lemma rev_seq_lt k : Forall (λ i, i < S k) (reverse (seq 1 k)).
Proof.
  apply Forall_forall. intros i Hi%elem_of_reverse%elem_of_seq. lia.
Qed.

Lemma shuffle_loop_inj {A} k (x t : list A) draws draws' rest rest' :
  NoDup x → k < length x →
  in_range (reverse (seq 1 k)) draws → in_range (reverse (seq 1 k)) draws' →
  shuffle_loop (reverse (seq 1 k)) x (draws ++ rest) = (Ok t, rest) →
  shuffle_loop (reverse (seq 1 k)) x (draws' ++ rest') = (Ok t, rest') →
  draws = draws'.
Proof.
  revert x draws draws'. induction k as [|k IH];
    intros x draws draws' Hnd Hk Hr Hr' Hrun Hrun'.
  - by inversion Hr; inversion Hr'.
  - rewrite rev_seq_S in *.
    inversion Hr as [|i j idx ds Hji Hr1]; subst.
    inversion Hr' as [|i j' idx ds' Hji' Hr1']; subst.
    simpl in Hrun, Hrun'. unfold mbind, M_bind, bind in Hrun, Hrun'.
    rewrite randbelow_small in Hrun, Hrun' by lia.
    destruct (shuffle_loop_frame (reverse (seq 1 k)) (swap x (S k) j) ds rest (S k))
      as (y & Hy & _ & Hdrop); [apply rev_seq_lt | done |].
    destruct (shuffle_loop_frame (reverse (seq 1 k)) (swap x (S k) j') ds' rest' (S k))
      as (y' & Hy' & _ & Hdrop'); [apply rev_seq_lt | done |].
    rewrite Hy in Hrun. rewrite Hy' in Hrun'. simplify_eq.
    destruct (lookup_lt_is_Some_2 x j) as [b Hb]; [lia|].
    destruct (lookup_lt_is_Some_2 x j') as [b' Hb']; [lia|].
    assert (j = j') as <-.
    { apply (NoDup_lookup x j j' b); [done..|].
      pose proof (swap_lookup_l x (S k) j b Hk Hb) as H1.
      pose proof (swap_lookup_l x (S k) j' b' Hk Hb') as H2.
      rewrite <- (lookup_of_drop _ _ _ Hdrop) in H1.
      rewrite <- (lookup_of_drop _ _ _ Hdrop') in H2. congruence. }
    f_equal. eapply (IH (swap x (S k) j)); [| |done..].
    + by rewrite swap_Permutation.
    + rewrite swap_length. lia.
Qed.

Lemma choice_lookup {A} (seq : list A) i a rest :
  seq !! i = Some a → choice seq (i :: rest) = (Ok a, rest).
Proof.
  intros Hi. pose proof (lookup_lt_Some _ _ _ Hi) as Hlt.
  destruct seq as [|a0 seq]; [done|]. unfold choice.
  unfold mbind, M_bind, bind. rewrite randbelow_small by done.
  by rewrite Hi.
Qed.

Lemma shuffle_inj {A} (x t : list A) draws draws' rest rest' :
  NoDup x →
  in_range (shuffle_indices (length x)) draws →
  in_range (shuffle_indices (length x)) draws' →
  shuffle x (draws ++ rest) = (Ok t, rest) →
  shuffle x (draws' ++ rest') = (Ok t, rest') →
  draws = draws'.
Proof.
  unfold shuffle, shuffle_indices. intros Hnd Hr Hr' Hrun Hrun'.
  destruct x as [|x0 x].
  - by inversion Hr; inversion Hr'.
  - eapply (shuffle_loop_inj (length (x0 :: x) - 1) (x0 :: x) t); try done.
    simpl. lia.
Qed.

Lemma choice_inj {A} (seq : list A) a i i' rest rest' :
  NoDup seq → i < length seq → i' < length seq →
  choice seq (i :: rest) = (Ok a, rest) →
  choice seq (i' :: rest') = (Ok a, rest') →
  i = i'.
Proof.
  intros Hnd Hi Hi'.
  destruct (lookup_lt_is_Some_2 seq i Hi) as [b Hb].
  destruct (lookup_lt_is_Some_2 seq i' Hi') as [b' Hb'].
  rewrite (choice_lookup seq i b rest Hb), (choice_lookup seq i' b' rest' Hb').
  intros [= ->] [= ->]. by eapply NoDup_lookup.
Qed.

Lemma assign_loop_reach reg order remaining m res :
  greedy reg order remaining m res →
  ∃ tape, ∀ rest, assign_loop reg order remaining m (tape ++ rest) = (Ok res, rest).
Proof.
  induction 1 as [remaining m
                 |giver order remaining m data Hdata Hav
                 |giver order remaining m data receiver res Hdata Hrecv _ IH].
  - by exists [].
  - exists []. intros rest. simpl.
    unfold mbind, M_bind, bind, lift, Dict.getitem. rewrite Hdata.
    by rewrite decide_True.
  - destruct IH as [tape Htape].
    pose proof Hrecv as Hin. apply elem_of_elements in Hin.
    apply list_elem_of_lookup in Hin as [i Hi].
    exists (i :: tape). intros rest. simpl.
    unfold mbind, M_bind, bind, lift, Dict.getitem. rewrite Hdata.
    rewrite decide_False.
    2:{ intros Hempty. rewrite Hempty in Hrecv. by apply not_elem_of_empty in Hrecv. }
    rewrite (choice_lookup _ i receiver) by done.
    unfold set_remove. rewrite decide_True; [apply Htape|].
    by apply elem_of_difference in Hrecv as [? _].
Qed.

Lemma get_assignments_reach config reg res :
  participants config = Some reg → single_attempt reg res →
  ∃ tape, ∀ rest, get_assignments config (tape ++ rest) = (Ok res, rest).
Proof.
  intros Hreg (order & Horder & Hgreedy).
  destruct (shuffle_reach (Dict.keys reg) order Horder) as (draws & _ & Hshuffle).
  destruct (assign_loop_reach _ _ _ _ _ Hgreedy) as (tape & Htape).
  exists (draws ++ tape). intros rest.
  unfold get_assignments, mbind, M_bind, bind, lift. rewrite Hreg.
  rewrite <- app_assoc, Hshuffle. apply Htape.
Qed.

(** A stuck participant makes every run fail. *)
Lemma greedy_blocked reg order remaining m res blocked data :
  greedy reg order remaining m res →
  blocked ∈ order → Dict.get reg blocked = Some data →
  remaining ⊆ exclusion_ids data →
  res = None.
Proof.
  intros Hgreedy. revert blocked data.
  induction Hgreedy as [remaining m
                       |giver order remaining m data' Hdata' Hav
                       |giver order remaining m data' receiver res Hdata' Hrecv _ IH];
    intros blocked data Hin Hdata Hsub.
  - by apply elem_of_nil in Hin.
  - done.
  - apply elem_of_difference in Hrecv as [Hrem Hexcl].
    apply elem_of_cons in Hin as [->|Hin].
    + simplify_eq. destruct Hexcl. by apply Hsub.
    + apply (IH blocked data Hin Hdata).
      intros r [Hr _]%elem_of_difference. by apply Hsub.
Qed.

Lemma single_attempt_blocked reg res blocked data :
  single_attempt reg res →
  Dict.get reg blocked = Some data → all_ids reg ⊆ exclusion_ids data →
  res = None.
Proof.
  intros (order & Horder & Hgreedy) Hdata Hsub.
  eapply greedy_blocked; [done| |done..].
  rewrite Horder. by eapply dict_get_keys.
Qed.



Lemma list_to_set_Permutation (l k : list string) :
  l ≡ₚ k → (list_to_set l : gset string) = list_to_set k.
Proof.
  intros Hperm. apply set_eq. intros x.
  by rewrite !elem_of_list_to_set, Hperm.
Qed.

Lemma get_assignments_Some config reg g a g' :
  participants config = Some reg →
  get_assignments config g = (Ok (Some a), g') → single_attempt reg (Some a).
Proof.
  intros Hreg Hrun.
  destruct (get_assignments_greedy config reg g Hreg) as (res & g1 & Hrun' & Hres).
  congruence.
Qed.

Lemma get_assignments_blocked config reg blocked data g :
  participants config = Some reg →
  Dict.get reg blocked = Some data → all_ids reg ⊆ exclusion_ids data →
  ∃ g', get_assignments config g = (Ok None, g').
Proof.
  intros Hreg Hdata Hsub.
  destruct (get_assignments_greedy config reg g Hreg) as (res & g' & Hrun & Hres).
  exists g'. by rewrite Hrun, (single_attempt_blocked reg res blocked data).
Qed.

(** ** The retry loop *)

Lemma retry_loop_run config reg max_attempts :
  participants config = Some reg →
  ∀ fuel st g, max_attempts + 1 ≤ attempts st + fuel →
  ∃ st' g' new,
    retry_loop fuel max_attempts config st g = (Ok (Some st'), g')
    ∧ calls st' = calls st ++ new
    ∧ attempts st' = attempts st + length new
    ∧ assignments st' = default (assignments st) (last new)
    ∧ Forall (single_attempt reg) new
    ∧ (∀ i r, new !! i = Some r → truthy r = true → S i = length new)
    ∧ (new ≠ [] → attempts st' ≤ max_attempts + 1)
    ∧ (new ≠ [] → attempts st ≤ max_attempts ∧ truthy (assignments st) = false)
    ∧ (truthy (assignments st') = false → max_attempts < attempts st').
Proof.
  intros Hreg. induction fuel as [|fuel IH]; intros st g Hfuel.
  - exists st, g, []. simpl.
    destruct (bool_decide _ && _) eqn:Hcond.
    { apply andb_true_iff in Hcond as [Hle%bool_decide_eq_true _]. lia. }
    rewrite app_nil_r, Nat.add_0_r. split_and!; try done.
    intros Hfalse. rewrite Hfalse in Hcond. simpl in Hcond.
    rewrite andb_true_r in Hcond. apply bool_decide_eq_false in Hcond. lia.
  - simpl. destruct (bool_decide _ && _) eqn:Hcond.
    + apply andb_true_iff in Hcond as [Hle%bool_decide_eq_true Hfalsy%negb_true_iff].
      destruct (get_assignments_greedy config reg g Hreg) as (a & g1 & Hcall & Ha).
      unfold mbind, M_bind, bind. rewrite Hcall.
      destruct (IH (LoopState (attempts st + 1) a (calls st ++ [a])) g1)
        as (st' & g' & new & Hrun & Hcalls & Hatt & Hlast & Hnew & Hstop & Hbound
            & Hcont & Hexit); [simpl; lia|].
      simpl in *. exists st', g', (a :: new).
      split_and!; try done.
      * by rewrite Hcalls, <- app_assoc.
      * rewrite Hatt. simpl. lia.
      * rewrite Hlast. destruct new as [|r' new]; [done|].
        rewrite last_cons_cons.
        by destruct (proj2 (last_is_Some (r' :: new))) as [r ->].
      * by constructor.
      * intros [|i] r Hi Hr; simpl in Hi.
        -- simplify_eq. destruct new as [|r' new]; [done|].
           destruct Hcont as [_ Hcont]; [done|]. congruence.
        -- simpl. f_equal. by eapply Hstop.
      * intros _. destruct new as [|r' new]; [|by apply Hbound].
        rewrite Hatt. simpl. lia.
    + exists st, g, []. rewrite app_nil_r, Nat.add_0_r.
      split_and!; try done.
      intros Hfalse. rewrite Hfalse in Hcond. simpl in Hcond.
      rewrite andb_true_r in Hcond. apply bool_decide_eq_false in Hcond. lia.
Qed.

(** When no single attempt can succeed, the loop runs [max_attempts + 1]
    times and the check after it raises. *)
Lemma infeasible_run config reg fuel max_attempts g :
  participants config = Some reg →
  (∀ res, single_attempt reg res → res = None) →
  max_attempts < fuel →
  ∃ st g',
    retry_loop fuel max_attempts config initial_loop_state g = (Ok (Some st), g')
    ∧ calls st = replicate (max_attempts + 1) None
    ∧ attempts st = max_attempts + 1
    ∧ assign_with_retries fuel max_attempts config g
      = (Raise (AssignmentInfeasible (max_attempts + 1)), g').
Proof.
  intros Hreg Hnone Hfuel.
  destruct (retry_loop_run config reg max_attempts Hreg fuel initial_loop_state g)
    as (st & g' & new & Hrun & Hcalls & Hatt & Hlast & Hnew & _ & Hbound & _ & Hexit);
    [simpl; lia|].
  simpl in *.
  assert (new = replicate (length new) None) as Hall.
  { clear -Hnew Hnone. induction Hnew as [|r new Hr _ IH]; [done|].
    simpl. rewrite <- IH. by rewrite (Hnone r Hr). }
  assert (assignments st = None) as Hres.
  { rewrite Hlast. destruct (last new) as [r|] eqn:Hr; [|done]. simpl.
    apply last_Some_elem_of in Hr. rewrite Hall in Hr.
    by apply elem_of_replicate in Hr as [-> _]. }
  assert (length new = max_attempts + 1) as Hlen.
  { rewrite Hres in Hexit. specialize (Hexit eq_refl).
    destruct new as [|r new]; [simpl in *; lia|].
    specialize (Hbound ltac:(done)). lia. }
  exists st, g'. split_and!; [done | congruence | congruence |].
  unfold assign_with_retries, mbind, M_bind, bind. rewrite Hrun.
  unfold check_assignments, raise. by rewrite Hres, Hatt, Hlen.
Qed.

Lemma parse_participant_line_Ok line st st' :
  parse_participant_line line st = Ok st' →
  administrator_email (ps_config st') = administrator_email (ps_config st)
  ∧ administrator_email_password (ps_config st')
    = administrator_email_password (ps_config st)
  ∧ ∃ person_id data,
      participants (ps_config st')
      = Some (default Dict.empty (participants (ps_config st))
              ++ [(person_id, data)])
      ∧ (person_id ∉ Dict.keys (default Dict.empty (participants (ps_config st))))
      ∧ person_id ∈ exclusion_ids data
      ∧ ps_all_exclusion_ids st' = ps_all_exclusion_ids st ∪ exclusion_ids data.
Proof.
  unfold parse_participant_line.
  destruct (strip <$> split "," line) as [|person_id [|name [|email [|excl [|]]]]];
    try done.
  destruct (_ || _); [done|].
  destruct (Dict.mem _ _) eqn:Hmem; [done|].
  apply dict_mem_false in Hmem. intros [= <-]. simpl.
  split; [done|]. split; [done|].
  eexists person_id, _. split_and!; [by rewrite dict_set_new | done | | done].
  simpl. apply elem_of_union_r. by apply elem_of_singleton.
Qed.

Lemma parse_line_inv n line st st' :
  parse_inv st → parse_line n line st = Ok st' → parse_inv st'.
Proof.
  intros Hinv. unfold parse_line.
  destruct n as [|[|n]]; [by intros [= <-].. |].
  case_bool_decide; [by intros [= <-]|].
  intros (_ & _ & person_id & data & Htable & Hfresh & Hself & Hall)
    %parse_participant_line_Ok.
  unfold parse_inv in *. simpl in *. rewrite Htable, Hall.
  split; [by destruct (default _ _)|].
  destruct (participants (ps_config st)) as [reg|]; simpl in *.
  - destruct Hinv as (_ & Hwf & Hentries). split.
    + unfold Dict.wf, Dict.keys in *. rewrite fmap_app. simpl.
      apply NoDup_app. split_and!; [done | | apply NoDup_singleton].
      intros k Hk ->%list_elem_of_singleton. done.
    + apply Forall_app. split.
      * eapply Forall_impl; [done|]. intros [k d] [Hk Hd]. simpl in *.
        split; [done|]. etrans; [done|]. apply union_subseteq_l.
      * apply Forall_singleton. split; [done|]. apply union_subseteq_r.
  - split; [apply NoDup_singleton|].
    apply Forall_singleton. split; [done|]. apply union_subseteq_r.
Qed.

Lemma parse_lines_inv ls n st st' :
  parse_inv st → parse_lines n ls st = Ok st' → parse_inv st'.
Proof.
  revert n st. induction ls as [|line ls IH]; intros n st Hinv; simpl.
  - by intros [= <-].
  - destruct (parse_line n line st) as [st1|] eqn:Hline; [|done]. simpl.
    apply IH. by eapply parse_line_inv.
Qed.

Lemma check_config_Ok st config :
  check_config st = Ok config →
  config = ps_config st
  ∧ ∃ reg, participants config = Some reg
           ∧ ps_all_exclusion_ids st ⊆ all_ids reg
           ∧ is_Some (administrator_email config)
           ∧ is_Some (administrator_email_password config).
Proof.
  unfold check_config.
  destruct (participants (ps_config st)) as [reg|] eqn:Hreg; [|done].
  case_decide as Hunknown; [done|].
  case_decide as Hemail; [done|]. case_decide as Hpw; [done|].
  rewrite decide_False by done. intros [= <-]. split; [done|].
  exists reg. split_and!; [done | | |].
  - intros k Hk.
    destruct (decide (k ∈ all_ids reg)) as [|Hnot]; [done|].
    assert (k ∈ ps_all_exclusion_ids st ∖ list_to_set (Dict.keys reg)) as Hin
      by by apply elem_of_difference.
    rewrite Hunknown in Hin. by apply not_elem_of_empty in Hin.
  - by destruct (administrator_email (ps_config st)).
  - by destruct (administrator_email_password (ps_config st)).
Qed.

(** A configuration that loads satisfies the registry invariants. *)
Lemma parse_config_file_Ok contents config :
  parse_config_file contents = Ok config →
  ∃ reg, participants config = Some reg ∧ reg ≠ [] ∧ registry_invariants reg.
Proof.
  unfold parse_config_file.
  destruct (parse_lines 0 _ _) as [st|] eqn:Hlines; [|done]. simpl.
  intros (-> & reg & Hreg & Hall & _)%check_config_Ok.
  apply parse_lines_inv in Hlines; [|done].
  unfold parse_inv in Hlines. rewrite Hreg in Hlines.
  destruct Hlines as (Hne & Hwf & Hentries).
  exists reg. split; [done|]. split; [done|]. split; [done|].
  eapply Forall_impl; [done|]. intros [k d] [Hk Hd]. simpl in *.
  split; [done|]. by etrans.
Qed.

(** ** Facts about the string primitives *)

Lemma lstrip_decompose s : ∃ pre, s = pre +:+ lstrip s ∧ all_space pre = true.
Proof.
  induction s as [|c s (pre & IH & Hpre)]; simpl.
  - by exists "".
  - destruct (is_space c) eqn:Hc.
    + exists (String c pre). split; simpl; [|by rewrite Hc].
      exact (f_equal (String c) IH).
    + by exists "".
Qed.

Lemma rstrip_decompose s : ∃ post, s = rstrip s +:+ post ∧ all_space post = true.
Proof.
  induction s as [|c s (post & IH & Hpost)]; simpl.
  - by exists "".
  - destruct (rstrip s) as [|d r] eqn:Hr.
    + change (s = post) in IH. subst post. destruct (is_space c) eqn:Hc.
      * exists (String c s). split; [done|]. simpl. by rewrite Hc.
      * by exists s.
    + exists post. split; [|done]. exact (f_equal (String c) IH).
Qed.

Lemma lstrip_first s c : first_char (lstrip s) = Some c → is_space c = false.
Proof.
  induction s as [|d s IH]; simpl; [done|].
  destruct (is_space d) eqn:Hd; [done|]. simpl. congruence.
Qed.

Lemma lstrip_last s c : last_char (lstrip s) = Some c → last_char s = Some c.
Proof.
  induction s as [|d s IH]; simpl; [done|].
  destruct (is_space d) eqn:Hd; [|done].
  intros Hc. specialize (IH Hc). by destruct s.
Qed.

Lemma rstrip_last s c : last_char (rstrip s) = Some c → is_space c = false.
Proof.
  revert c. induction s as [|d s IH]; intros c; simpl; [done|].
  destruct (rstrip s) as [|e r] eqn:Hr.
  - destruct (is_space d) eqn:Hd; simpl; congruence.
  - apply IH.
Qed.

Lemma strip_trimmed s : trimmed (strip s).
Proof.
  split; intros c Hc.
  - by eapply lstrip_first.
  - eapply rstrip_last, lstrip_last, Hc.
Qed.

Lemma strip_decompose s :
  ∃ pre post, s = pre +:+ strip s +:+ post
              ∧ all_space pre = true ∧ all_space post = true.
Proof.
  destruct (rstrip_decompose s) as (post & Hs & Hpost).
  destruct (lstrip_decompose (rstrip s)) as (pre & Hr & Hpre).
  exists pre, post. split; [|done]. unfold strip.
  rewrite Hs at 1. rewrite Hr at 1. clear.
  induction pre as [|c pre IH]; [done|]. exact (f_equal (String c) IH).
Qed.

Lemma lines_head_newline s line rest :
  lines s = line :: rest → rest ≠ [] → last_char line = Some newline.
Proof.
  revert line rest. induction s as [|c s IH]; intros line rest; simpl; [done|].
  case_decide as Hc.
  - by intros [= <- <-] _; subst.
  - destruct (lines s) as [|line' rest'] eqn:Hs.
    + by intros [= <- <-].
    + intros [= <- <-] Hrest. specialize (IH _ _ eq_refl Hrest).
      simpl. by destruct line'.
Qed.

Lemma lines_tail s line rest : lines s = line :: rest → ∃ s', rest = lines s'.
Proof.
  revert line rest. induction s as [|c s IH]; intros line rest; simpl; [done|].
  case_decide as Hc.
  - intros [= <- <-]. by exists s.
  - destruct (lines s) as [|line' rest'] eqn:Hs.
    + intros [= <- <-]. by exists "".
    + intros [= <- <-]. by eapply IH.
Qed.

(** ** Facts about the reading loop *)

Lemma parse_lines_blank ls n st :
  2 ≤ n → Forall blank ls → parse_lines n ls st = Ok st.
Proof.
  intros Hn Hblank. revert n Hn.
  induction Hblank as [|line ls Hline _ IH]; intros n Hn; simpl; [done|].
  destruct n as [|[|n]]; [lia..|]. simpl.
  rewrite bool_decide_eq_true_2 by done. simpl. apply IH. lia.
Qed.

Lemma parse_lines_administrator ls n st st' :
  2 ≤ n → parse_lines n ls st = Ok st' →
  administrator_email (ps_config st') = administrator_email (ps_config st)
  ∧ administrator_email_password (ps_config st')
    = administrator_email_password (ps_config st).
Proof.
  revert n st. induction ls as [|line ls IH]; intros n st Hn; simpl.
  - by intros [= <-].
  - destruct (parse_line n line st) as [st1|] eqn:Hline; [|done]. simpl.
    intros [-> ->]%IH; [|lia].
    destruct n as [|[|n]]; [lia..|]. simpl in Hline.
    case_bool_decide; [by simplify_eq|].
    by apply parse_participant_line_Ok in Hline as (? & ? & _).
Qed.

(** The third check of [check_config] can never fire. *)
Lemma check_config_not_missing_participants st :
  check_config st ≠ Raise MissingParticipants.
Proof.
  unfold check_config.
  destruct (participants (ps_config st)) as [reg|] eqn:Hreg; [|done].
  repeat case_decide; done.
Qed.

(** The only errors of the reading loop. *)
Lemma parse_lines_Raise ls n st e :
  parse_lines n ls st = Raise e →
  (∃ values, e = ValueError 4 values)
  ∨ (∃ assignment_exclusions, e = BadExclusionFormat assignment_exclusions)
  ∨ (∃ person_id, e = DuplicatePersonId person_id).
Proof.
  revert n st. induction ls as [|line ls IH]; intros n st; simpl; [done|].
  destruct (parse_line n line st) as [st1|e1] eqn:Hline; simpl; [by apply IH|].
  intros [= ->]. destruct n as [|[|n]]; [done..|]. simpl in Hline.
  case_bool_decide; [done|]. unfold parse_participant_line in Hline.
  destruct (strip <$> split "," line)
    as [|person_id [|name [|email [|excl [|]]]]]; simplify_eq; eauto.
  destruct (_ || _); simplify_eq; [eauto|].
  destruct (Dict.mem _ _); simplify_eq; eauto.
Qed.

(** The retry loop of [main] always runs to its end. *)
Lemma main_terminates contents entropy g :
  ∃ r g', main contents entropy g = (r, g') ∧ r ≠ Ok None.
Proof.
  unfold main, mbind, M_bind, bind, lift.
  destruct (parse_config_file contents) as [config|e] eqn:Hparse;
    [|by eexists _, _].
  destruct (parse_config_file_Ok _ _ Hparse) as (reg & Hreg & _).
  destruct (retry_loop_run config reg MAX_ASSIGNMENT_ATTEMPTS Hreg
              (MAX_ASSIGNMENT_ATTEMPTS + 2) initial_loop_state g)
    as (st & g' & new & Hrun & _); [simpl; lia|].
  unfold assign_with_retries, mbind, M_bind, bind. rewrite Hrun.
  unfold check_assignments.
  destruct (assignments st) as [[|entry entries]|]; by eexists _, _.
Qed.

(** The whole program on a configuration for which no attempt can succeed. *)
Lemma main_infeasible contents entropy config reg g :
  parse_config_file contents = Ok config →
  participants config = Some reg →
  (∀ res, single_attempt reg res → res = None) →
  ∃ g', main contents entropy g
        = (Raise (AssignmentInfeasible (MAX_ASSIGNMENT_ATTEMPTS + 1)), g').
Proof.
  intros Hparse Hreg Hnone.
  destruct (infeasible_run config reg (MAX_ASSIGNMENT_ATTEMPTS + 2)
              MAX_ASSIGNMENT_ATTEMPTS g Hreg Hnone)
    as (st & g' & _ & _ & _ & Hraise); [lia|].
  exists g'. unfold main, mbind, M_bind, bind, lift.
  by rewrite Hparse, Hraise.
Qed.

(** ** Facts about the identifier *)

Lemma hex_digit_elem_of d : hex_digit d ∈ hexdigits.
Proof.
  unfold hex_digit. apply list_elem_of_In.
  destruct (nth_in_or_default (Z.to_nat d) hexdigits "0"%char) as [Hin|Heq];
    [done|].
  rewrite Heq. simpl. tauto.
Qed.

Lemma length_string_of_list_ascii l :
  String.length (string_of_list_ascii l) = length l.
Proof. induction l as [|c l IH]; simpl; [done|]. by rewrite IH. Qed.

Lemma format_032x_length n : String.length (format_032x n) = 32 `max` hex_width n.
Proof.
  unfold format_032x.
  by rewrite length_string_of_list_ascii, length_fmap, length_reverse, length_seq.
Qed.

Lemma format_032x_hexdigits n :
  Forall (λ c, c ∈ hexdigits) (list_ascii_of_string (format_032x n)).
Proof.
  unfold format_032x. rewrite list_ascii_of_string_of_list_ascii.
  apply Forall_fmap, Forall_forall. intros i _. apply hex_digit_elem_of.
Qed.

Lemma slice_to_take n s :
  list_ascii_of_string (slice_to n s) = take n (list_ascii_of_string s).
Proof.
  unfold slice_to. revert s. induction n as [|n IH]; intros [|c s]; simpl; try done.
  by rewrite IH.
Qed.

Lemma length_list_ascii_of_string s :
  length (list_ascii_of_string s) = String.length s.
Proof. induction s as [|c s IH]; simpl; [done|]. by rewrite IH. Qed.

Lemma slice_to_length n s : String.length (slice_to n s) = n `min` String.length s.
Proof.
  by rewrite <- !length_list_ascii_of_string, slice_to_take, length_take.
Qed.

Lemma from_bytes_big_bound bytes :
  (0 ≤ from_bytes_big bytes < 256 ^ Z.of_nat (length bytes))%Z.
Proof.
  unfold from_bytes_big.
  assert (∀ acc k, (0 ≤ acc < 256 ^ k)%Z → (0 ≤ k)%Z →
            (0 ≤ fold_left (λ acc b, acc * 256 + Z.of_N (Byte.to_N b)) bytes acc
             < 256 ^ (k + Z.of_nat (length bytes)))%Z) as Hgen.
  { induction bytes as [|b bytes IH]; intros acc k Hacc Hk; simpl.
    - by rewrite Z.add_0_r.
    - replace (k + Z.of_nat (S (length bytes)))%Z
        with ((k + 1) + Z.of_nat (length bytes))%Z by lia.
      apply IH; [|lia].
      rewrite Z.pow_add_r, Z.pow_1_r by lia.
      pose proof (Byte.to_N_bounded b). lia. }
  apply (Hgen 0%Z 0%Z); [simpl|]; lia.
Qed.

Lemma land_lnot_bound x m :
  (0 ≤ x)%Z → (0 ≤ m)%Z → (0 ≤ Z.land x (Z.lnot m) ≤ x)%Z.
Proof.
  intros Hx Hm. split; [apply Z.land_nonneg; by left|].
  rewrite <- Zbitwise.Z.sub_land_same_l.
  assert (0 ≤ Z.land x m)%Z by (apply Z.land_nonneg; by left). lia.
Qed.

Lemma lor_lt_pow2 a b k :
  (0 ≤ a < 2 ^ k)%Z → (0 ≤ b < 2 ^ k)%Z → (0 ≤ Z.lor a b < 2 ^ k)%Z.
Proof.
  intros [Ha Hak] [Hb Hbk].
  assert (0 ≤ Z.lor a b)%Z as Hab by by apply Z.lor_nonneg.
  split; [done|].
  destruct (decide (Z.lor a b = 0%Z)) as [->|Hne]; [lia|].
  assert (0 < k)%Z as Hk.
  { destruct (Z_lt_le_dec 0 k) as [|Hle]; [done|]. destruct Hne.
    assert (2 ^ k ≤ 1)%Z.
    { destruct (decide (k = 0%Z)) as [->|]; [done|]. rewrite Z.pow_neg_r; lia. }
    by replace a with 0%Z by lia; replace b with 0%Z by lia. }
  apply Z.log2_lt_pow2; [lia|]. rewrite Z.log2_lor by done.
  apply Z.max_lub_lt.
  - destruct (decide (a = 0%Z)) as [->|]; [done|]. apply Z.log2_lt_pow2; lia.
  - destruct (decide (b = 0%Z)) as [->|]; [done|]. apply Z.log2_lt_pow2; lia.
Qed.

Lemma uuid4_int_bound entropy :
  length entropy = 16 → (0 ≤ uuid4_int entropy < 2 ^ 128)%Z.
Proof.
  intros Hlen. pose proof (from_bytes_big_bound entropy) as Hr.
  rewrite Hlen in Hr. change (256 ^ Z.of_nat 16)%Z with (2 ^ 128)%Z in Hr.
  unfold uuid4_int. set (r := from_bytes_big entropy) in *.
  pose proof (land_lnot_bound r (Z.shiftl 0xc000 48) ltac:(lia) ltac:(done)) as Ha.
  set (a := Z.land r _) in *.
  pose proof (lor_lt_pow2 a (Z.shiftl 0x8000 48) 128 ltac:(lia) ltac:(done)) as Hb.
  set (b := Z.lor a _) in *.
  pose proof (land_lnot_bound b (Z.shiftl 0xf000 64) ltac:(lia) ltac:(done)) as Hc.
  set (c := Z.land b _) in *.
  apply lor_lt_pow2; [lia | done].
Qed.

Lemma hex_width_128 n : (0 ≤ n < 2 ^ 128)%Z → hex_width n ≤ 32.
Proof.
  intros [Hn Hlt]. unfold hex_width.
  assert (Z.log2 n < 128)%Z as Hlog.
  { destruct (decide (n = 0%Z)) as [->|]; [done|]. apply Z.log2_lt_pow2; lia. }
  pose proof (Z.log2_nonneg n).
  assert (Z.log2 n / 4 < 32)%Z by (apply Z.div_lt_upper_bound; lia).
  assert (0 ≤ Z.log2 n / 4)%Z by (apply Z.div_pos; lia). lia.
Qed.

Lemma uuid4_hex_length entropy :
  length entropy = 16 → String.length (uuid4_hex entropy) = 32.
Proof.
  intros Hlen. unfold uuid4_hex. rewrite format_032x_length.
  pose proof (hex_width_128 _ (uuid4_int_bound entropy Hlen)). lia.
Qed.

(** ** The store: what a computation leaves untouched *)

Module StoreFacts.
Import Store.

Lemma extends_refl h : extends h h.
Proof. by split. Qed.

Lemma framed_ret {A} h0 (a : A) (post : A → Prop) :
  post a → framed h0 (mret a) post.
Proof.
  intros Ha h g r h' g' Hext [= <- <- <-]. split; [done|].
  by intros a' [= ?]; subst a'.
Qed.

Lemma framed_raise {A} h0 e (post : A → Prop) : framed h0 (raise e) post.
Proof. by intros h g r h' g' Hext [= <- <- <-]. Qed.

Lemma framed_bind {A B} h0 (m : S A) (k : A → S B) P Q :
  framed h0 m P → (∀ a, P a → framed h0 (k a) Q) → framed h0 (m ≫= k) Q.
Proof.
  intros Hm Hk h g r h' g' Hext. unfold mbind, S_bind, bind.
  destruct (m (h, g)) as [[a|e] [h1 g1]] eqn:Hrun.
  - destruct (Hm _ _ _ _ _ Hext Hrun) as [Hext1 Ha].
    intros Hrun'. eapply (Hk a); [by apply Ha | done..].
  - intros [= <- <- <-]. split; [|done]. by eapply Hm.
Qed.

Lemma framed_weaken {A} h0 (m : S A) (P Q : A → Prop) :
  framed h0 m P → (∀ a, P a → Q a) → framed h0 m Q.
Proof.
  intros Hm HPQ h g r h' g' Hext Hrun.
  destruct (Hm _ _ _ _ _ Hext Hrun) as [? Ha]. split; [done|]. eauto.
Qed.

Lemma framed_read h0 l : framed h0 (read l) (λ _, True).
Proof.
  intros h g r h' g' Hext. unfold read. simpl.
  by destruct (h !! l); intros [= <- <- <-].
Qed.

Lemma framed_draw {A} h0 (m : M A) : framed h0 (draw m) (λ _, True).
Proof.
  intros h g r h' g' Hext. unfold draw. simpl.
  by destruct (m g); intros [= <- <- <-].
Qed.

Lemma framed_alloc h0 o : framed h0 (alloc o) (λ l, l ∉ dom h0).
Proof.
  intros h g r h' g' [Hdom Hpres]. unfold alloc. simpl. intros [= <- <- <-].
  pose proof (is_fresh (dom h)) as Hfresh.
  assert (fresh (dom h) ∉ dom h0) as Hnew by (intros ?; by apply Hfresh, Hdom).
  split; [|by intros a [= ?]; subst a]. split.
  - rewrite dom_insert. by apply union_subseteq_r'.
  - intros l Hl. rewrite lookup_insert_ne; [by apply Hpres|].
    intros Heq. apply Hnew. by rewrite Heq.
Qed.

Lemma framed_write h0 l o : l ∉ dom h0 → framed h0 (write l o) (λ _, True).
Proof.
  intros Hl h g r h' g' [Hdom Hpres]. unfold write. simpl. intros [= <- <- <-].
  split; [|done]. split.
  - rewrite dom_insert. by apply union_subseteq_r'.
  - intros l' Hl'. rewrite lookup_insert_ne; [by apply Hpres | by intros ->].
Qed.

(** Sequencing after a step that promises nothing about its value. *)
Ltac framed_seq lem :=
  apply (framed_bind _ _ _ (λ _, True)); [apply lem | intros ? _].

(** Sequencing after an allocation: the new address is outside [h0]. *)
Tactic Notation "framed_new" constr(h0) constr(lem) ident(l) ident(Hl) :=
  apply (framed_bind _ _ _ (λ new, new ∉ dom h0)); [apply lem | intros l Hl].

Lemma framed_read_dict h0 l : framed h0 (read_dict l) (λ _, True).
Proof.
  unfold read_dict. framed_seq framed_read.
  destruct a; by (apply framed_ret || apply framed_raise).
Qed.

Lemma framed_read_set h0 l : framed h0 (read_set l) (λ _, True).
Proof.
  unfold read_set. framed_seq framed_read.
  destruct a; by (apply framed_ret || apply framed_raise).
Qed.

Lemma framed_read_list h0 l : framed h0 (read_list l) (λ _, True).
Proof.
  unfold read_list. framed_seq framed_read.
  destruct a; by (apply framed_ret || apply framed_raise).
Qed.

Lemma framed_dict_getitem h0 d k : framed h0 (dict_getitem d k) (λ _, True).
Proof.
  unfold dict_getitem. framed_seq framed_read_dict.
  destruct (Dict.get _ _); by (apply framed_ret || apply framed_raise).
Qed.

Lemma framed_dict_getitem_ref h0 d k :
  framed h0 (dict_getitem_ref d k) (λ _, True).
Proof.
  unfold dict_getitem_ref. framed_seq framed_dict_getitem.
  destruct a; by (apply framed_ret || apply framed_raise).
Qed.

Lemma framed_dict_setitem h0 d k v :
  d ∉ dom h0 → framed h0 (dict_setitem d k v) (λ _, True).
Proof.
  intros Hd. unfold dict_setitem. framed_seq framed_read_dict.
  by apply framed_write.
Qed.

Lemma framed_set_remove_in_place h0 s x :
  s ∉ dom h0 → framed h0 (set_remove_in_place s x) (λ _, True).
Proof.
  intros Hs. unfold set_remove_in_place. framed_seq framed_read_set.
  case_decide; [by apply framed_write | apply framed_raise].
Qed.

Lemma framed_set_difference h0 a b :
  framed h0 (set_difference a b) (λ l, l ∉ dom h0).
Proof.
  unfold set_difference. framed_seq framed_read_set.
  framed_seq framed_read_set. apply framed_alloc.
Qed.

Lemma framed_list_of_keys h0 d : framed h0 (list_of_keys d) (λ l, l ∉ dom h0).
Proof. unfold list_of_keys. framed_seq framed_read_dict. apply framed_alloc. Qed.

Lemma framed_set_of_keys h0 d : framed h0 (set_of_keys d) (λ l, l ∉ dom h0).
Proof. unfold set_of_keys. framed_seq framed_read_dict. apply framed_alloc. Qed.

Lemma framed_shuffle_in_place h0 x :
  x ∉ dom h0 → framed h0 (shuffle_in_place x) (λ _, True).
Proof.
  intros Hx. unfold shuffle_in_place. framed_seq framed_read_list.
  framed_seq (@framed_draw (list string)). by apply framed_write.
Qed.

Lemma framed_assign_loop h0 participant_data order remaining assignments :
  remaining ∉ dom h0 → assignments ∉ dom h0 →
  framed h0 (assign_loop participant_data order remaining assignments)
         (λ _, True).
Proof.
  intros Hrem Hasg. induction order as [|participant rest IH]; simpl.
  - by apply framed_ret.
  - framed_seq framed_dict_getitem_ref.
    framed_seq framed_dict_getitem_ref.
    framed_new h0 framed_set_difference available Havailable.
    framed_seq framed_read_set.
    case_decide; [by apply framed_ret|].
    framed_seq (@framed_draw string).
    framed_seq framed_set_remove_in_place; [done|].
    framed_seq framed_dict_setitem; [done|].
    apply IH.
Qed.

Lemma framed_get_assignments h0 config :
  framed h0 (get_assignments config) (λ _, True).
Proof.
  unfold get_assignments.
  framed_seq framed_dict_getitem_ref.
  framed_new h0 framed_list_of_keys x Hx.
  framed_seq framed_shuffle_in_place; [done|].
  framed_new h0 framed_set_of_keys remaining Hrem.
  framed_new h0 framed_alloc assignments Hasg.
  framed_seq framed_read_list.
  by apply framed_assign_loop.
Qed.

Lemma load_participant_preserved h h' v p :
  preserves h h' → load_participant h v = Some p →
  load_participant h' v = Some p.
Proof.
  intros Hpres. unfold load_participant.
  destruct v as [| |l]; try done.
  destruct (h !! l) as [o|] eqn:Hl; [|done].
  rewrite (Hpres l), Hl by (apply elem_of_dom; eauto).
  destruct o as [d| |]; try done.
  destruct (Dict.get d PARTICIPANT_NAME_KEY) as [[| |]|]; try done.
  destruct (Dict.get d PARTICIPANT_EMAIL_KEY) as [[| |]|]; try done.
  destruct (Dict.get d PARTICIPANT_ASSIGNMENT_EXCLUSIONS_KEY) as [[| |e]|];
    try done.
  destruct (h !! e) as [o|] eqn:He; [|done].
  by rewrite (Hpres e), He by (apply elem_of_dom; eauto).
Qed.

Lemma load_entries_preserved h h' d reg :
  preserves h h' → load_entries h d = Some reg → load_entries h' d = Some reg.
Proof.
  intros Hpres. revert reg. induction d as [|[k v] d IH]; intros reg; simpl;
    [done|].
  destruct (load_participant h v) as [p|] eqn:Hp; [|done]. simpl.
  rewrite (load_participant_preserved h h' v p Hpres Hp). simpl.
  destruct (load_entries h d) as [reg'|]; [|done]. simpl.
  by rewrite (IH reg' eq_refl).
Qed.

Lemma load_registry_preserved h h' config reg :
  preserves h h' → load_registry h config = Some reg →
  load_registry h' config = Some reg.
Proof.
  intros Hpres. unfold load_registry.
  destruct (h !! config) as [o|] eqn:Hc; [|done].
  rewrite (Hpres config), Hc by (apply elem_of_dom; eauto).
  destruct o as [c| |]; try done.
  destruct (Dict.get c PARTICIPANTS_KEY) as [[| |p]|]; try done.
  destruct (h !! p) as [o|] eqn:Hp; [|done].
  rewrite (Hpres p), Hp by (apply elem_of_dom; eauto).
  destruct o as [d| |]; try done.
  by apply load_entries_preserved.
Qed.

(** *** Running the primitives *)

Lemma bind_Ok {A B} (m : S A) (k : A → S B) σ a σ' :
  m σ = (Ok a, σ') → (m ≫= k) σ = k a σ'.
Proof. intros Hm. unfold mbind, S_bind, bind. by rewrite Hm. Qed.

Lemma read_dict_Ok h g l d :
  h !! l = Some (ODict d) → read_dict l (h, g) = (Ok d, (h, g)).
Proof.
  intros Hl. unfold read_dict, mbind, S_bind, bind, read. simpl. by rewrite Hl.
Qed.

Lemma read_set_Ok h g l s :
  h !! l = Some (OSet s) → read_set l (h, g) = (Ok s, (h, g)).
Proof.
  intros Hl. unfold read_set, mbind, S_bind, bind, read. simpl. by rewrite Hl.
Qed.

Lemma read_list_Ok h g l x :
  h !! l = Some (OList x) → read_list l (h, g) = (Ok x, (h, g)).
Proof.
  intros Hl. unfold read_list, mbind, S_bind, bind, read. simpl. by rewrite Hl.
Qed.

Lemma dict_getitem_ref_Ok h g l d k q :
  h !! l = Some (ODict d) → Dict.get d k = Some (VRef q) →
  dict_getitem_ref l k (h, g) = (Ok q, (h, g)).
Proof.
  intros Hl Hk. unfold dict_getitem_ref, dict_getitem.
  rewrite (bind_Ok _ _ _ (VRef q) (h, g)); [done|].
  rewrite (bind_Ok _ _ _ d (h, g)) by by apply read_dict_Ok.
  by rewrite Hk.
Qed.

Lemma encode_assignment_set m k x :
  Dict.set (encode_assignment m) k (VStr x) = encode_assignment (Dict.set m k x).
Proof.
  unfold encode_assignment.
  induction m as [|[k' x'] m IH]; csimpl; [done|].
  case_decide; csimpl; [done|]. by rewrite IH.
Qed.

(** What [load_entries] says about one key. *)
Lemma load_entries_get h d reg k data :
  load_entries h d = Some reg → Dict.get reg k = Some data →
  ∃ q pd e,
    Dict.get d k = Some (VRef q) ∧ h !! q = Some (ODict pd)
    ∧ Dict.get pd PARTICIPANT_ASSIGNMENT_EXCLUSIONS_KEY = Some (VRef e)
    ∧ h !! e = Some (OSet (exclusion_ids data)).
Proof.
  revert reg. induction d as [|[k' v] d IH]; intros reg; simpl.
  - by intros [= <-].
  - destruct (load_participant h v) as [p|] eqn:Hp; [|done]. simpl.
    destruct (load_entries h d) as [reg'|]; [|done]. simpl.
    intros [= <-]. simpl. case_decide as Hk; [|by apply IH].
    intros [= ->]. clear IH. unfold load_participant in Hp.
    destruct v as [| |q]; try done.
    destruct (h !! q) as [[pd| |]|] eqn:Hq; try done.
    destruct (Dict.get pd PARTICIPANT_NAME_KEY) as [[|name|]|]; try done.
    destruct (Dict.get pd PARTICIPANT_EMAIL_KEY) as [[|email|]|]; try done.
    destruct (Dict.get pd PARTICIPANT_ASSIGNMENT_EXCLUSIONS_KEY) as [[| |e]|] eqn:He;
      try done.
    destruct (h !! e) as [[|s|]|] eqn:Hs; try done.
    simplify_eq. by exists q, pd, e.
Qed.

Lemma load_entries_keys h d reg :
  load_entries h d = Some reg → Dict.keys d = Dict.keys reg.
Proof.
  revert reg. induction d as [|[k v] d IH]; intros reg; simpl.
  - by intros [= <-].
  - destruct (load_participant h v) as [p|]; [|done]. simpl.
    destruct (load_entries h d) as [reg'|]; [|done]. simpl.
    intros [= <-]. unfold Dict.keys in *. simpl. by rewrite (IH reg').
Qed.

Lemma extends_lookup h0 h l o : extends h0 h → h0 !! l = Some o → h !! l = Some o.
Proof.
  intros [_ Hpres] Hl. rewrite Hpres; [done|]. apply elem_of_dom. eauto.
Qed.

Lemma extends_insert h0 h l o : extends h0 h → l ∉ dom h0 → extends h0 (<[l := o]> h).
Proof.
  intros [Hdom Hpres] Hl. split.
  - rewrite dom_insert. by apply union_subseteq_r'.
  - intros l' Hl'. rewrite lookup_insert_ne; [by apply Hpres | by intros ->].
Qed.

End StoreFacts.

(** ** The store engine and the value engine agree *)

Lemma assign_loop_refines h p d reg order remaining assignments :
  h !! p = Some (Store.ODict d) → Store.load_entries h d = Some reg →
  order ⊆ Dict.keys reg →
  remaining ∉ dom h → assignments ∉ dom h → remaining ≠ assignments →
  ∀ R m hcur g,
    Store.extends h hcur →
    hcur !! remaining = Some (Store.OSet R) →
    hcur !! assignments = Some (Store.ODict (Store.encode_assignment m)) →
    ∃ res g' v h',
      assign_loop reg order R m g = (Ok res, g')
      ∧ Store.assign_loop p order remaining assignments (hcur, g)
        = (Ok v, (h', g'))
      ∧ Store.represents h' v res.
Proof.
  intros Hp Hd Horder Hrem Hasg Hne.
  induction order as [|participant rest IH]; intros R m hcur g Hext HR Hm.
  - exists (Some m), g, (Store.VRef assignments), hcur. simpl.
    split_and!; [done..|]. by exists assignments.
  - assert (participant ∈ Dict.keys reg) as Hin by (apply Horder; left).
    destruct (dict_get_is_Some reg participant Hin) as [data Hdata].
    destruct (StoreFacts.load_entries_get h d reg participant data Hd Hdata)
      as (q & pd & e & Hq & Hpd & He & Hexcl).
    simpl.
    unfold mbind at 1, M_bind, bind, lift, Dict.getitem. rewrite Hdata.
    rewrite (StoreFacts.bind_Ok _ _ _ q (hcur, g))
      by (eapply StoreFacts.dict_getitem_ref_Ok; [by eapply StoreFacts.extends_lookup | done]).
    rewrite (StoreFacts.bind_Ok _ _ _ e (hcur, g))
      by (eapply StoreFacts.dict_getitem_ref_Ok; [by eapply StoreFacts.extends_lookup | done]).
    set (available := R ∖ exclusion_ids data).
    set (lav := fresh (dom hcur)).
    assert (lav ∉ dom hcur) as Hlav by apply is_fresh.
    assert (lav ∉ dom h) as Hlav0 by (intros ?; by apply Hlav, Hext).
    assert (remaining ≠ lav) as Hne1.
    { intros ->. apply Hlav, elem_of_dom. eauto. }
    assert (assignments ≠ lav) as Hne2.
    { intros ->. apply Hlav, elem_of_dom. eauto. }
    rewrite (StoreFacts.bind_Ok _ _ _ lav (<[lav := Store.OSet available]> hcur, g)).
    2:{ unfold Store.set_difference.
        rewrite (StoreFacts.bind_Ok _ _ _ R (hcur, g)) by by apply StoreFacts.read_set_Ok.
        rewrite (StoreFacts.bind_Ok _ _ _ (exclusion_ids data) (hcur, g))
          by (apply StoreFacts.read_set_Ok; by eapply StoreFacts.extends_lookup).
        done. }
    rewrite (StoreFacts.bind_Ok _ _ _ available (<[lav := Store.OSet available]> hcur, g))
      by (apply StoreFacts.read_set_Ok, lookup_insert_eq).
    case_decide as Hav.
    + exists None, g, Store.VNone, (<[lav := Store.OSet available]> hcur). by split_and!.
    + destruct (choice_elem_of (elements available) g)
        as (x & g1 & Hchoice & Hx).
      { intros Hnil. apply Hav. apply leibniz_equiv. by apply elements_empty_inv. }
      apply elem_of_elements in Hx.
      assert (x ∈ R) as HxR by by apply elem_of_difference in Hx as [? _].
      unfold mbind at 1, M_bind, bind. rewrite Hchoice.
      unfold mbind at 1, M_bind, bind, lift, set_remove.
      rewrite decide_True by done.
      rewrite (StoreFacts.bind_Ok _ _ _ x (<[lav := Store.OSet available]> hcur, g1))
        by (unfold Store.draw; simpl; by rewrite Hchoice).
      set (h1 := <[lav := Store.OSet available]> hcur).
      set (h2 := <[remaining := Store.OSet (R ∖ {[x]})]> h1).
      rewrite (StoreFacts.bind_Ok _ _ _ () (h2, g1)).
      2:{ unfold Store.set_remove_in_place.
          rewrite (StoreFacts.bind_Ok _ _ _ R (h1, g1)).
          2:{ apply StoreFacts.read_set_Ok. unfold h1. by rewrite lookup_insert_ne. }
          by rewrite decide_True. }
      set (m' := Dict.set m participant x).
      set (h3 := <[assignments := Store.ODict (Store.encode_assignment m')]> h2).
      rewrite (StoreFacts.bind_Ok _ _ _ () (h3, g1)).
      2:{ unfold Store.dict_setitem.
          rewrite (StoreFacts.bind_Ok _ _ _ (Store.encode_assignment m) (h2, g1)).
          2:{ apply StoreFacts.read_dict_Ok. unfold h2, h1.
              by rewrite !lookup_insert_ne. }
          unfold Store.write. simpl. by rewrite StoreFacts.encode_assignment_set. }
      apply IH.
      * intros k Hk. apply Horder. by right.
      * unfold h3, h2, h1. by repeat apply StoreFacts.extends_insert.
      * unfold h3, h2. rewrite lookup_insert_ne by done. apply lookup_insert_eq.
      * unfold h3. apply lookup_insert_eq.
Qed.

(** The engine over the store computes what the engine over values
    computes, with the same draws. *)
Lemma get_assignments_refines h config reg administrator password g :
  Store.load_registry h config = Some reg →
  ∃ res g' v h',
    get_assignments (Config administrator password (Some reg)) g
    = (Ok res, g')
    ∧ Store.get_assignments config (h, g) = (Ok v, (h', g'))
    ∧ Store.represents h' v res.
Proof.
  unfold Store.load_registry.
  destruct (h !! config) as [[c| |]|] eqn:Hc; try done.
  destruct (Dict.get c PARTICIPANTS_KEY) as [[| |p]|] eqn:Hp; try done.
  destruct (h !! p) as [[d| |]|] eqn:Hd; try done.
  intros Hload. pose proof (StoreFacts.load_entries_keys h d reg Hload) as Hkeys.
  unfold get_assignments, Store.get_assignments.
  unfold mbind at 1, M_bind, bind, lift. simpl.
  destruct (shuffle_Permutation (Dict.keys reg) g) as (order & g1 & Hshuffle & Horder).
  unfold mbind at 1, M_bind, bind. rewrite Hshuffle.
  rewrite (StoreFacts.bind_Ok _ _ _ p (h, g)) by by eapply StoreFacts.dict_getitem_ref_Ok.
  set (lx := fresh (dom h)).
  assert (lx ∉ dom h) as Hlx by apply is_fresh.
  set (h1 := <[lx := Store.OList (Dict.keys reg)]> h).
  rewrite (StoreFacts.bind_Ok _ _ _ lx (h1, g)).
  2:{ unfold Store.list_of_keys.
      rewrite (StoreFacts.bind_Ok _ _ _ d (h, g)) by by apply StoreFacts.read_dict_Ok.
      unfold Store.alloc. simpl. by rewrite Hkeys. }
  set (h2 := <[lx := Store.OList order]> h1).
  rewrite (StoreFacts.bind_Ok _ _ _ () (h2, g1)).
  2:{ unfold Store.shuffle_in_place.
      rewrite (StoreFacts.bind_Ok _ _ _ (Dict.keys reg) (h1, g))
        by (apply StoreFacts.read_list_Ok, lookup_insert_eq).
      rewrite (StoreFacts.bind_Ok _ _ _ order (h1, g1))
        by (unfold Store.draw; simpl; by rewrite Hshuffle).
      done. }
  assert (Store.extends h h2) as Hext2.
  { unfold h2, h1. by repeat apply StoreFacts.extends_insert; [apply StoreFacts.extends_refl|..]. }
  set (lr := fresh (dom h2)).
  assert (lr ∉ dom h2) as Hlr by apply is_fresh.
  set (h3 := <[lr := Store.OSet (list_to_set (Dict.keys reg))]> h2).
  rewrite (StoreFacts.bind_Ok _ _ _ lr (h3, g1)).
  2:{ unfold Store.set_of_keys.
      rewrite (StoreFacts.bind_Ok _ _ _ d (h2, g1))
        by (apply StoreFacts.read_dict_Ok; by eapply StoreFacts.extends_lookup).
      unfold Store.alloc. simpl. by rewrite Hkeys. }
  set (la := fresh (dom h3)).
  assert (la ∉ dom h3) as Hla by apply is_fresh.
  set (h4 := <[la := Store.ODict Dict.empty]> h3).
  rewrite (StoreFacts.bind_Ok _ _ _ la (h4, g1)) by done.
  assert (lr ∉ dom h) as Hlr0 by (intros ?; by apply Hlr, Hext2).
  assert (la ∉ dom h) as Hla0.
  { intros Hin. apply Hla. unfold h3. rewrite dom_insert.
    by apply elem_of_union_r, Hext2. }
  assert (lr ≠ la) as Hne.
  { intros Heq. apply Hla. unfold h3. rewrite dom_insert, <- Heq.
    by apply elem_of_union_l, elem_of_singleton. }
  assert (lx ≠ lr) as Hxr.
  { intros Heq. apply Hlr. rewrite <- Heq. unfold h2. rewrite dom_insert.
    by apply elem_of_union_l, elem_of_singleton. }
  assert (lx ≠ la) as Hxa.
  { intros Heq. apply Hla. rewrite <- Heq. unfold h3, h2.
    rewrite !dom_insert.
    by apply elem_of_union_r, elem_of_union_l, elem_of_singleton. }
  rewrite (StoreFacts.bind_Ok _ _ _ order (h4, g1)).
  2:{ apply StoreFacts.read_list_Ok. unfold h4, h3, h2.
      rewrite !lookup_insert_ne by done. apply lookup_insert_eq. }
  apply (assign_loop_refines h p d reg order lr la); try done.
  - intros k Hk. by rewrite <- Horder.
  - unfold h4, h3. by repeat apply StoreFacts.extends_insert.
  - unfold h4. rewrite lookup_insert_ne by done. apply lookup_insert_eq.
  - unfold h4. apply lookup_insert_eq.
Qed.


(** ** The draws of a run *)

Lemma greedy_draws_greedy reg order remaining m picks draws res :
  greedy_draws reg order remaining m picks draws res →
  greedy reg order remaining m res.
Proof.
  induction 1 as [remaining m
                 |giver order remaining m data Hdata Hav
                 |giver order remaining m data receiver i picks draws res
                    Hdata Hi _ IH].
  - constructor.
  - by eapply greedy_stuck.
  - eapply greedy_pick; [done| |done].
    apply elem_of_elements. by eapply list_elem_of_lookup_2.
Qed.

Lemma greedy_greedy_draws reg order remaining m res :
  greedy reg order remaining m res →
  ∃ picks draws, greedy_draws reg order remaining m picks draws res.
Proof.
  induction 1 as [remaining m
                 |giver order remaining m data Hdata Hav
                 |giver order remaining m data receiver res Hdata Hrecv _ IH].
  - exists [], []. constructor.
  - exists [], []. by eapply greedy_draws_stuck.
  - destruct IH as (picks & draws & IH).
    apply elem_of_elements, list_elem_of_lookup in Hrecv as [i Hi].
    exists (receiver :: picks), (i :: draws). by eapply greedy_draws_pick.
Qed.

(** On the draws of a run the loop returns the result of the run and reads
    no further. *)
Lemma assign_loop_draws reg order remaining m picks draws res :
  greedy_draws reg order remaining m picks draws res →
  ∀ rest, assign_loop reg order remaining m (draws ++ rest) = (Ok res, rest).
Proof.
  induction 1 as [remaining m
                 |giver order remaining m data Hdata Hav
                 |giver order remaining m data receiver i picks draws res
                    Hdata Hi _ IH]; intros rest.
  - done.
  - simpl. unfold mbind, M_bind, bind, lift, Dict.getitem. rewrite Hdata.
    by rewrite decide_True.
  - simpl. unfold mbind, M_bind, bind, lift, Dict.getitem. rewrite Hdata.
    assert (receiver ∈ remaining ∖ exclusion_ids data) as Hrecv.
    { apply elem_of_elements. by eapply list_elem_of_lookup_2. }
    rewrite decide_False by (intros Hempty; rewrite Hempty in Hrecv;
                             by apply not_elem_of_empty in Hrecv).
    rewrite (choice_lookup _ i receiver) by done.
    unfold set_remove. apply elem_of_difference in Hrecv as [Hrem _].
    rewrite decide_True by done. apply IH.
Qed.

Lemma greedy_draws_nil_inv reg remaining m picks draws res :
  greedy_draws reg [] remaining m picks draws res →
  picks = [] ∧ draws = [] ∧ res = Some m.
Proof. by inversion 1. Qed.

Lemma greedy_draws_cons_inv reg giver order remaining m picks draws res data :
  greedy_draws reg (giver :: order) remaining m picks draws res →
  Dict.get reg giver = Some data →
  (picks = [] ∧ draws = [] ∧ res = None
   ∧ remaining ∖ exclusion_ids data = ∅)
  ∨ (∃ receiver i picks' draws',
        picks = receiver :: picks' ∧ draws = i :: draws'
        ∧ elements (remaining ∖ exclusion_ids data) !! i = Some receiver
        ∧ greedy_draws reg order (remaining ∖ {[receiver]})
                       (Dict.set m giver receiver) picks' draws' res).
Proof.
  inversion 1 as [|? ? ? ? data' Hdata' Hav
                  |? ? ? ? data' receiver i picks' draws' ? Hdata' Hi Hrun];
    subst; intros Hdata; simplify_eq.
  - by left.
  - right. by exists receiver, i, picks', draws'.
Qed.

(** Runs and their draws correspond one to one: the receivers taken fix the
    draws, and the draws of one run are never the beginning of the draws of
    another. *)
Lemma greedy_draws_inj reg order remaining m picks draws res picks' draws' res' :
  greedy_draws reg order remaining m picks draws res →
  greedy_draws reg order remaining m picks' draws' res' →
  (picks = picks' → draws = draws' ∧ res = res')
  ∧ (∀ extra, draws' = draws ++ extra →
       picks' = picks ∧ extra = [] ∧ res' = res).
Proof.
  intros Hrun. revert picks' draws' res'.
  induction Hrun as [remaining m
                    |giver order remaining m data Hdata Hav
                    |giver order remaining m data receiver i picks draws res
                       Hdata Hi _ IH]; intros picks' draws' res' Hrun'.
  - apply greedy_draws_nil_inv in Hrun' as (-> & -> & ->).
    split; [done|]. intros extra Hextra. by destruct extra.
  - apply (greedy_draws_cons_inv _ _ _ _ _ _ _ _ data) in Hrun'
      as [(-> & -> & -> & _)
         |(receiver & i & picks1 & draws1 & -> & -> & Hi & _)]; [| |done].
    + split; [done|]. intros extra Hextra. by destruct extra.
    + rewrite Hav, elements_empty in Hi. done.
  - apply (greedy_draws_cons_inv _ _ _ _ _ _ _ _ data) in Hrun'
      as [(-> & -> & -> & Hav)
         |(receiver' & i' & picks1 & draws1 & -> & -> & Hi' & Hrun')]; [| |done].
    + rewrite Hav, elements_empty in Hi. done.
    + split.
      * intros [= -> ->].
        assert (i = i') as <-.
        { apply (NoDup_lookup (elements (remaining ∖ exclusion_ids data))
                   i i' receiver'); [apply NoDup_elements|done..]. }
        destruct (IH _ _ _ Hrun') as [Hsame _].
        destruct (Hsame eq_refl) as [-> ->]. done.
      * intros extra [= <- ->]. simplify_eq.
        destruct (IH _ _ _ Hrun') as [_ Hprefix].
        destruct (Hprefix extra eq_refl) as (-> & -> & ->). done.
Qed.

(** In-range draws make the shuffle return one order, whatever follows them
    on the tape. *)
Lemma shuffle_loop_run {A} indices (x : list A) draws :
  in_range indices draws →
  ∃ y, y ≡ₚ x ∧ ∀ rest, shuffle_loop indices x (draws ++ rest) = (Ok y, rest).
Proof.
  intros Hrange. revert x.
  induction Hrange as [|i j indices draws Hji _ IH]; intros x; simpl.
  - by exists x.
  - destruct (IH (swap x i j)) as (y & Hperm & Hrun).
    exists y. split; [by rewrite Hperm, swap_Permutation|].
    intros rest. unfold mbind, M_bind, bind.
    rewrite randbelow_small by lia. apply Hrun.
Qed.

(** The engine on the draws of a shuffle followed by the draws of a run. *)
Lemma get_assignments_draws config reg sdraws :
  participants config = Some reg →
  in_range (shuffle_indices (length (Dict.keys reg))) sdraws →
  ∃ order,
    order ≡ₚ Dict.keys reg
    ∧ (∀ rest, shuffle (Dict.keys reg) (sdraws ++ rest) = (Ok order, rest))
    ∧ ∀ picks cdraws res rest,
        greedy_draws reg order (all_ids reg) Dict.empty picks cdraws res →
        get_assignments config (sdraws ++ cdraws ++ rest) = (Ok res, rest).
Proof.
  intros Hreg Hrange.
  destruct (shuffle_loop_run _ (Dict.keys reg) sdraws Hrange)
    as (order & Hperm & Hshuffle).
  exists order. split_and!; [done..|].
  intros picks cdraws res rest Hrun.
  unfold get_assignments, mbind, M_bind, bind, lift. rewrite Hreg.
  unfold shuffle, shuffle_indices in *. rewrite Hshuffle.
  by apply (assign_loop_draws reg order _ _ picks).
Qed.

(** ** The retry loop when every attempt fails *)

(** When every call returns [None], the loop is [max_attempts + 1] calls of
    [get_assignments] in a row. *)
Lemma retry_loop_all_None config max_attempts :
  (∀ g0, ∃ g1, get_assignments config g0 = (Ok None, g1)) →
  ∀ k fuel st g,
    assignments st = None → attempts st + k = max_attempts + 1 → k ≤ fuel →
    (successive_attempts config k g).1 = replicate k (Ok None)
    ∧ retry_loop fuel max_attempts config st g
      = (Ok (Some (LoopState (max_attempts + 1) None
                             (calls st ++ replicate k None))),
         (successive_attempts config k g).2).
Proof.
  intros Hnone. induction k as [|k IH]; intros fuel st g Hst Hatt Hfuel.
  - split; [done|]. destruct st as [n a c]. simpl in Hst, Hatt. subst a.
    rewrite Nat.add_0_r in Hatt. subst n.
    destruct fuel; simpl; rewrite bool_decide_eq_false_2 by lia; simpl;
      by rewrite app_nil_r.
  - destruct fuel as [|fuel]; [lia|].
    destruct (Hnone g) as [g1 Hg1].
    destruct (IH fuel (LoopState (attempts st + 1) None (calls st ++ [None])) g1)
      as [Hres Hrun]; [done|simpl; lia|lia|].
    simpl in Hrun. simpl. rewrite Hg1.
    destruct (successive_attempts config k g1) as [results g'] eqn:Hsucc.
    simpl in *. split; [by rewrite Hres|].
    rewrite Hst, bool_decide_eq_true_2 by lia. simpl.
    unfold mbind, M_bind, bind. rewrite Hg1, Hrun.
    by rewrite <- app_assoc.
Qed.

(** * The claims *)

(** C1. Bijection: whenever [get_assignments] returns an assignment for a
    registry that satisfies the invariants of the data model, the givers
    (keys) and the receivers (values) are each free of repetitions, and both
    are, as sets, exactly the set of all participant ids. *)
Theorem get_assignments_bijection config reg g a g' :
  participants config = Some reg → registry_invariants reg →
  get_assignments config g = (Ok (Some a), g') →
  NoDup (Dict.keys a) ∧ NoDup (Dict.values a)
  ∧ (list_to_set (Dict.keys a) : gset string) = all_ids reg
  ∧ (list_to_set (Dict.values a) : gset string) = all_ids reg.
Proof.
  intros Hreg [Hwf _] Hrun.
  apply (get_assignments_Some config reg) in Hrun; [|done].
  apply single_attempt_Some in Hrun as (Hkeys & Hvalues & _); [|done].
  split_and!.
  - by rewrite Hkeys.
  - by rewrite Hvalues.
  - by apply list_to_set_Permutation.
  - by apply list_to_set_Permutation.
Qed.

Lemma get_assignments_bijection_witness :
  let a := [("a", "c"); ("c", "b"); ("b", "a")] in
  NoDup (Dict.keys a) ∧ NoDup (Dict.values a)
  ∧ (list_to_set (Dict.keys a) : gset string) = all_ids example_registry
  ∧ (list_to_set (Dict.values a) : gset string) = all_ids example_registry.
Proof.
  apply (get_assignments_bijection example_config example_registry
           [1; 1; 0; 1; 0] _ []).
  - reflexivity.
  - split.
    + unfold Dict.wf. apply (bool_decide_unpack _). vm_compute. exact I.
    + apply (bool_decide_unpack _). vm_compute. exact I.
  - vm_compute. reflexivity.
Defined.

(** C2. Exclusions respected, no self-assignment: for a configuration that
    [parse_config_file] loads and an assignment that [get_assignments]
    returns, the receiver of every giver lies outside the giver's exclusion
    set; that set contains the giver, so nobody is assigned to themselves. *)
Theorem parsed_assignment_respects_exclusions contents config g a g'
    giver receiver :
  parse_config_file contents = Ok config →
  get_assignments config g = (Ok (Some a), g') →
  Dict.get a giver = Some receiver →
  ∃ reg data,
    participants config = Some reg ∧ Dict.get reg giver = Some data
    ∧ giver ∈ exclusion_ids data
    ∧ (receiver ∉ exclusion_ids data)
    ∧ receiver ≠ giver.
Proof.
  intros (reg & Hreg & _ & Hwf & Hentries)%parse_config_file_Ok Hrun Hget.
  apply (get_assignments_Some config reg) in Hrun; [|done].
  apply single_attempt_Some in Hrun as (_ & _ & Hallowed); [|done].
  destruct (Hallowed giver receiver) as (data & Hdata & Hexcl);
    [by apply dict_get_elem_of|].
  assert (giver ∈ exclusion_ids data) as Hself.
  { apply dict_get_elem_of in Hdata.
    by destruct (proj1 (Forall_forall _ _) Hentries _ Hdata) as [? _]. }
  exists reg, data. split_and!; [done..|]. by intros ->.
Qed.

Lemma parsed_assignment_respects_exclusions_witness :
  ∃ reg data,
    participants example_parsed = Some reg
    ∧ Dict.get reg "person_id1" = Some data
    ∧ "person_id1" ∈ exclusion_ids data
    ∧ ("person_id4" ∉ exclusion_ids data)
    ∧ "person_id4" ≠ "person_id1".
Proof.
  apply (parsed_assignment_respects_exclusions example_contents example_parsed
           [1; 2; 3; 1; 1; 2; 1; 0; 1; 1; 0]
           [("person_id1", "person_id4"); ("person_id5", "person_id1");
            ("person_id6", "person_id3"); ("person_id4", "person_id2");
            ("person_id3", "person_id6"); ("person_id2", "person_id5")]
           []).
  - vm_compute. reflexivity.
  - vm_compute. reflexivity.
  - vm_compute. reflexivity.
Defined.



(** C4. A single attempt is the greedy procedure of the specification: the
    givers are taken in an order that is a permutation of the ids, the pool
    starts as the full id set, a giver with nothing available ends the attempt
    with no result, otherwise one available receiver is recorded and leaves
    the pool, and the finished mapping is returned.  [get_assignments] only
    produces such runs, produces every such run, and draws uniformly.
    Uniformity is stated by counting, for the parts and for the engine:
    every order comes from exactly one sequence of in-range draws of the
    shuffle, and every available receiver from exactly one draw below the
    size of the available set; the engine, on the draws of an order followed
    by the draws of a run in that order, returns the result of that run and
    reads no further, in particular nothing after a giver who is stuck;
    so that a run, that is an order and the receivers taken, comes from
    exactly one tape of the engine; every run of the specification has such
    draws; and runs and draws correspond one to one, no run's draws being
    the beginning of another's. *)
Theorem get_assignments_is_greedy config reg :
  participants config = Some reg → Dict.wf reg →
  (∀ g, ∃ res g',
      get_assignments config g = (Ok res, g') ∧ single_attempt reg res)
  ∧ (∀ res, single_attempt reg res →
       ∃ tape, ∀ rest, get_assignments config (tape ++ rest) = (Ok res, rest))
  ∧ (∀ order, order ≡ₚ Dict.keys reg →
       ∃ draws,
         in_range (shuffle_indices (length (Dict.keys reg))) draws
         ∧ (∀ rest, shuffle (Dict.keys reg) (draws ++ rest) = (Ok order, rest))
         ∧ ∀ draws' rest',
             in_range (shuffle_indices (length (Dict.keys reg))) draws' →
             shuffle (Dict.keys reg) (draws' ++ rest') = (Ok order, rest') →
             draws' = draws)
  ∧ (∀ (available : gset string) receiver, receiver ∈ available →
       ∃ i, i < size available
            ∧ (∀ rest, choice (elements available) (i :: rest)
                       = (Ok receiver, rest))
            ∧ ∀ i' rest', i' < size available →
                choice (elements available) (i' :: rest') = (Ok receiver, rest') →
                i' = i)
  ∧ (∀ order picks cdraws res,
       order ≡ₚ Dict.keys reg →
       greedy_draws reg order (all_ids reg) Dict.empty picks cdraws res →
       ∃ sdraws,
         in_range (shuffle_indices (length (Dict.keys reg))) sdraws
         ∧ (∀ rest, shuffle (Dict.keys reg) (sdraws ++ rest) = (Ok order, rest))
         ∧ (∀ rest, get_assignments config (sdraws ++ cdraws ++ rest)
                    = (Ok res, rest))
         ∧ ∀ sdraws' cdraws' res' rest',
             in_range (shuffle_indices (length (Dict.keys reg))) sdraws' →
             shuffle (Dict.keys reg) (sdraws' ++ rest') = (Ok order, rest') →
             greedy_draws reg order (all_ids reg) Dict.empty picks cdraws' res' →
             sdraws' ++ cdraws' = sdraws ++ cdraws ∧ res' = res)
  ∧ (∀ sdraws,
       in_range (shuffle_indices (length (Dict.keys reg))) sdraws →
       ∃ order,
         order ≡ₚ Dict.keys reg
         ∧ (∀ rest, shuffle (Dict.keys reg) (sdraws ++ rest) = (Ok order, rest))
         ∧ ∀ picks cdraws res rest,
             greedy_draws reg order (all_ids reg) Dict.empty picks cdraws res →
             get_assignments config (sdraws ++ cdraws ++ rest) = (Ok res, rest))
  ∧ (∀ order remaining m res,
       greedy reg order remaining m res
       ↔ ∃ picks draws, greedy_draws reg order remaining m picks draws res)
  ∧ (∀ order remaining m picks draws res picks' draws' res',
       greedy_draws reg order remaining m picks draws res →
       greedy_draws reg order remaining m picks' draws' res' →
       (picks = picks' → draws = draws' ∧ res = res')
       ∧ (∀ extra, draws' = draws ++ extra →
            picks' = picks ∧ extra = [] ∧ res' = res))
  ∧ (∀ (available : gset string) i,
       i < size available ↔ ∃ receiver, elements available !! i = Some receiver).
Proof.
  intros Hreg Hwf. split_and!.
  - intros g. by apply get_assignments_greedy.
  - intros res. by apply get_assignments_reach.
  - intros order Horder.
    destruct (shuffle_reach (Dict.keys reg) order Horder) as (draws & Hr & Hrun).
    exists draws. split_and!; [done..|].
    intros draws' rest' Hr' Hrun'.
    by eapply (shuffle_inj (Dict.keys reg) order draws' draws rest' []).
  - intros available receiver Hin.
    apply elem_of_elements, list_elem_of_lookup in Hin as [i Hi].
    pose proof (lookup_lt_Some _ _ _ Hi) as Hlt.
    exists i. split_and!; [done | by intros; apply choice_lookup |].
    intros i' rest' Hi' Hrun'.
    eapply (choice_inj (elements available) receiver i' i rest' []);
      [apply NoDup_elements | done..|by apply choice_lookup].
  - intros order picks cdraws res Horder Hrun.
    destruct (shuffle_reach (Dict.keys reg) order Horder) as (sdraws & Hr & Hs).
    exists sdraws. split_and!; [done..| |].
    + intros rest.
      destruct (get_assignments_draws config reg sdraws Hreg Hr)
        as (order' & _ & Hs' & Hengine).
      assert (order' = order) as -> by (specialize (Hs []); specialize (Hs' []);
                                        congruence).
      by eapply Hengine.
    + intros sdraws' cdraws' res' rest' Hr' Hs' Hrun'.
      assert (sdraws' = sdraws) as ->
        by by eapply (shuffle_inj (Dict.keys reg) order sdraws' sdraws rest' []).
      destruct (greedy_draws_inj _ _ _ _ _ _ _ _ _ _ Hrun Hrun') as [Hsame _].
      by destruct (Hsame eq_refl) as [-> ->].
  - intros sdraws Hr. by apply get_assignments_draws.
  - intros order remaining m res. split.
    + apply greedy_greedy_draws.
    + intros (picks & draws & Hrun). by eapply greedy_draws_greedy.
  - intros order remaining m picks draws res picks' draws' res' Hrun Hrun'.
    by eapply greedy_draws_inj.
  - intros available i.
    change (i < length (elements available)
            ↔ is_Some (elements available !! i)).
    symmetry. apply lookup_lt_is_Some.
Qed.

Lemma get_assignments_is_greedy_witness :
  (∀ g, ∃ res g',
      get_assignments example_config g = (Ok res, g')
      ∧ single_attempt example_registry res)
  ∧ (∀ res, single_attempt example_registry res →
       ∃ tape, ∀ rest,
         get_assignments example_config (tape ++ rest) = (Ok res, rest))
  ∧ (∀ order, order ≡ₚ Dict.keys example_registry →
       ∃ draws,
         in_range (shuffle_indices (length (Dict.keys example_registry))) draws
         ∧ (∀ rest, shuffle (Dict.keys example_registry) (draws ++ rest)
                    = (Ok order, rest))
         ∧ ∀ draws' rest',
             in_range (shuffle_indices (length (Dict.keys example_registry)))
                      draws' →
             shuffle (Dict.keys example_registry) (draws' ++ rest')
             = (Ok order, rest') →
             draws' = draws)
  ∧ (∀ (available : gset string) receiver, receiver ∈ available →
       ∃ i, i < size available
            ∧ (∀ rest, choice (elements available) (i :: rest)
                       = (Ok receiver, rest))
            ∧ ∀ i' rest', i' < size available →
                choice (elements available) (i' :: rest') = (Ok receiver, rest') →
                i' = i)
  ∧ (∀ order picks cdraws res,
       order ≡ₚ Dict.keys example_registry →
       greedy_draws example_registry order (all_ids example_registry)
                    Dict.empty picks cdraws res →
       ∃ sdraws,
         in_range (shuffle_indices (length (Dict.keys example_registry))) sdraws
         ∧ (∀ rest, shuffle (Dict.keys example_registry) (sdraws ++ rest)
                    = (Ok order, rest))
         ∧ (∀ rest, get_assignments example_config (sdraws ++ cdraws ++ rest)
                    = (Ok res, rest))
         ∧ ∀ sdraws' cdraws' res' rest',
             in_range (shuffle_indices (length (Dict.keys example_registry)))
                      sdraws' →
             shuffle (Dict.keys example_registry) (sdraws' ++ rest')
             = (Ok order, rest') →
             greedy_draws example_registry order (all_ids example_registry)
                          Dict.empty picks cdraws' res' →
             sdraws' ++ cdraws' = sdraws ++ cdraws ∧ res' = res)
  ∧ (∀ sdraws,
       in_range (shuffle_indices (length (Dict.keys example_registry))) sdraws →
       ∃ order,
         order ≡ₚ Dict.keys example_registry
         ∧ (∀ rest, shuffle (Dict.keys example_registry) (sdraws ++ rest)
                    = (Ok order, rest))
         ∧ ∀ picks cdraws res rest,
             greedy_draws example_registry order (all_ids example_registry)
                          Dict.empty picks cdraws res →
             get_assignments example_config (sdraws ++ cdraws ++ rest)
             = (Ok res, rest))
  ∧ (∀ order remaining m res,
       greedy example_registry order remaining m res
       ↔ ∃ picks draws,
           greedy_draws example_registry order remaining m picks draws res)
  ∧ (∀ order remaining m picks draws res picks' draws' res',
       greedy_draws example_registry order remaining m picks draws res →
       greedy_draws example_registry order remaining m picks' draws' res' →
       (picks = picks' → draws = draws' ∧ res = res')
       ∧ (∀ extra, draws' = draws ++ extra →
            picks' = picks ∧ extra = [] ∧ res' = res))
  ∧ (∀ (available : gset string) i,
       i < size available ↔ ∃ receiver, elements available !! i = Some receiver).
Proof.
  apply (get_assignments_is_greedy example_config example_registry).
  - reflexivity.
  - unfold Dict.wf. apply (bool_decide_unpack _). vm_compute. exact I.
Defined.

(** C5. Determinism of infeasibility: when the exclusion set of some
    participant is the full id set, every call of [get_assignments] returns
    [None] whatever the generator yields, and the loop is exactly
    [max_attempts + 1] calls of [get_assignments] in a row (4 with the
    script's constant), never fewer: it leaves the generator where that
    many successive calls leave it, each of them having returned [None].
    The program then raises the infeasibility error carrying that count. *)
Theorem full_exclusion_is_infeasible config reg blocked data fuel max_attempts g :
  participants config = Some reg →
  Dict.get reg blocked = Some data → exclusion_ids data = all_ids reg →
  max_attempts < fuel →
  (∀ g0, ∃ g1, get_assignments config g0 = (Ok None, g1))
  ∧ (successive_attempts config (max_attempts + 1) g).1
    = replicate (max_attempts + 1) (Ok None)
  ∧ (∃ st,
      retry_loop fuel max_attempts config initial_loop_state g
      = (Ok (Some st), (successive_attempts config (max_attempts + 1) g).2)
      ∧ calls st = replicate (max_attempts + 1) None
      ∧ attempts st = max_attempts + 1
      ∧ assign_with_retries fuel max_attempts config g
        = (Raise (AssignmentInfeasible (max_attempts + 1)),
           (successive_attempts config (max_attempts + 1) g).2))
  ∧ (∀ contents entropy,
       parse_config_file contents = Ok config →
       main contents entropy g
       = (Raise (AssignmentInfeasible 4),
          (successive_attempts config (MAX_ASSIGNMENT_ATTEMPTS + 1) g).2)).
Proof.
  intros Hreg Hdata Hexcl Hfuel.
  assert (∀ g0, ∃ g1, get_assignments config g0 = (Ok None, g1)) as Hnone.
  { intros g0. apply (get_assignments_blocked config reg blocked data);
      [done..|]. by rewrite Hexcl. }
  assert (∀ fuel' max, max < fuel' →
            (successive_attempts config (max + 1) g).1
            = replicate (max + 1) (Ok None)
            ∧ retry_loop fuel' max config initial_loop_state g
              = (Ok (Some (LoopState (max + 1) None (replicate (max + 1) None))),
                 (successive_attempts config (max + 1) g).2)
            ∧ assign_with_retries fuel' max config g
              = (Raise (AssignmentInfeasible (max + 1)),
                 (successive_attempts config (max + 1) g).2)) as Hloop.
  { intros fuel' max Hlt.
    destruct (retry_loop_all_None config max Hnone (max + 1) fuel'
                initial_loop_state g) as [Hres Hrun]; [done|simpl; lia|lia|].
    split_and!; [done..|].
    unfold assign_with_retries, mbind, M_bind, bind. by rewrite Hrun. }
  split_and!; [done|..].
  - by apply (Hloop fuel max_attempts).
  - destruct (Hloop fuel max_attempts Hfuel) as (_ & Hrun & Hraise).
    by eexists.
  - intros contents entropy Hparse.
    destruct (Hloop (MAX_ASSIGNMENT_ATTEMPTS + 2) MAX_ASSIGNMENT_ATTEMPTS)
      as (_ & _ & Hraise); [lia|].
    unfold main, mbind, M_bind, bind, lift. by rewrite Hparse, Hraise.
Qed.

Lemma full_exclusion_is_infeasible_witness :
  (∀ g0, ∃ g1, get_assignments blocked_config g0 = (Ok None, g1))
  ∧ successive_attempts blocked_config (MAX_ASSIGNMENT_ATTEMPTS + 1)
                        [1; 0; 1; 1; 0; 1]
    = (replicate (MAX_ASSIGNMENT_ATTEMPTS + 1) (Ok None), [])
  ∧ (∃ st,
      retry_loop (MAX_ASSIGNMENT_ATTEMPTS + 2) MAX_ASSIGNMENT_ATTEMPTS
                 blocked_config initial_loop_state [1; 0; 1; 1; 0; 1]
      = (Ok (Some st), [])
      ∧ calls st = replicate (MAX_ASSIGNMENT_ATTEMPTS + 1) None
      ∧ attempts st = MAX_ASSIGNMENT_ATTEMPTS + 1
      ∧ assign_with_retries (MAX_ASSIGNMENT_ATTEMPTS + 2)
                            MAX_ASSIGNMENT_ATTEMPTS blocked_config
                            [1; 0; 1; 1; 0; 1]
        = (Raise (AssignmentInfeasible (MAX_ASSIGNMENT_ATTEMPTS + 1)), []))
  ∧ main blocked_contents example_entropy [1; 0; 1; 1; 0; 1]
    = (Raise (AssignmentInfeasible 4), []).
Proof.
  assert (successive_attempts blocked_config (MAX_ASSIGNMENT_ATTEMPTS + 1)
                              [1; 0; 1; 1; 0; 1]
          = (replicate (MAX_ASSIGNMENT_ATTEMPTS + 1) (Ok None), [])) as Hruns
    by (vm_compute; reflexivity).
  destruct (full_exclusion_is_infeasible blocked_config blocked_registry "a"
              ann_excludes_all (MAX_ASSIGNMENT_ATTEMPTS + 2)
              MAX_ASSIGNMENT_ATTEMPTS [1; 0; 1; 1; 0; 1])
    as (Hnone & _ & Hloop & Hmain).
  - reflexivity.
  - reflexivity.
  - vm_compute. reflexivity.
  - unfold MAX_ASSIGNMENT_ATTEMPTS. lia.
  - rewrite Hruns in Hloop, Hmain.
    split_and!; [exact Hnone | exact Hruns | exact Hloop |].
    apply Hmain. vm_compute. reflexivity.
Defined.

(** C6. One participant: the sole giver excludes their own id, so nothing is
    ever available to them; every call of [get_assignments] returns [None]
    and, once the [max_attempts + 1] attempts are used up, the program raises
    the infeasibility error. *)
Theorem single_participant_is_infeasible config person_id data fuel
    max_attempts g :
  participants config = Some [(person_id, data)] →
  person_id ∈ exclusion_ids data →
  max_attempts < fuel →
  all_ids [(person_id, data)] ∖ exclusion_ids data = ∅
  ∧ (∀ g0, ∃ g1, get_assignments config g0 = (Ok None, g1))
  ∧ (∃ g', assign_with_retries fuel max_attempts config g
           = (Raise (AssignmentInfeasible (max_attempts + 1)), g'))
  ∧ (∀ contents entropy,
       parse_config_file contents = Ok config →
       ∃ g', main contents entropy g = (Raise (AssignmentInfeasible 4), g')).
Proof.
  intros Hreg Hself Hfuel.
  assert (all_ids [(person_id, data)] ⊆ exclusion_ids data) as Hsub.
  { intros k Hk. unfold all_ids in Hk. simpl in Hk.
    apply elem_of_union in Hk as [->%elem_of_singleton|Hk]; [done|].
    by apply not_elem_of_empty in Hk. }
  assert (Dict.get [(person_id, data)] person_id = Some data) as Hdata
    by (simpl; by rewrite decide_True).
  split_and!.
  - apply set_eq. intros k. split; [|by intros ?%not_elem_of_empty].
    intros [Hk Hnot]%elem_of_difference. destruct Hnot. by apply Hsub.
  - intros g0. by eapply get_assignments_blocked.
  - destruct (infeasible_run config [(person_id, data)] fuel max_attempts g)
      as (st & g' & _ & _ & _ & Hraise); [done| |done|by exists g'].
    intros res Hres. by eapply single_attempt_blocked.
  - intros contents entropy Hparse. eapply main_infeasible; [done..|].
    intros res Hres. by eapply single_attempt_blocked.
Qed.

Lemma single_participant_is_infeasible_witness :
  all_ids [("a", ann)] ∖ exclusion_ids ann = ∅
  ∧ (∀ g0, ∃ g1, get_assignments lonely_config g0 = (Ok None, g1))
  ∧ (∃ g', assign_with_retries (MAX_ASSIGNMENT_ATTEMPTS + 2)
                               MAX_ASSIGNMENT_ATTEMPTS lonely_config [0; 1; 2]
           = (Raise (AssignmentInfeasible (MAX_ASSIGNMENT_ATTEMPTS + 1)), g'))
  ∧ ∃ g', main lonely_contents example_entropy [0; 1; 2]
          = (Raise (AssignmentInfeasible 4), g').
Proof.
  destruct (single_participant_is_infeasible lonely_config "a" ann
              (MAX_ASSIGNMENT_ATTEMPTS + 2) MAX_ASSIGNMENT_ATTEMPTS [0; 1; 2])
    as (Hempty & Hnone & Hraise & Hmain).
  - reflexivity.
  - simpl. by apply elem_of_singleton.
  - unfold MAX_ASSIGNMENT_ATTEMPTS. lia.
  - split_and!; [exact Hempty | exact Hnone | exact Hraise |].
    apply Hmain. vm_compute. reflexivity.
Defined.

(** C7. Frame: a call of [get_assignments], whether it returns an assignment,
    returns [None] or raises, leaves every object that existed before the
    call as it was; in particular the registry read from the configuration
    (ids, names, addresses and exclusion sets) is the same afterwards.  The
    statement is about the embedding over the heap, which
    [get_assignments_refines] relates to the one over values. *)
Theorem get_assignments_preserves_registry (h : Store.heap) config g r h' g' :
  Store.get_assignments config (h, g) = (r, (h', g')) →
  Store.preserves h h'
  ∧ ∀ reg, Store.load_registry h config = Some reg →
           Store.load_registry h' config = Some reg.
Proof.
  intros Hrun.
  destruct (StoreFacts.framed_get_assignments h config h g r h' g'
              (StoreFacts.extends_refl h) Hrun) as [[_ Hpres] _].
  split; [done|]. intros reg. by apply StoreFacts.load_registry_preserved.
Qed.

Lemma get_assignments_preserves_registry_witness :
  let h' := (Store.get_assignments 0 (example_heap, [0; 0; 0])).2.1 in
  Store.preserves example_heap h'
  ∧ ∀ reg, Store.load_registry example_heap 0 = Some reg →
           Store.load_registry h' 0 = Some reg.
Proof.
  apply (get_assignments_preserves_registry example_heap 0 [0; 0; 0]
           (Store.get_assignments 0 (example_heap, [0; 0; 0])).1 _
           (Store.get_assignments 0 (example_heap, [0; 0; 0])).2.2).
  vm_compute. reflexivity.
Defined.

(** C8. The participants check is dead code: a file without participant
    lines makes [parse_config_file] raise [KeyError] for the key
    "participants" at the statement that reads the participant table, and no
    file at all makes it raise the "Missing participants" error. *)
Theorem missing_participants_check_unreachable :
  (∀ contents,
      Forall blank (drop 2 (lines (universal_newlines contents))) →
      parse_config_file contents = Raise (KeyError PARTICIPANTS_KEY))
  ∧ (∀ contents, parse_config_file contents ≠ Raise MissingParticipants).
Proof.
  split.
  - intros contents Hblank. unfold parse_config_file.
    destruct (lines (universal_newlines contents)) as [|line0 [|line1 rest]];
      [reflexivity..|].
    simpl. rewrite parse_lines_blank; [reflexivity | lia | exact Hblank].
  - intros contents. unfold parse_config_file.
    destruct (parse_lines 0 _ _) as [st|e] eqn:Hlines; simpl.
    + apply check_config_not_missing_participants.
    + intros [= ->].
      by destruct (parse_lines_Raise _ _ _ _ Hlines) as [[? ?]|[[? ?]|[? ?]]].
Qed.

Lemma missing_participants_check_unreachable_witness :
  parse_config_file administrators_only = Raise (KeyError PARTICIPANTS_KEY)
  ∧ parse_config_file example_contents ≠ Raise MissingParticipants.
Proof.
  destruct missing_participants_check_unreachable as [Hkey Hnever].
  split; [|apply Hnever].
  apply Hkey. vm_compute. constructor.
Defined.

(** C9. The two administrator fields are stored differently.  In a file that
    loads, the first two lines both end with a newline as they are read; the
    address is line 1 stripped of surrounding whitespace (so not the line as
    read), the credential is line 2 as read, newline included (so not what
    stripping would have stored). *)
Theorem administrator_fields_stored_differently contents config :
  parse_config_file contents = Ok config →
  ∃ line0 line1 rest,
    lines (universal_newlines contents) = line0 :: line1 :: rest
    ∧ last_char line0 = Some newline
    ∧ last_char line1 = Some newline
    ∧ administrator_email config = Some (strip line0)
    ∧ trimmed (strip line0)
    ∧ strip line0 ≠ line0
    ∧ administrator_email_password config = Some line1
    ∧ strip line1 ≠ line1.
Proof.
  unfold parse_config_file.
  destruct (lines (universal_newlines contents)) as [|line0 [|line1 rest]] eqn:Hls;
    [done..|].
  simpl.
  destruct (parse_lines 2 rest _) as [st|] eqn:Hrest; [|done]. simpl.
  intros (-> & reg & Hreg & _)%check_config_Ok.
  pose proof (parse_lines_administrator _ _ _ _ (le_n 2) Hrest) as [Hemail Hpw].
  simpl in *.
  assert (rest ≠ []) as Hne.
  { intros ->. simpl in Hrest. by simplify_eq. }
  assert (last_char line1 = Some newline) as Hnl.
  { destruct (lines_tail _ _ _ Hls) as [s' Hs'].
    by eapply lines_head_newline. }
  assert (last_char line0 = Some newline) as Hnl0
    by by eapply lines_head_newline.
  assert (∀ line, last_char line = Some newline → strip line ≠ line) as Hstrip.
  { intros line Hline Heq. pose proof (strip_trimmed line) as [_ Hlast].
    rewrite Heq in Hlast. by specialize (Hlast _ Hline). }
  exists line0, line1, rest.
  split_and!; [done | done | done | done | apply strip_trimmed | | done |];
    by apply Hstrip.
Qed.

Lemma administrator_fields_stored_differently_witness :
  ∃ line0 line1 rest,
    lines (universal_newlines example_contents) = line0 :: line1 :: rest
    ∧ last_char line0 = Some newline
    ∧ last_char line1 = Some newline
    ∧ administrator_email example_parsed = Some (strip line0)
    ∧ trimmed (strip line0)
    ∧ strip line0 ≠ line0
    ∧ administrator_email_password example_parsed = Some line1
    ∧ strip line1 ≠ line1.
Proof.
  apply (administrator_fields_stored_differently example_contents example_parsed).
  vm_compute. reflexivity.
Defined.

(** C10. The assignment identifier is the first [MAX_ASSIGNMENT_UUID_LENGTH]
    (7) characters of the hexadecimal form of a random UUID: it has at most 7
    characters (exactly 7, the form having 32), each of them a lowercase
    hexadecimal digit. *)
Theorem assignment_uuid_format entropy :
  assignment_uuid entropy
  = slice_to MAX_ASSIGNMENT_UUID_LENGTH (uuid4_hex entropy)
  ∧ MAX_ASSIGNMENT_UUID_LENGTH = 7
  ∧ String.length (assignment_uuid entropy) ≤ 7
  ∧ String.length (assignment_uuid entropy) = 7
  ∧ Forall (λ c, c ∈ list_ascii_of_string "0123456789abcdef")
           (list_ascii_of_string (assignment_uuid entropy))
  ∧ (length entropy = 16 → String.length (uuid4_hex entropy) = 32).
Proof.
  assert (String.length (assignment_uuid entropy) = 7) as Hlen.
  { unfold assignment_uuid, uuid4_hex.
    rewrite slice_to_length, format_032x_length.
    unfold MAX_ASSIGNMENT_UUID_LENGTH. lia. }
  split_and!; [done | done | lia | done | | apply uuid4_hex_length].
  unfold assignment_uuid. rewrite slice_to_take.
  apply Forall_take, format_032x_hexdigits.
Qed.

Lemma assignment_uuid_format_witness :
  assignment_uuid example_entropy
  = slice_to MAX_ASSIGNMENT_UUID_LENGTH (uuid4_hex example_entropy)
  ∧ MAX_ASSIGNMENT_UUID_LENGTH = 7
  ∧ String.length (assignment_uuid example_entropy) ≤ 7
  ∧ String.length (assignment_uuid example_entropy) = 7
  ∧ Forall (λ c, c ∈ list_ascii_of_string "0123456789abcdef")
           (list_ascii_of_string (assignment_uuid example_entropy))
  ∧ (length example_entropy = 16 →
     String.length (uuid4_hex example_entropy) = 32).
Proof. apply (assignment_uuid_format example_entropy). Defined.

(** * Further properties *)

(** ** Further properties of the parser *)

Lemma parse_lines_from_start ls st :
  parse_lines 0 ls (ParseState empty_config ∅) = Ok st →
  (participants (ps_config st) = None)
  ∨ (∃ line0 line1 rest,
        ls = line0 :: line1 :: rest
        ∧ administrator_email (ps_config st) = Some (strip line0)
        ∧ administrator_email_password (ps_config st) = Some line1
        ∧ rest ≠ []).
Proof.
  destruct ls as [|line0 [|line1 rest]]; simpl.
  - intros [= <-]. by left.
  - intros [= <-]. by left.
  - intros Hrest.
    destruct (parse_lines_administrator _ _ _ _ (le_n 2) Hrest) as [Hemail Hpw].
    simpl in *. destruct rest as [|line2 rest].
    + simpl in Hrest. simplify_eq. by left.
    + right. by exists line0, line1, (line2 :: rest).
Qed.

(** X1. A configuration that loads is complete and consistent: both
    administrator fields are present, there is at least one participant, the
    ids are pairwise distinct, every participant excludes their own id, and
    every excluded id is the id of a participant. *)
Theorem loaded_config_is_consistent contents config :
  parse_config_file contents = Ok config →
  ∃ administrator password reg,
    administrator_email config = Some administrator
    ∧ administrator_email_password config = Some password
    ∧ participants config = Some reg
    ∧ reg ≠ []
    ∧ NoDup (Dict.keys reg)
    ∧ ∀ person_id data, Dict.get reg person_id = Some data →
        person_id ∈ exclusion_ids data
        ∧ ∀ excluded, excluded ∈ exclusion_ids data → excluded ∈ Dict.keys reg.
Proof.
  intros Hparse.
  destruct (parse_config_file_Ok _ _ Hparse) as (reg & Hreg & Hne & Hwf & Hentries).
  unfold parse_config_file in Hparse.
  destruct (parse_lines 0 _ _) as [st|] eqn:Hlines; [|done]. simpl in Hparse.
  apply check_config_Ok in Hparse as (-> & _ & _ & _ & [a Ha] & [p Hp]).
  exists a, p, reg. split_and!; [done..|].
  intros person_id data Hdata%dict_get_elem_of.
  destruct (proj1 (Forall_forall _ _) Hentries _ Hdata) as [Hself Hsub].
  split; [done|]. intros excluded Hex%Hsub.
  by apply elem_of_list_to_set in Hex.
Qed.

Lemma loaded_config_is_consistent_witness :
  ∃ administrator password reg,
    administrator_email example_parsed = Some administrator
    ∧ administrator_email_password example_parsed = Some password
    ∧ participants example_parsed = Some reg
    ∧ reg ≠ []
    ∧ NoDup (Dict.keys reg)
    ∧ ∀ person_id data, Dict.get reg person_id = Some data →
        person_id ∈ exclusion_ids data
        ∧ ∀ excluded, excluded ∈ exclusion_ids data → excluded ∈ Dict.keys reg.
Proof.
  apply (loaded_config_is_consistent example_contents example_parsed).
  vm_compute. reflexivity.
Defined.

(** The exceptions of one participant line. *)
Lemma parse_participant_line_Raise line st e :
  parse_participant_line line st = Raise e →
  (∃ values, e = ValueError 4 values ∧ values ≠ 4
             ∧ values = length (split "," line))
  ∨ (∃ field, e = BadExclusionFormat field
              ∧ (field = "" ∨ first_char field ≠ Some "("%char
                 ∨ last_char field ≠ Some ")"%char))
  ∨ (∃ person_id table, e = DuplicatePersonId person_id
        ∧ participants (ps_config st) = Some table
        ∧ person_id ∈ Dict.keys table).
Proof.
  unfold parse_participant_line.
  assert (length (strip <$> split "," line) = length (split "," line)) as Hlen
    by apply length_fmap.
  destruct (strip <$> split "," line)
    as [|person_id [|name [|email [|field [|]]]]] eqn:Hfields; simpl in Hlen;
    try (intros [= <-]; left; eexists; split_and!; [done | lia | done]).
  destruct (_ || _) eqn:Hformat.
  { intros [= <-]. right. left. exists field. split; [done|].
    apply orb_true_iff in Hformat as [Hformat|Hlast%bool_decide_eq_true];
      [|by right; right].
    apply orb_true_iff in Hformat as [Hempty%bool_decide_eq_true
                                     |Hfirst%bool_decide_eq_true];
      [by left | by right; left]. }
  destruct (Dict.mem _ _) eqn:Hmem; [|done].
  intros [= <-]. right. right.
  unfold Dict.mem in Hmem. apply bool_decide_eq_true in Hmem as [data Hdata].
  destruct (participants (ps_config st)) as [table|]; [|done].
  exists person_id, table. split_and!; [done..|]. by eapply dict_get_keys.
Qed.

Lemma parse_lines_Raise_kind ls n st e :
  parse_lines n ls st = Raise e →
  (∃ values, e = ValueError 4 values ∧ values ≠ 4)
  ∨ (∃ field, e = BadExclusionFormat field
              ∧ (field = "" ∨ first_char field ≠ Some "("%char
                 ∨ last_char field ≠ Some ")"%char))
  ∨ (∃ person_id, e = DuplicatePersonId person_id).
Proof.
  revert n st. induction ls as [|line ls IH]; intros n st; simpl; [done|].
  destruct (parse_line n line st) as [st1|e1] eqn:Hline; simpl; [by apply IH|].
  intros [= ->]. destruct n as [|[|n]]; [done..|]. simpl in Hline.
  case_bool_decide; [done|].
  destruct (parse_participant_line_Raise _ _ _ Hline)
    as [(v & -> & ? & _)|[(f & -> & ?)|(p & t & -> & _)]]; eauto 6.
Qed.

(** X2. For a file that opens and decodes as text, the exceptions of
    [parse_config_file] are of five kinds: a participant line that does not
    have four fields, an exclusion field without its parentheses, a repeated
    id, no participant line at all ([KeyError] for "participants"), and
    exclusions that name nobody (the set reported is not empty).  None of
    the three "Missing ..." messages is ever produced.  A file that does not
    decode makes the reading itself raise, which is outside this model. *)
Theorem parse_config_file_errors contents e :
  parse_config_file contents = Raise e →
  ((∃ values, e = ValueError 4 values ∧ values ≠ 4)
   ∨ (∃ field, e = BadExclusionFormat field
               ∧ (field = "" ∨ first_char field ≠ Some "("%char
                  ∨ last_char field ≠ Some ")"%char))
   ∨ (∃ person_id, e = DuplicatePersonId person_id)
   ∨ e = KeyError PARTICIPANTS_KEY
   ∨ (∃ unknown, e = UnknownExclusionIds unknown ∧ unknown ≠ ∅))
  ∧ e ≠ MissingAdministratorEmail
  ∧ e ≠ MissingAdministratorPassword
  ∧ e ≠ MissingParticipants.
Proof.
  intros Hparse.
  assert ((∃ values, e = ValueError 4 values ∧ values ≠ 4)
   ∨ (∃ field, e = BadExclusionFormat field
               ∧ (field = "" ∨ first_char field ≠ Some "("%char
                  ∨ last_char field ≠ Some ")"%char))
   ∨ (∃ person_id, e = DuplicatePersonId person_id)
   ∨ e = KeyError PARTICIPANTS_KEY
   ∨ (∃ unknown, e = UnknownExclusionIds unknown ∧ unknown ≠ ∅)) as Hkind.
  { unfold parse_config_file in Hparse.
    destruct (parse_lines 0 _ _) as [st|e'] eqn:Hlines; simpl in Hparse.
    - unfold check_config in Hparse.
      destruct (parse_lines_from_start _ _ Hlines)
        as [Hnone|(l0 & l1 & rest & _ & Hemail & Hpw & _)].
      + rewrite Hnone in Hparse. simplify_eq. by do 3 right; left.
      + destruct (participants (ps_config st)) as [reg|]; [|simplify_eq; by do 3 right; left].
        case_decide as Hunknown; [simplify_eq; do 4 right; by eexists|].
        rewrite Hemail, Hpw in Hparse. by repeat case_decide.
    - simplify_eq.
      destruct (parse_lines_Raise_kind _ _ _ _ Hlines) as [?|[?|?]]; eauto 6. }
  split; [done|].
  split_and!; intros ->;
    by destruct Hkind as [(? & ? & _)|[(? & ? & _)|[(? & ?)|[?|(? & ? & _)]]]].
Qed.

Lemma parse_config_file_errors_witness :
  ((∃ values, ValueError 4 3 = ValueError 4 values ∧ values ≠ 4)
   ∨ (∃ field, ValueError 4 3 = BadExclusionFormat field
               ∧ (field = "" ∨ first_char field ≠ Some "("%char
                  ∨ last_char field ≠ Some ")"%char))
   ∨ (∃ person_id, ValueError 4 3 = DuplicatePersonId person_id)
   ∨ ValueError 4 3 = KeyError PARTICIPANTS_KEY
   ∨ (∃ unknown, ValueError 4 3 = UnknownExclusionIds unknown ∧ unknown ≠ ∅))
  ∧ ValueError 4 3 ≠ MissingAdministratorEmail
  ∧ ValueError 4 3 ≠ MissingAdministratorPassword
  ∧ ValueError 4 3 ≠ MissingParticipants.
Proof.
  apply (parse_config_file_errors
           (administrators_only +:+ "a, Ann, ann@example.org")).
  vm_compute. reflexivity.
Defined.

Lemma parse_line_from_2 n line st :
  2 ≤ n →
  parse_line n line st
  = if bool_decide (strip line = "") then Ok st
    else parse_participant_line line st.
Proof. intros Hn. by destruct n as [|[|n]]; [lia..|]. Qed.

Lemma parse_lines_skip_blank ls n m st :
  2 ≤ n → 2 ≤ m →
  parse_lines n ls st = parse_lines m (filter (λ line, strip line ≠ "") ls) st.
Proof.
  revert n m st. induction ls as [|line ls IH]; intros n m st Hn Hm; [done|].
  simpl. rewrite parse_line_from_2 by done.
  rewrite filter_cons. case_bool_decide as Hblank.
  - rewrite decide_False by (by intros ?). simpl. apply IH; lia.
  - rewrite decide_True by done. simpl. rewrite parse_line_from_2 by done.
    rewrite bool_decide_eq_false_2 by done.
    destruct (parse_participant_line line st); simpl; [|done]. apply IH; lia.
Qed.

(** X3. After the two administrator lines, blank lines do not count: two
    files with the same first two lines and the same non-blank lines after
    them, in the same order, load to the same configuration or raise the same
    exception. *)
Theorem blank_lines_are_ignored contents contents' line0 line1 rest rest' :
  lines (universal_newlines contents) = line0 :: line1 :: rest →
  lines (universal_newlines contents') = line0 :: line1 :: rest' →
  filter (λ line, strip line ≠ "") rest
  = filter (λ line, strip line ≠ "") rest' →
  parse_config_file contents = parse_config_file contents'.
Proof.
  intros Hls Hls' Hsame. unfold parse_config_file. rewrite Hls, Hls'. simpl.
  by rewrite (parse_lines_skip_blank rest 2 2), (parse_lines_skip_blank rest' 2 2),
    Hsame by lia.
Qed.

Lemma blank_lines_are_ignored_witness :
  parse_config_file blocked_contents
  = parse_config_file blocked_contents_spaced.
Proof.
  apply (blank_lines_are_ignored blocked_contents blocked_contents_spaced
           ("administrator@gmail.com" +:+ end_of_line)
           ("secret" +:+ end_of_line)
           ["a, Ann, ann@example.org, (b)" +:+ end_of_line;
            "b, Bob, bob@example.org, ()"]
           [end_of_line;
            "a, Ann, ann@example.org, (b)" +:+ end_of_line;
            "   " +:+ end_of_line;
            "b, Bob, bob@example.org, ()"]).
  - vm_compute. reflexivity.
  - vm_compute. reflexivity.
  - vm_compute. reflexivity.
Defined.

Lemma elem_of_strip_trimmed x (fields : list string) :
  x ∈ strip <$> fields → trimmed x.
Proof. intros (y & -> & _)%list_elem_of_fmap. apply strip_trimmed. Qed.

Lemma parse_participant_line_trimmed line st st' :
  fields_inv st → parse_participant_line line st = Ok st' → fields_inv st'.
Proof.
  intros Hinv. unfold parse_participant_line.
  destruct (strip <$> split "," line)
    as [|person_id [|name [|email [|excl [|]]]]] eqn:Hfields; try done.
  assert (∀ x, x ∈ [person_id; name; email; excl] → trimmed x) as Htrim.
  { intros x Hx. rewrite <- Hfields in Hx. by eapply elem_of_strip_trimmed. }
  destruct (_ || _); [done|].
  destruct (Dict.mem _ _) eqn:Hmem; [done|].
  apply dict_mem_false in Hmem. intros [= <-].
  unfold fields_inv in *. simpl. rewrite dict_set_new by done.
  apply Forall_app. split.
  - by destruct (participants (ps_config st)).
  - apply Forall_singleton. split_and!; simpl.
    + apply Htrim. by left.
    + apply Htrim. right. by left.
    + apply Htrim. do 2 right. by left.
    + intros excluded [Hin | ->%elem_of_singleton]%elem_of_union.
      * assert (excluded ∈ strip <$> split ";" (slice_1_m1 excl)) as Hsplit.
        { case_decide; [apply elem_of_difference in Hin as [Hin _]|];
            by apply elem_of_list_to_set in Hin. }
        by eapply elem_of_strip_trimmed.
      * apply Htrim. by left.
Qed.

Lemma parse_lines_trimmed ls n st st' :
  fields_inv st → parse_lines n ls st = Ok st' → fields_inv st'.
Proof.
  revert n st. induction ls as [|line ls IH]; intros n st Hinv; simpl.
  - by intros [= <-].
  - destruct (parse_line n line st) as [st1|] eqn:Hline; [|done]. simpl.
    apply IH. unfold parse_line in Hline.
    destruct n as [|[|n]]; [by simplify_eq..|].
    case_bool_decide; [by simplify_eq|].
    by eapply parse_participant_line_trimmed.
Qed.

(** X4. In a configuration that loads, every participant's id, name and
    address, and every id a participant excludes, is stored without white
    space at either end: the white space around the commas and the
    semicolons of the file does not count. *)
Theorem loaded_fields_are_trimmed contents config :
  parse_config_file contents = Ok config →
  ∃ reg, participants config = Some reg ∧ Forall participant_trimmed reg.
Proof.
  intros Hparse.
  destruct (parse_config_file_Ok _ _ Hparse) as (reg & Hreg & _).
  exists reg. split; [done|].
  unfold parse_config_file in Hparse.
  destruct (parse_lines 0 _ _) as [st|] eqn:Hlines; [|done]. simpl in Hparse.
  apply check_config_Ok in Hparse as (-> & _).
  apply parse_lines_trimmed in Hlines; [|done].
  unfold fields_inv in Hlines. by rewrite Hreg in Hlines.
Qed.

Lemma loaded_fields_are_trimmed_witness :
  ∃ reg, participants example_parsed = Some reg
         ∧ Forall participant_trimmed reg.
Proof.
  apply (loaded_fields_are_trimmed example_contents example_parsed).
  vm_compute. reflexivity.
Defined.

(** ** Further properties of the engine *)

#[local] Set Warnings "-clear-no-such-hyp".

(** X5. The greedy attempt can fail although an assignment exists: with three
    participants who exclude only themselves, some draws make the first two
    givers take each other and leave the third with nothing, so the attempt
    returns [None]; other draws return a valid assignment.  This is why the
    caller retries. *)
Theorem greedy_attempt_can_fail_on_feasible_registry config a b c pa pb pc :
  participants config = Some (three_registry a b c pa pb pc) →
  a ≠ b → a ≠ c → b ≠ c →
  exclusion_ids pa = {[a]} → exclusion_ids pb = {[b]} →
  exclusion_ids pc = {[c]} →
  (∃ tape, ∀ rest, get_assignments config (tape ++ rest) = (Ok None, rest))
  ∧ (∃ tape, ∀ rest,
        get_assignments config (tape ++ rest)
        = (Ok (Some [(a, b); (b, c); (c, a)]), rest)).
Proof.
  intros Hreg Hab Hac Hbc Ha Hb Hc.
  set (reg := three_registry a b c pa pb pc) in *.
  assert (Dict.get reg a = Some pa) as Hga
    by (simpl; by rewrite decide_True).
  assert (Dict.get reg b = Some pb) as Hgb
    by (simpl; by rewrite decide_False, decide_True).
  assert (Dict.get reg c = Some pc) as Hgc.
  { simpl. rewrite decide_False by done. rewrite decide_False by done.
    by rewrite decide_True. }
  assert (all_ids reg = {[a; b; c]}) as Hall.
  { unfold all_ids. simpl. set_solver. }
  split; apply (get_assignments_reach config reg); try done;
    exists [a; b; c]; (split; [done|]); rewrite Hall.
  - eapply (greedy_pick reg a _ _ _ pa b); [done | rewrite Ha; set_solver|].
    simpl.
    eapply (greedy_pick reg b _ _ _ pb a); [done | rewrite Hb; set_solver|].
    eapply greedy_stuck; [done|]. rewrite Hc. set_solver.
  - eapply (greedy_pick reg a _ _ _ pa b); [done | rewrite Ha; set_solver|].
    simpl.
    eapply (greedy_pick reg b _ _ _ pb c); [done | rewrite Hb; set_solver|].
    simpl. rewrite decide_False by done.
    eapply (greedy_pick reg c _ _ _ pc a); [done | rewrite Hc; set_solver|].
    simpl. rewrite decide_False by done. rewrite decide_False by done.
    constructor.
Qed.

Lemma greedy_attempt_can_fail_on_feasible_registry_witness :
  (∃ tape, ∀ rest, get_assignments example_config (tape ++ rest) = (Ok None, rest))
  ∧ (∃ tape, ∀ rest,
        get_assignments example_config (tape ++ rest)
        = (Ok (Some [("a", "b"); ("b", "c"); ("c", "a")]), rest)).
Proof.
  apply (greedy_attempt_can_fail_on_feasible_registry example_config
           "a" "b" "c"
           (Participant "Ann" "ann@example.org" {["a"]})
           (Participant "Bob" "bob@example.org" {["b"]})
           (Participant "Cy" "cy@example.org" {["c"]})); done.
Defined.

Lemma greedy_nil_inv reg remaining m res :
  greedy reg [] remaining m res → res = Some m.
Proof. by inversion 1. Qed.

Lemma greedy_cons_inv reg giver order remaining m res data :
  greedy reg (giver :: order) remaining m res →
  Dict.get reg giver = Some data →
  (res = None ∧ remaining ∖ exclusion_ids data = ∅)
  ∨ (∃ receiver,
        receiver ∈ remaining ∖ exclusion_ids data
        ∧ greedy reg order (remaining ∖ {[receiver]})
                 (Dict.set m giver receiver) res).
Proof.
  inversion 1 as [| ? ? ? ? data' Hdata' Hstuck
                  | ? ? ? ? data' receiver ? Hdata' Hrecv Hrest]; subst;
    intros Hdata; rewrite Hdata in Hdata'; simplify_eq; [by left|].
  right. by exists receiver.
Qed.

(** A pair who may give to each other. *)
Lemma pair_single_attempt a b pa pb res :
  a ≠ b →
  a ∈ exclusion_ids pa → b ∉ exclusion_ids pa →
  b ∈ exclusion_ids pb → a ∉ exclusion_ids pb →
  single_attempt [(a, pa); (b, pb)] res →
  res = Some [(a, b); (b, a)] ∨ res = Some [(b, a); (a, b)].
Proof.
  intros Hab Haa Hba Hbb Hab' (order & Horder & Hgreedy).
  set (reg := [(a, pa); (b, pb)]) in *.
  assert (Dict.get reg a = Some pa) as Hga by (simpl; by rewrite decide_True).
  assert (Dict.get reg b = Some pb) as Hgb
    by (simpl; by rewrite decide_False, decide_True).
  assert (all_ids reg = {[a; b]}) as Hall by (unfold all_ids; simpl; set_solver).
  rewrite Hall in Hgreedy.
  assert (order = [a; b] ∨ order = [b; a]) as [-> | ->].
  { simpl in Horder. symmetry in Horder.
    destruct order as [|x [|y [|z order]]];
      try (apply Permutation_length in Horder; simpl in Horder; lia).
    apply Permutation_length_2_inv in Horder as [?|?]; simplify_eq; eauto. }
  - left.
    destruct (greedy_cons_inv _ _ _ _ _ _ _ Hgreedy Hga)
      as [[_ Hstuck]|(r & Hr & Hrest)]; [set_solver|].
    assert (r = b) as -> by set_solver. simpl in Hrest.
    destruct (greedy_cons_inv _ _ _ _ _ _ _ Hrest Hgb)
      as [[_ Hstuck]|(r & Hr' & Hrest')]; [set_solver|].
    assert (r = a) as -> by set_solver.
    simpl in Hrest'. rewrite decide_False in Hrest' by done.
    by apply greedy_nil_inv in Hrest'.
  - right.
    destruct (greedy_cons_inv _ _ _ _ _ _ _ Hgreedy Hgb)
      as [[_ Hstuck]|(r & Hr & Hrest)]; [set_solver|].
    assert (r = a) as -> by set_solver. simpl in Hrest.
    destruct (greedy_cons_inv _ _ _ _ _ _ _ Hrest Hga)
      as [[_ Hstuck]|(r & Hr' & Hrest')]; [set_solver|].
    assert (r = b) as -> by set_solver.
    simpl in Hrest'. rewrite decide_False in Hrest' by done.
    by apply greedy_nil_inv in Hrest'.
Qed.

Lemma retry_loop_stop fuel max_attempts config st g :
  truthy (assignments st) = true →
  retry_loop fuel max_attempts config st g = (Ok (Some st), g).
Proof.
  intros Htruthy. destruct fuel; simpl; by rewrite Htruthy, andb_false_r.
Qed.

(** X6. Two participants who may give to each other are always served at the
    first attempt: whatever the generator yields, [get_assignments] assigns
    each to the other, and the retry loop stops after that single call. *)
Theorem pair_succeeds_at_first_attempt config a b pa pb fuel max_attempts g :
  participants config = Some [(a, pa); (b, pb)] →
  a ≠ b →
  a ∈ exclusion_ids pa → b ∉ exclusion_ids pa →
  b ∈ exclusion_ids pb → a ∉ exclusion_ids pb →
  0 < fuel →
  ∃ x g',
    get_assignments config g = (Ok (Some x), g')
    ∧ (x = [(a, b); (b, a)] ∨ x = [(b, a); (a, b)])
    ∧ retry_loop fuel max_attempts config initial_loop_state g
      = (Ok (Some (LoopState 1 (Some x) [Some x])), g')
    ∧ assign_with_retries fuel max_attempts config g = (Ok (Some x), g').
Proof.
  intros Hreg Hab Haa Hba Hbb Hab' Hfuel.
  destruct (get_assignments_greedy config _ g Hreg) as (res & g' & Hrun & Hres).
  assert (∃ x, res = Some x ∧ (x = [(a, b); (b, a)] ∨ x = [(b, a); (a, b)])
               ∧ truthy (Some x) = true) as (x & -> & Hx & Htruthy).
  { destruct (pair_single_attempt a b pa pb res) as [-> | ->]; try done;
      eexists; split_and!; eauto. }
  assert (retry_loop fuel max_attempts config initial_loop_state g
          = (Ok (Some (LoopState 1 (Some x) [Some x])), g')) as Hloop.
  { destruct fuel as [|fuel]; [lia|].
    change (retry_loop (S fuel) max_attempts config initial_loop_state g)
      with ((if bool_decide (0 ≤ max_attempts) && negb (truthy None)
             then a ← get_assignments config;
                  retry_loop fuel max_attempts config
                             (LoopState (0 + 1) a ([] ++ [a]))
             else ret (Some initial_loop_state)) g).
    rewrite bool_decide_eq_true_2 by lia. simpl.
    unfold mbind, M_bind, bind. rewrite Hrun.
    by apply retry_loop_stop. }
  exists x, g'. split_and!; [done..|].
  unfold assign_with_retries, mbind, M_bind, bind. rewrite Hloop.
  unfold check_assignments. simpl. by destruct Hx as [-> | ->].
Qed.

Lemma pair_succeeds_at_first_attempt_witness :
  ∃ x g',
    get_assignments pair_config [1; 0; 0] = (Ok (Some x), g')
    ∧ (x = [("a", "b"); ("b", "a")] ∨ x = [("b", "a"); ("a", "b")])
    ∧ retry_loop 5 MAX_ASSIGNMENT_ATTEMPTS pair_config initial_loop_state
                 [1; 0; 0]
      = (Ok (Some (LoopState 1 (Some x) [Some x])), g')
    ∧ assign_with_retries 5 MAX_ASSIGNMENT_ATTEMPTS pair_config [1; 0; 0]
      = (Ok (Some x), g').
Proof.
  apply (pair_succeeds_at_first_attempt pair_config "a" "b" ann
           (Participant "Bob" "bob@example.org" {["b"]})).
  - reflexivity.
  - vm_compute. discriminate.
  - apply (bool_decide_unpack _). vm_compute. exact I.
  - apply (bool_decide_unpack _). vm_compute. exact I.
  - apply (bool_decide_unpack _). vm_compute. exact I.
  - apply (bool_decide_unpack _). vm_compute. exact I.
  - lia.
Defined.

(** ** The core of the program *)

Lemma single_attempt_valid reg a :
  registry_invariants reg → single_attempt reg (Some a) → valid_assignment reg a.
Proof.
  intros [Hwf Hentries] Hrun.
  apply single_attempt_Some in Hrun as (Hkeys & Hvalues & Hallowed); [|done].
  split_and!; [done..|]. intros giver receiver Hin.
  destruct (Hallowed giver receiver Hin) as (data & Hdata & Hexcl).
  exists data. split_and!; [done..|]. intros ->.
  apply dict_get_elem_of in Hdata.
  by destruct (proj1 (Forall_forall _ _) Hentries _ Hdata) as [? _].
Qed.

(** What the retry loop hands over: nothing, after all the attempts, or the
    result of an attempt. *)
Lemma assign_with_retries_outcome config reg g :
  participants config = Some reg →
  ∃ r g',
    assign_with_retries (MAX_ASSIGNMENT_ATTEMPTS + 2) MAX_ASSIGNMENT_ATTEMPTS
                        config g = (r, g')
    ∧ (r = Raise (AssignmentInfeasible 4)
       ∨ ∃ a, r = Ok (Some a) ∧ a ≠ [] ∧ single_attempt reg (Some a)).
Proof.
  intros Hreg.
  destruct (retry_loop_run config reg MAX_ASSIGNMENT_ATTEMPTS Hreg
              (MAX_ASSIGNMENT_ATTEMPTS + 2) initial_loop_state g)
    as (st & g' & new & Hrun & _ & Hatt & Hlast & Hnew & _ & Hbound & _ & Hexit);
    [simpl; lia|].
  simpl in Hatt, Hlast.
  unfold assign_with_retries, mbind, M_bind, bind. rewrite Hrun.
  unfold check_assignments.
  assert (truthy (assignments st) = false → attempts st = 4) as Hfour.
  { intros Hfalse. specialize (Hexit Hfalse).
    destruct new as [|r new]; [simpl in *; lia|].
    specialize (Hbound ltac:(done)). unfold MAX_ASSIGNMENT_ATTEMPTS in *. lia. }
  destruct (assignments st) as [[|entry entries]|] eqn:Hres.
  - eexists _, _. split; [done|]. left. by rewrite Hfour.
  - eexists _, _. split; [done|]. right. exists (entry :: entries).
    split_and!; [done..|].
    destruct (last new) as [r|] eqn:Hr; simpl in Hlast; [|done]. subst r.
    apply last_Some_elem_of in Hr.
    by apply (proj1 (Forall_forall _ _) Hnew).
  - eexists _, _. split; [done|]. left. by rewrite Hfour.
Qed.

(** X7. The outcome of the core of the program is one of three: the
    exception that [parse_config_file] raised, with no random number drawn;
    the infeasibility error carrying 4 attempts; or the identifier together
    with an assignment that is a bijection on the participant ids in which
    no receiver is excluded by, or the same as, the giver.  It never hands
    over a partial or invalid assignment. *)
Theorem main_outcomes contents entropy g :
  ∃ r g',
    main contents entropy g = (r, g')
    ∧ ((∃ e, parse_config_file contents = Raise e ∧ r = Raise e ∧ g' = g)
       ∨ (∃ config, parse_config_file contents = Ok config
                    ∧ r = Raise (AssignmentInfeasible 4))
       ∨ (∃ config reg a,
             parse_config_file contents = Ok config
             ∧ participants config = Some reg
             ∧ r = Ok (Some (assignment_uuid entropy, a))
             ∧ valid_assignment reg a)).
Proof.
  unfold main, mbind, M_bind, bind, lift.
  destruct (parse_config_file contents) as [config|e] eqn:Hparse.
  - destruct (parse_config_file_Ok _ _ Hparse) as (reg & Hreg & _ & Hinv).
    destruct (assign_with_retries_outcome config reg g Hreg)
      as (r & g' & -> & [-> | (a & -> & _ & Ha)]).
    + eexists _, _. split; [done|]. right. left. by exists config.
    + eexists _, _. split; [done|]. right. right. exists config, reg, a.
      split_and!; [done..|]. by apply single_attempt_valid.
  - eexists _, _. split; [done|]. left. by exists e.
Qed.

(** ** Further properties of the identifier *)

Lemma testbit_shiftl_const c n p :
  (0 ≤ c)%Z → (0 ≤ n)%Z → (Z.log2 c + n < p)%Z →
  Z.testbit (Z.shiftl c n) p = false.
Proof.
  intros Hc Hn Hp. pose proof (Z.log2_nonneg c).
  rewrite Z.shiftl_spec by lia. apply Z.bits_above_log2; lia.
Qed.

(** The bits that [uuid4] forces are all below bit 80. *)
Lemma uuid4_int_high_bits entropy p :
  (80 ≤ p)%Z →
  Z.testbit (uuid4_int entropy) p = Z.testbit (from_bytes_big entropy) p.
Proof.
  intros Hp. unfold uuid4_int.
  rewrite Z.lor_spec, Z.land_spec, Z.lor_spec, Z.land_spec.
  rewrite !Z.lnot_spec by lia.
  rewrite (testbit_shiftl_const 0xc000 48), (testbit_shiftl_const 0x8000 48),
    (testbit_shiftl_const 0xf000 64), (testbit_shiftl_const 4 76)
    by (done || (simpl; lia)).
  simpl. by rewrite !orb_false_r, !andb_true_r.
Qed.

Lemma hex_nibble_high entropy i :
  20 ≤ i →
  Z.land (Z.shiftr (uuid4_int entropy) (4 * Z.of_nat i)) 15
  = Z.land (Z.shiftr (from_bytes_big entropy) (4 * Z.of_nat i)) 15.
Proof.
  intros Hi. apply Z.bits_inj'. intros k Hk.
  rewrite !Z.land_spec, !Z.shiftr_spec by done.
  by rewrite uuid4_int_high_bits by lia.
Qed.

Lemma string_of_list_ascii_inj_take n s s' :
  take n (list_ascii_of_string s) = take n (list_ascii_of_string s') →
  slice_to n s = slice_to n s'.
Proof.
  intros Htake. rewrite <- !slice_to_take in Htake.
  rewrite <- (string_of_list_ascii_of_string (slice_to n s)),
    <- (string_of_list_ascii_of_string (slice_to n s')).
  by rewrite Htake.
Qed.

(** X8. The identifier carries only random bits: the version and variant
    bits that [uuid4] forces sit in the 13th and 17th hexadecimal digits, so
    the 7 characters kept are the first 7 hexadecimal digits of the 16 random
    bytes themselves. *)
Theorem assignment_uuid_is_raw_entropy entropy :
  length entropy = 16 →
  assignment_uuid entropy = slice_to 7 (format_032x (from_bytes_big entropy)).
Proof.
  intros Hlen. unfold assignment_uuid, uuid4_hex, MAX_ASSIGNMENT_UUID_LENGTH.
  apply string_of_list_ascii_inj_take. unfold format_032x.
  rewrite !list_ascii_of_string_of_list_ascii.
  assert (hex_width (from_bytes_big entropy) ≤ 32) as Hraw.
  { apply hex_width_128. pose proof (from_bytes_big_bound entropy) as Hb.
    rewrite Hlen in Hb. by change (256 ^ Z.of_nat 16)%Z with (2 ^ 128)%Z in Hb. }
  pose proof (hex_width_128 _ (uuid4_int_bound entropy Hlen)) as Huuid.
  rewrite !Nat.max_l by done.
  change (reverse (seq 0 32))
    with ([31; 30; 29; 28; 27; 26; 25] ++ reverse (seq 0 25)).
  rewrite !fmap_app, !take_app_length' by done.
  apply list_fmap_ext. intros _ i Hi%list_elem_of_lookup_2.
  rewrite hex_nibble_high; [done|].
  repeat (apply elem_of_cons in Hi as [->|Hi]; [lia|]).
  by apply elem_of_nil in Hi.
Qed.

Lemma assignment_uuid_is_raw_entropy_witness :
  assignment_uuid example_entropy
  = slice_to 7 (format_032x (from_bytes_big example_entropy)).
Proof. by apply (assignment_uuid_is_raw_entropy example_entropy). Defined.

(** ** Printing the assignment *)

Lemma W_bind_Returned {A B} (m : W A) (k : A → W B) w a w' :
  m w = (Returned a, w') → (m ≫= k) w = k a w'.
Proof. intros Hm. unfold mbind, W_bind, W_then. by rewrite Hm. Qed.

Lemma W_bind_Failed {A B} (m : W A) (k : A → W B) w f w' :
  m w = (Failed f, w') → (m ≫= k) w = (Failed f, w').
Proof. intros Hm. unfold mbind, W_bind, W_then. by rewrite Hm. Qed.

Lemma participant_name_known config reg person_id :
  participants config = Some reg → person_id ∈ Dict.keys reg →
  participant_name config person_id = Ok (display_name reg person_id).
Proof.
  intros Hreg [data Hdata]%dict_get_is_Some.
  unfold participant_name, config_participant, Dict.getitem, display_name.
  by rewrite Hreg, Hdata.
Qed.

Lemma participant_email_known config reg person_id :
  participants config = Some reg → person_id ∈ Dict.keys reg →
  participant_email config person_id = Ok (address reg person_id).
Proof.
  intros Hreg [data Hdata]%dict_get_is_Some.
  unfold participant_email, config_participant, Dict.getitem, address.
  by rewrite Hreg, Hdata.
Qed.

Lemma valid_assignment_known reg a : valid_assignment reg a → known reg a.
Proof.
  intros (Hkeys & Hvalues & _). apply Forall_forall. intros [giver receiver] Hin.
  simpl. split.
  - rewrite <- Hkeys. by apply (list_elem_of_fmap_2 fst) in Hin.
  - rewrite <- Hvalues. by apply (list_elem_of_fmap_2 snd) in Hin.
Qed.

Lemma get_assignments_known config reg g a g' :
  participants config = Some reg → Dict.wf reg →
  get_assignments config g = (Ok (Some a), g') → known reg a.
Proof.
  intros Hreg Hwf Hrun.
  apply (get_assignments_Some config reg) in Hrun; [|done].
  apply single_attempt_Some in Hrun as (Hkeys & Hvalues & _); [|done].
  apply Forall_forall. intros [giver receiver] Hin. simpl. split.
  - rewrite <- Hkeys. by apply (list_elem_of_fmap_2 fst) in Hin.
  - rewrite <- Hvalues. by apply (list_elem_of_fmap_2 snd) in Hin.
Qed.

Lemma pretty_print_loop_run config reg items out log faults g :
  participants config = Some reg → known reg items →
  pretty_print_loop items config (World out log faults g)
  = (Returned (), World (out ++ (printed_pair reg <$> items)) log faults g).
Proof.
  intros Hreg Hknown. revert out.
  induction Hknown as [|[giver getter] items [Hgiver Hgetter] _ IH]; intros out.
  - simpl. by rewrite app_nil_r.
  - simpl in *.
    rewrite (participant_name_known config reg giver),
      (participant_name_known config reg getter) by done.
    simpl. unfold mbind at 1 2 3, W_bind, W_then. simpl.
    rewrite IH. by rewrite <- app_assoc.
Qed.

(** X9. Printing an assignment that [get_assignments] returned for the same
    configuration never fails and prints one line for the identifier and
    then, for every giver in the order of the assignment, "<giver's name> will
    give to <receiver's name>."; nothing else in the world changes. *)
Theorem pretty_print_lists_every_pair config reg g a g' assignment_uuid
    out log faults g0 :
  participants config = Some reg → Dict.wf reg →
  get_assignments config g = (Ok (Some a), g') →
  pretty_print_assignments assignment_uuid a config (World out log faults g0)
  = (Returned (),
     World (out ++ Text ("Assignment Id: " +:+ assignment_uuid)
                :: (printed_pair reg <$> a))
           log faults g0).
Proof.
  intros Hreg Hwf Hrun. unfold pretty_print_assignments.
  unfold mbind, W_bind, W_then. simpl.
  rewrite (pretty_print_loop_run config reg) by
    (done || by eapply get_assignments_known).
  by rewrite <- app_assoc.
Qed.

Lemma pretty_print_lists_every_pair_witness :
  pretty_print_assignments "21f7d68" example_assignment example_config
                           (World [] [] [] [])
  = (Returned (),
     World [Text "Assignment Id: 21f7d68";
            Text "Ann will give to Cy.";
            Text "Cy will give to Bob.";
            Text "Bob will give to Ann."] [] [] []).
Proof.
  apply (pretty_print_lists_every_pair example_config example_registry
           [1; 1; 0; 1; 0] example_assignment [] "21f7d68" [] [] [] []).
  - reflexivity.
  - unfold Dict.wf. apply (bool_decide_unpack _). vm_compute. exact I.
  - vm_compute. reflexivity.
Defined.

(** ** Sending the mails *)

Lemma no_fault_take_S n faults :
  no_fault (take (S n) faults) →
  (∀ text, head faults ≠ Some (Some text)) ∧ no_fault (take n (tail faults)).
Proof.
  destruct faults as [|fault faults]; simpl.
  - intros _. split; [done|]. rewrite take_nil. constructor.
  - intros [-> Hrest]%Forall_cons. by split.
Qed.

Lemma smtp_Done call out log faults g :
  (∀ text, head faults ≠ Some (Some text)) →
  smtp call (World out log faults g)
  = (Returned (), World out (log ++ [Done call]) (tail faults) g).
Proof.
  intros Hhead. unfold smtp. simpl.
  destruct faults as [|[text|] faults]; [done| |done].
  by destruct (Hhead text).
Qed.

Lemma smtp_Refused call out log faults g text :
  head faults = Some (Some text) →
  smtp call (World out log faults g)
  = (Failed (SMTPError text),
     World out (log ++ [Refused call text]) (tail faults) g).
Proof.
  intros Hhead. unfold smtp. simpl.
  destruct faults as [|fault faults]; simplify_eq/=. done.
Qed.

Lemma send_loop_run config reg administrator assignment_uuid email_content
    items acc out log faults g :
  participants config = Some reg → known reg items →
  no_fault (take (length items) faults) →
  send_loop items config administrator (alert_subject assignment_uuid)
            email_content acc (World out log faults g)
  = (Returned (by_name reg items acc),
     World (out ++ (sent_line reg <$> items))
           (log ++ (Done <$> (mail_to reg administrator assignment_uuid
                                      email_content <$> items)))
           (drop (length items) faults) g).
Proof.
  intros Hreg Hknown. revert acc out log faults.
  induction Hknown as [|[giver getter] items [Hgiver Hgetter] _ IH];
    intros acc out log faults Hfaults.
  - simpl. by rewrite !app_nil_r.
  - simpl in *. apply no_fault_take_S in Hfaults as [Hhead Hfaults].
    rewrite (participant_name_known config reg giver),
      (participant_name_known config reg getter),
      (participant_email_known config reg giver) by done.
    simpl. unfold mbind at 1 2 3, W_bind, W_then. simpl.
    rewrite (W_bind_Returned _ _ _ () _ (smtp_Done _ _ _ _ _ Hhead)).
    unfold mbind at 1, W_bind, W_then. simpl.
    rewrite IH by done. rewrite <- !app_assoc.
    destruct faults; simpl; rewrite ?drop_nil; reflexivity.
Qed.

Lemma send_loop_refused config reg administrator assignment_uuid email_content
    pre entry post acc out log faults g text :
  participants config = Some reg → known reg (pre ++ [entry]) →
  no_fault (take (length pre) faults) →
  faults !! length pre = Some (Some text) →
  send_loop (pre ++ entry :: post) config administrator
            (alert_subject assignment_uuid) email_content acc
            (World out log faults g)
  = (Failed (SMTPError text),
     World (out ++ (sent_line reg <$> pre))
           (log ++ (Done <$> (mail_to reg administrator assignment_uuid
                                      email_content <$> pre))
                ++ [Refused (mail_to reg administrator assignment_uuid
                                     email_content entry) text])
           (drop (S (length pre)) faults) g).
Proof.
  intros Hreg Hknown. revert acc out log faults.
  induction pre as [|[giver getter] pre IH]; intros acc out log faults Hfaults Hk.
  - apply Forall_singleton in Hknown as [Hgiver Hgetter].
    destruct entry as [giver getter]. simpl in *.
    rewrite (participant_name_known config reg giver),
      (participant_name_known config reg getter),
      (participant_email_known config reg giver) by done.
    simpl. unfold mbind at 1 2 3, W_bind, W_then. simpl.
    rewrite (W_bind_Failed _ _ _ (SMTPError text)
               (World out (log ++ [Refused
                   (mail_to reg administrator assignment_uuid email_content
                            (giver, getter)) text]) (tail faults) g)).
    + rewrite app_nil_r. by destruct faults.
    + apply smtp_Refused. by destruct faults.
  - apply Forall_cons in Hknown as [[Hgiver Hgetter] Hknown].
    simpl in *. apply no_fault_take_S in Hfaults as [Hhead Hfaults].
    rewrite (participant_name_known config reg giver),
      (participant_name_known config reg getter),
      (participant_email_known config reg giver) by done.
    simpl. unfold mbind at 1 2 3, W_bind, W_then. simpl.
    rewrite (W_bind_Returned _ _ _ () _ (smtp_Done _ _ _ _ _ Hhead)).
    unfold mbind at 1, W_bind, W_then. simpl.
    rewrite IH; [|done..|by destruct faults].
    rewrite <- !app_assoc. destruct faults; simpl; rewrite ?drop_nil; reflexivity.
Qed.

Lemma no_fault_take_le n m faults :
  n ≤ m → no_fault (take m faults) → no_fault (take n faults).
Proof.
  intros Hle Hm. replace n with (n `min` m) by lia.
  rewrite <- take_take. by apply Forall_take.
Qed.

Lemma no_fault_drop n m faults :
  no_fault (take (n + m) faults) → no_fault (take m (drop n faults)).
Proof.
  intros Hfaults. rewrite take_drop_commute.
  by apply Forall_drop.
Qed.

Lemma head_drop {A} n (l : list A) : head (drop n l) = l !! n.
Proof. revert l. induction n; intros [|x l]; simpl; auto. Qed.

Lemma tail_drop {A} n (l : list A) : tail (drop n l) = drop (S n) l.
Proof. revert l. induction n; intros [|x l]; simpl; auto. Qed.

Lemma no_fault_lookup n faults k text :
  no_fault (take n faults) → k < n → faults !! k ≠ Some (Some text).
Proof.
  intros Hfaults Hlt Hk.
  assert (take n faults !! k = Some (Some text)) as Hk'
    by (by apply lookup_take_Some).
  by apply (proj1 (Forall_lookup _ _) Hfaults) in Hk'.
Qed.

Lemma of_result_Ok_bind {A B} (a : A) (k : A → W B) w :
  (of_result (Ok a) ≫= k) w = k a w.
Proof. reflexivity. Qed.

Lemma send_all_run config reg administrator assignment_uuid email_content
    a out log faults g :
  participants config = Some reg → known reg a →
  no_fault (take (S (length a)) faults) →
  send_all assignment_uuid a config email_content administrator
           (World out log faults g)
  = (Returned (),
     World (out ++ (sent_line reg <$> a)
                ++ [Text ("Sent all assignments to " +:+ administrator +:+ ".")])
           (log ++ (Done <$> (mail_to reg administrator assignment_uuid
                                      email_content <$> a))
                ++ [Done (summary_mail reg administrator assignment_uuid a)])
           (drop (S (length a)) faults) g).
Proof.
  intros Hreg Hknown Hfaults. unfold send_all.
  erewrite W_bind_Returned; last first.
  { apply (send_loop_run config reg); [done..|].
    by apply (no_fault_take_le _ (S (length a))); [lia|]. }
  erewrite W_bind_Returned; last first.
  { apply smtp_Done. intros text. rewrite head_drop.
    apply (no_fault_lookup (S (length a))); [done|lia]. }
  unfold print. simpl. rewrite tail_drop, <- !app_assoc. reflexivity.
Qed.

Lemma send_all_refused config reg administrator assignment_uuid email_content
    pre entry post out log faults g text :
  participants config = Some reg → known reg (pre ++ [entry]) →
  no_fault (take (length pre) faults) →
  faults !! length pre = Some (Some text) →
  send_all assignment_uuid (pre ++ entry :: post) config email_content
           administrator (World out log faults g)
  = (Failed (SMTPError text),
     World (out ++ (sent_line reg <$> pre))
           (log ++ (Done <$> (mail_to reg administrator assignment_uuid
                                      email_content <$> pre))
                ++ [Refused (mail_to reg administrator assignment_uuid
                                     email_content entry) text])
           (drop (S (length pre)) faults) g).
Proof.
  intros Hreg Hknown Hfaults Hk. unfold send_all.
  erewrite W_bind_Failed; [done|].
  by apply (send_loop_refused config reg).
Qed.

Lemma smtp_Done_at n k call out log faults g :
  no_fault (take n faults) → k < n →
  smtp call (World out log (drop k faults) g)
  = (Returned (), World out (log ++ [Done call]) (drop (S k) faults) g).
Proof.
  intros Hfaults Hlt. rewrite smtp_Done, ?tail_drop; [done|].
  intros text. rewrite head_drop. by apply (no_fault_lookup n).
Qed.

Lemma smtp_Refused_at k call out log faults g text :
  faults !! k = Some (Some text) →
  smtp call (World out log (drop k faults) g)
  = (Failed (SMTPError text),
     World out (log ++ [Refused call text]) (drop (S k) faults) g).
Proof.
  intros Hk. rewrite (smtp_Refused _ _ _ _ _ text), ?tail_drop; [done|].
  by rewrite head_drop.
Qed.

(** Once the three opening calls have gone through, what is left is the
    [try] statement. *)
Lemma session_opened config administrator password assignment_uuid a
    email_content out log faults g :
  administrator_email config = Some administrator →
  administrator_email_password config = Some password →
  no_fault (take 3 faults) →
  send_assignment_emails assignment_uuid a config email_content
                         (World out log faults g)
  = try_finally
      (try_except
         (send_all assignment_uuid a config email_content administrator)
         (λ e, _ ← print (ExceptionText e); fail SendFailed))
      (smtp SMTP_quit)
      (World out (log ++ (Done <$> session_setup administrator password))
             (drop 3 faults) g).
Proof.
  intros Hadmin Hpw Hfaults.
  unfold send_assignment_emails, config_administrator_email,
    config_administrator_password.
  rewrite Hadmin, Hpw, !of_result_Ok_bind.
  change (World out log faults g) with (World out log (drop 0 faults) g).
  do 3 (erewrite W_bind_Returned; [|by apply (smtp_Done_at 3); [done|lia]]).
  by rewrite <- !app_assoc.
Qed.

Lemma no_fault_take_S_r n faults :
  no_fault (take n faults) → (∀ text, faults !! n ≠ Some (Some text)) →
  no_fault (take (S n) faults).
Proof.
  revert faults. induction n as [|n IH]; intros [|fault faults] Hn Hlast;
    simpl in *; try by constructor.
  - destruct fault as [text|]; [by destruct (Hlast text)|].
    repeat constructor.
  - apply Forall_cons in Hn as [-> Hn]. constructor; [done|]. by apply IH.
Qed.

Lemma no_fault_take_add n m faults :
  no_fault (take n faults) → no_fault (take m (drop n faults)) →
  no_fault (take (n + m) faults).
Proof.
  revert faults. induction n as [|n IH]; intros faults Hn Hm; [exact Hm|].
  destruct faults as [|fault faults]; [rewrite take_nil; constructor|].
  simpl in *. apply Forall_cons in Hn as [-> Hn].
  constructor; [done|]. by apply IH.
Qed.

(** A call either goes through or raises. *)
Lemma smtp_outcome call w :
  (∃ w', smtp call w = (Returned (), w'))
  ∨ (∃ text w', smtp call w = (Failed (SMTPError text), w')).
Proof.
  unfold smtp. destruct (smtp_faults w) as [|[text|] faults].
  - left. by eexists.
  - right. by eexists _, _.
  - left. by eexists.
Qed.

Lemma send_loop_fails config reg administrator subject email_content
    items acc out log faults g :
  participants config = Some reg → known reg items →
  ¬ no_fault (take (length items) faults) →
  ∃ text w',
    send_loop items config administrator subject email_content acc
              (World out log faults g)
    = (Failed (SMTPError text), w').
Proof.
  intros Hreg Hknown. revert acc out log faults.
  induction Hknown as [|[giver getter] items [Hgiver Hgetter] _ IH];
    intros acc out log faults Hfaults.
  - destruct Hfaults. simpl. constructor.
  - simpl.
    rewrite (participant_name_known config reg giver),
      (participant_name_known config reg getter),
      (participant_email_known config reg giver) by done.
    simpl. unfold mbind at 1 2 3, W_bind, W_then. simpl.
    destruct faults as [|[text|] faults].
    + destruct Hfaults. simpl. constructor.
    + unfold mbind at 1, W_bind, W_then, smtp. simpl. by eexists _, _.
    + unfold mbind at 1 2, W_bind, W_then, smtp, print. simpl.
      apply IH. intros Hrest. apply Hfaults. simpl. by constructor.
Qed.

Lemma send_all_fails config reg administrator assignment_uuid email_content
    a out log faults g :
  participants config = Some reg → known reg a →
  ¬ no_fault (take (S (length a)) faults) →
  ∃ text w',
    send_all assignment_uuid a config email_content administrator
             (World out log faults g)
    = (Failed (SMTPError text), w').
Proof.
  intros Hreg Hknown Hfaults. unfold send_all.
  destruct (decide (Forall (λ fault, fault = None) (take (length a) faults)))
    as [Hloop|Hloop].
  - erewrite W_bind_Returned; [|by apply (send_loop_run config reg)].
    destruct (faults !! length a) as [[text|]|] eqn:Hlast.
    + erewrite W_bind_Failed; [by eexists _, _|].
      apply smtp_Refused. by rewrite head_drop.
    + destruct Hfaults. apply no_fault_take_S_r; [done|]. by rewrite Hlast.
    + destruct Hfaults. apply no_fault_take_S_r; [done|]. by rewrite Hlast.
  - destruct (send_loop_fails config reg administrator
                (alert_subject assignment_uuid) email_content a Dict.empty
                out log faults g Hreg Hknown Hloop) as (text & w' & Hrun).
    erewrite W_bind_Failed; [|done]. by eexists _, _.
Qed.

(** The three opening calls, when one of them raises. *)
Lemma session_fails config administrator password assignment_uuid a
    email_content out log faults g :
  administrator_email config = Some administrator →
  administrator_email_password config = Some password →
  ¬ no_fault (take 3 faults) →
  ∃ text w',
    send_assignment_emails assignment_uuid a config email_content
                           (World out log faults g)
    = (Failed (SMTPError text), w').
Proof.
  intros Hadmin Hpw Hfaults.
  unfold send_assignment_emails, config_administrator_email,
    config_administrator_password.
  rewrite Hadmin, Hpw, !of_result_Ok_bind.
  destruct faults as [|[t1|] [|[t2|] [|[t3|] faults]]];
    try (destruct Hfaults; simpl; by repeat constructor);
    unfold mbind, W_bind, W_then, smtp; simpl; by eexists _, _.
Qed.

(** When one of its calls raises, [send_assignment_emails] ends in the
    exception of an opening call or of [quit], or in the generic one. *)
Lemma send_assignment_emails_fails config reg administrator password
    assignment_uuid email_content a out log faults g :
  administrator_email config = Some administrator →
  administrator_email_password config = Some password →
  participants config = Some reg → known reg a →
  ¬ no_fault (take (length a + 5) faults) →
  ∃ f w',
    send_assignment_emails assignment_uuid a config email_content
                           (World out log faults g)
    = (Failed f, w')
    ∧ (f = SendFailed ∨ ∃ text, f = SMTPError text).
Proof.
  intros Hadmin Hpw Hreg Hknown Hfaults.
  destruct (decide (Forall (λ fault, fault = None) (take 3 faults)))
    as [Hopen|Hopen].
  2:{ destruct (session_fails config administrator password assignment_uuid a
                  email_content out log faults g Hadmin Hpw Hopen)
        as (text & w' & Hrun).
      exists (SMTPError text), w'. split; [done|]. right. by exists text. }
  rewrite (session_opened config administrator password) by done.
  unfold try_finally, try_except.
  destruct (decide (Forall (λ fault, fault = None)
                           (take (S (length a)) (drop 3 faults))))
    as [Hmails|Hmails].
  - rewrite (send_all_run config reg) by done.
    rewrite drop_drop.
    destruct (faults !! (3 + S (length a))) as [[text|]|] eqn:Hquit.
    + rewrite (smtp_Refused_at _ _ _ _ _ _ text) by done.
      eexists _, _. split; [done|]. right. by exists text.
    + destruct Hfaults.
      replace (length a + 5) with (S (3 + S (length a))) by lia.
      apply no_fault_take_S_r; [|by rewrite Hquit].
      by apply no_fault_take_add.
    + destruct Hfaults.
      replace (length a + 5) with (S (3 + S (length a))) by lia.
      apply no_fault_take_S_r; [|by rewrite Hquit].
      by apply no_fault_take_add.
  - destruct (send_all_fails config reg administrator assignment_uuid
                email_content a out
                (log ++ (Done <$> session_setup administrator password))
                (drop 3 faults) g Hreg Hknown Hmails) as (text & w1 & Hrun).
    rewrite Hrun. simpl.
    unfold mbind, W_bind, W_then, print, fail. simpl.
    destruct (smtp_outcome SMTP_quit
                (World (stdout w1 ++ [ExceptionText (SMTPError text)])
                       (smtp_log w1) (smtp_faults w1) (generator w1)))
      as [[w2 Hquit]|(text' & w2 & Hquit)]; rewrite Hquit.
    + eexists _, _. split; [done|]. by left.
    + eexists _, _. split; [done|]. right. by exists text'.
Qed.

(** When none of its calls raises, [send_assignment_emails] makes them all. *)
Lemma send_assignment_emails_run config reg administrator password
    assignment_uuid email_content a out log faults g :
  administrator_email config = Some administrator →
  administrator_email_password config = Some password →
  participants config = Some reg → known reg a →
  no_fault (take (length a + 5) faults) →
  send_assignment_emails assignment_uuid a config email_content
                         (World out log faults g)
  = (Returned (),
     World (out ++ (sent_line reg <$> a)
                ++ [Text ("Sent all assignments to " +:+ administrator +:+ ".")])
           (log ++ (Done <$> session_setup administrator password)
                ++ (Done <$> (mail_to reg administrator assignment_uuid
                                      email_content <$> a))
                ++ [Done (summary_mail reg administrator assignment_uuid a);
                    Done SMTP_quit])
           (drop (length a + 5) faults) g).
Proof.
  intros Hadmin Hpw Hreg Hknown Hfaults.
  rewrite (session_opened config administrator password) by
    (done || by apply (no_fault_take_le _ (length a + 5)); [lia|]).
  unfold try_finally, try_except.
  rewrite (send_all_run config reg); [|done..|]; last first.
  { apply no_fault_drop. by apply (no_fault_take_le _ (length a + 5)); [lia|]. }
  rewrite drop_drop.
  rewrite (smtp_Done_at (length a + 5) (3 + S (length a))); [|done|lia].
  rewrite <- !app_assoc. simpl.
  by replace (S (S (S (S (S (length a)))))) with (length a + 5) by lia.
Qed.

(** X10. With both administrator fields in the configuration and every id
    of the assignment in the registry, [send_assignment_emails] returns
    exactly when none of its [len(assignments) + 5] calls to [smtplib]
    raises, be it by a refusal of the server or by [smtplib] itself (as
    [sendmail] does for a message that is not ASCII).  It has then made
    exactly these calls, in this order: connect to smtp.gmail.com:587,
    starttls, login with the two administrator fields, one [sendmail] per
    giver in the order of the assignment (from the administrator, to the
    giver's address, naming the giver's receiver), one [sendmail] of the
    summary from the administrator to the administrator, and quit; and it
    has printed one line per mail.  When one of the calls raises, it ends in
    the exception of that call (an opening call or quit) or in the generic
    "Failed to send all e-mails successfully.". *)
Theorem send_assignment_emails_sends_every_assignment config reg administrator
    password assignment_uuid email_content a out log faults g :
  administrator_email config = Some administrator →
  administrator_email_password config = Some password →
  participants config = Some reg → known reg a →
  (no_fault (take (length a + 5) faults) →
   send_assignment_emails assignment_uuid a config email_content
                          (World out log faults g)
   = (Returned (),
      World (out ++ (sent_line reg <$> a)
                 ++ [Text ("Sent all assignments to " +:+ administrator +:+ ".")])
            (log ++ (Done <$> session_setup administrator password)
                 ++ (Done <$> (mail_to reg administrator assignment_uuid
                                       email_content <$> a))
                 ++ [Done (summary_mail reg administrator assignment_uuid a);
                     Done SMTP_quit])
            (drop (length a + 5) faults) g))
  ∧ (¬ no_fault (take (length a + 5) faults) →
     ∃ f w',
       send_assignment_emails assignment_uuid a config email_content
                              (World out log faults g)
       = (Failed f, w')
       ∧ (f = SendFailed ∨ ∃ text, f = SMTPError text)).
Proof.
  intros Hadmin Hpw Hreg Hknown. split; intros Hfaults.
  - by apply send_assignment_emails_run.
  - by eapply send_assignment_emails_fails.
Qed.

Lemma send_assignment_emails_sends_every_assignment_witness :
  send_assignment_emails "21f7d68" example_assignment example_config None
                         (World [] [] [] [])
  = (Returned (),
     World [Text "Sent assignment to ann@example.org.";
            Text "Sent assignment to cy@example.org.";
            Text "Sent assignment to bob@example.org.";
            Text "Sent all assignments to administrator@gmail.com."]
           (Done <$> session_setup "administrator@gmail.com" "secret"
                ++ (mail_to example_registry "administrator@gmail.com"
                            "21f7d68" None <$> example_assignment)
                ++ [summary_mail example_registry "administrator@gmail.com"
                                 "21f7d68" example_assignment;
                    SMTP_quit])
           [] [])
  ∧ ∃ f w',
      send_assignment_emails "21f7d68" example_assignment example_config None
        (World [] [] [None; None; None; None; Some "ordinal not in range(128)"]
               [])
      = (Failed f, w')
      ∧ (f = SendFailed ∨ ∃ text, f = SMTPError text).
Proof.
  split.
  - apply (send_assignment_emails_sends_every_assignment example_config
             example_registry "administrator@gmail.com" "secret" "21f7d68"
             None example_assignment [] [] [] []).
    + reflexivity.
    + reflexivity.
    + reflexivity.
    + apply (bool_decide_unpack _). vm_compute. exact I.
    + vm_compute. constructor.
  - apply (send_assignment_emails_sends_every_assignment example_config
             example_registry "administrator@gmail.com" "secret" "21f7d68"
             None example_assignment [] []
             [None; None; None; None; Some "ordinal not in range(128)"] []).
    + reflexivity.
    + reflexivity.
    + reflexivity.
    + apply (bool_decide_unpack _). vm_compute. exact I.
    + intros Hnone. apply (bool_decide_pack _) in Hnone.
      vm_compute in Hnone. exact Hnone.
Defined.

(** X11. When the server refuses the mail of one giver (after accepting
    those of the givers before), [send_assignment_emails] stops sending: the
    earlier givers keep their mails, no later giver and not the
    administrator is mailed, the server's exception is printed and replaced
    by the generic "Failed to send all e-mails successfully.", and the
    session is still closed with quit. *)
Theorem refused_mail_stops_the_sending config reg administrator password
    assignment_uuid email_content pre entry post out log faults g text :
  administrator_email config = Some administrator →
  administrator_email_password config = Some password →
  participants config = Some reg → known reg (pre ++ [entry]) →
  no_fault (take (length pre + 3) faults) →
  faults !! (length pre + 3) = Some (Some text) →
  (∀ text', faults !! (length pre + 4) ≠ Some (Some text')) →
  send_assignment_emails assignment_uuid (pre ++ entry :: post) config
                         email_content (World out log faults g)
  = (Failed SendFailed,
     World (out ++ (sent_line reg <$> pre) ++ [ExceptionText (SMTPError text)])
           (log ++ (Done <$> session_setup administrator password)
                ++ (Done <$> (mail_to reg administrator assignment_uuid
                                      email_content <$> pre))
                ++ [Refused (mail_to reg administrator assignment_uuid
                                     email_content entry) text;
                    Done SMTP_quit])
           (drop (length pre + 5) faults) g).
Proof.
  intros Hadmin Hpw Hreg Hknown Hfaults Hk Hquit.
  rewrite (session_opened config administrator password) by
    (done || by apply (no_fault_take_le _ (length pre + 3)); [lia|]).
  unfold try_finally, try_except.
  rewrite (send_all_refused config reg _ _ _ _ _ _ _ _ _ _ text);
    [|done..| |]; last first.
  { rewrite lookup_drop.
    by replace (3 + length pre) with (length pre + 3) by lia. }
  { apply no_fault_drop.
    by apply (no_fault_take_le _ (length pre + 3)); [lia|]. }
  simpl. unfold mbind, W_bind, W_then, print, fail. simpl.
  rewrite drop_drop, smtp_Done.
  - rewrite tail_drop, <- !app_assoc. simpl.
    by replace (S (S (S (S (S (length pre)))))) with (length pre + 5) by lia.
  - intros text'. rewrite head_drop.
    replace (3 + S (length pre)) with (length pre + 4) by lia. apply Hquit.
Qed.

Lemma refused_mail_stops_the_sending_witness :
  send_assignment_emails "21f7d68" example_assignment example_config None
    (World [] [] [None; None; None; None; Some "550 rejected"] [])
  = (Failed SendFailed,
     World [Text "Sent assignment to ann@example.org.";
            ExceptionText (SMTPError "550 rejected")]
           ((Done <$> session_setup "administrator@gmail.com" "secret")
              ++ [Done (mail_to example_registry "administrator@gmail.com"
                                "21f7d68" None ("a", "c"));
                  Refused (mail_to example_registry "administrator@gmail.com"
                                   "21f7d68" None ("c", "b")) "550 rejected";
                  Done SMTP_quit])
           [] []).
Proof.
  apply (refused_mail_stops_the_sending example_config example_registry
           "administrator@gmail.com" "secret" "21f7d68" None
           [("a", "c")] ("c", "b") [("b", "a")] [] []
           [None; None; None; None; Some "550 rejected"] [] "550 rejected").
  - reflexivity.
  - reflexivity.
  - reflexivity.
  - apply (bool_decide_unpack _). vm_compute. exact I.
  - apply (bool_decide_unpack _). vm_compute. exact I.
  - reflexivity.
  - intros text'. simpl. discriminate.
Defined.

(** X12. When the server refuses one of the three opening calls (connect,
    starttls, login), its exception leaves [send_assignment_emails]
    unchanged: nothing is printed, no mail is sent, and the session is not
    closed, since the calls stand before the [try]. *)
Theorem refused_session_is_not_closed config administrator password
    assignment_uuid email_content a out log faults g k call text :
  administrator_email config = Some administrator →
  administrator_email_password config = Some password →
  session_setup administrator password !! k = Some call →
  no_fault (take k faults) →
  faults !! k = Some (Some text) →
  send_assignment_emails assignment_uuid a config email_content
                         (World out log faults g)
  = (Failed (SMTPError text),
     World out
           (log ++ (Done <$> take k (session_setup administrator password))
                ++ [Refused call text])
           (drop (S k) faults) g).
Proof.
  intros Hadmin Hpw Hcall Hfaults Hk.
  unfold send_assignment_emails, config_administrator_email,
    config_administrator_password.
  rewrite Hadmin, Hpw, !of_result_Ok_bind.
  change (World out log faults g) with (World out log (drop 0 faults) g).
  destruct k as [|[|[|k]]]; simplify_eq/=.
  - erewrite W_bind_Failed; [done|]. by apply (smtp_Refused_at 0).
  - erewrite W_bind_Returned; [|by apply (smtp_Done_at 1); [done|lia]].
    erewrite W_bind_Failed; [|by apply (smtp_Refused_at 1)].
    by rewrite <- !app_assoc.
  - do 2 (erewrite W_bind_Returned; [|by apply (smtp_Done_at 2); [done|lia]]).
    erewrite W_bind_Failed; [|by apply (smtp_Refused_at 2)].
    by rewrite <- !app_assoc.
Qed.

Lemma refused_session_is_not_closed_witness :
  send_assignment_emails "21f7d68" example_assignment example_config None
    (World [] [] [None; Some "STARTTLS not supported"] [])
  = (Failed (SMTPError "STARTTLS not supported"),
     World [] [Done (SMTP_connect "smtp.gmail.com" 587);
               Refused SMTP_starttls "STARTTLS not supported"] [] []).
Proof.
  apply (refused_session_is_not_closed example_config
           "administrator@gmail.com" "secret" "21f7d68" None
           example_assignment [] [] [None; Some "STARTTLS not supported"] []
           1 SMTP_starttls "STARTTLS not supported").
  - reflexivity.
  - reflexivity.
  - reflexivity.
  - apply (bool_decide_unpack _). vm_compute. exact I.
  - reflexivity.
Defined.

(** ** The summary and the recipients *)

Lemma string_app_assoc (s1 s2 s3 : string) :
  (s1 +:+ s2) +:+ s3 = s1 +:+ s2 +:+ s3.
Proof.
  induction s1 as [|c s1 IH]; [done|]. exact (f_equal (String c) IH).
Qed.

Lemma string_app_empty_r (s : string) : s +:+ "" = s.
Proof. induction s as [|c s IH]; [done|]. exact (f_equal (String c) IH). Qed.

Lemma administrator_content_spec items content :
  administrator_content items content
  = content +:+ foldr String.append ""
                  ((λ entry, will_give_to entry.1 entry.2 +:+ CRLF) <$> items).
Proof.
  revert content. induction items as [|[giver getter] items IH]; intros content.
  - simpl. by rewrite string_app_empty_r.
  - simpl. rewrite IH. by rewrite !string_app_assoc.
Qed.

Lemma dict_set_keys {V} (d : Dict.t V) k v :
  Dict.keys (Dict.set d k v)
  = if decide (k ∈ Dict.keys d) then Dict.keys d else Dict.keys d ++ [k].
Proof.
  induction d as [|[k' v'] d IH]; [done|]. simpl.
  destruct (decide (k' = k)) as [->|Hne].
  - rewrite decide_True by left. done.
  - change (Dict.keys ((k', v') :: Dict.set d k v))
      with (k' :: Dict.keys (Dict.set d k v)).
    rewrite IH. change (Dict.keys ((k', v') :: d)) with (k' :: Dict.keys d).
    destruct (decide (k ∈ Dict.keys d)) as [Hin|Hnin].
    + by rewrite decide_True by (by right).
    + rewrite decide_False; [done|]. intros [?|?]%elem_of_cons; by simplify_eq.
Qed.

Lemma by_name_fresh reg a acc :
  NoDup (display_name reg <$> a.*1) →
  (∀ n, n ∈ display_name reg <$> a.*1 → n ∉ Dict.keys acc) →
  by_name reg a acc = acc ++ (names_pair reg <$> a).
Proof.
  revert acc. induction a as [|[giver getter] a IH]; intros acc Hnodup Hfresh.
  - simpl. by rewrite app_nil_r.
  - simpl in *. apply NoDup_cons in Hnodup as [Hhead Hnodup].
    unfold by_name in *. simpl. rewrite dict_set_new by (apply Hfresh; left).
    rewrite IH; [by rewrite <- app_assoc|done|].
    intros n Hn. unfold Dict.keys. rewrite fmap_app. simpl.
    intros [Hold|Hnew%list_elem_of_singleton]%elem_of_app.
    + by apply (Hfresh n); [right|].
    + by subst n.
Qed.

Lemma by_name_length reg a acc :
  length (by_name reg a acc) ≤ length acc + length a.
Proof.
  revert acc. induction a as [|[giver getter] a IH]; intros acc; simpl.
  - unfold by_name. simpl. lia.
  - unfold by_name in *. simpl. etrans; [apply IH|].
    assert (length (Dict.keys (Dict.set acc (display_name reg giver)
                                        (display_name reg getter)))
            ≤ S (length acc)) as Hset.
    { rewrite dict_set_keys. case_decide; unfold Dict.keys;
        rewrite ?length_app, !length_fmap; simpl; lia. }
    unfold Dict.keys in Hset. rewrite length_fmap in Hset. lia.
Qed.

Lemma by_name_merges reg a acc :
  (∃ n, n ∈ display_name reg <$> a.*1 ∧ n ∈ Dict.keys acc)
  ∨ ¬ NoDup (display_name reg <$> a.*1) →
  length (by_name reg a acc) < length acc + length a.
Proof.
  revert acc. induction a as [|[giver getter] a IH]; intros acc Hdup.
  - destruct Hdup as [(n & Hn & _)|Hdup].
    + by apply elem_of_nil in Hn.
    + destruct Hdup. constructor.
  - change (by_name reg ((giver, getter) :: a) acc)
      with (by_name reg a (Dict.set acc (display_name reg giver)
                                    (display_name reg getter))).
    pose proof (dict_set_keys acc (display_name reg giver)
                  (display_name reg getter)) as Hkeys.
    destruct (decide (display_name reg giver ∈ Dict.keys acc)) as [Hin|Hnin].
    + pose proof (by_name_length reg a
                    (Dict.set acc (display_name reg giver)
                              (display_name reg getter))) as Hlen.
      apply (f_equal length) in Hkeys. unfold Dict.keys in Hkeys.
      rewrite !length_fmap in Hkeys. simpl. lia.
    + assert (length (Dict.set acc (display_name reg giver)
                               (display_name reg getter)) = S (length acc))
        as Hlen.
      { rewrite dict_set_new by done. rewrite length_app. simpl. lia. }
      simpl. rewrite <- Nat.add_succ_comm, <- Hlen. apply IH.
      simpl in Hdup. destruct Hdup as [(n & Hn & Hacc)|Hdup].
      * apply elem_of_cons in Hn as [->|Hn]; [done|].
        left. exists n. split; [done|]. rewrite Hkeys.
        apply elem_of_app. by left.
      * destruct (decide (display_name reg giver ∈ display_name reg <$> a.*1))
          as [Hhead|Hhead].
        -- left. exists (display_name reg giver). split; [done|].
           rewrite Hkeys. apply elem_of_app. right. by left.
        -- right. intros Hnodup. apply Hdup. by constructor.
Qed.

Lemma recipients_of_mails reg administrator assignment_uuid email_content
    (a : assignment) :
  omap recipient
       (Done <$> (mail_to reg administrator assignment_uuid email_content <$> a))
  = address reg <$> a.*1.
Proof.
  induction a as [|entry a IH]; [done|].
  simpl. f_equal. exact IH.
Qed.

(** X13. When the givers' names are pairwise different, the summary that the
    sending loop's name dictionary yields has, under its subject line, one
    line "<giver's name> will give to <receiver's name>." per entry of the
    assignment, in the order of the assignment, each ended by CR LF. *)
Theorem summary_lists_every_pair config reg administrator assignment_uuid
    email_content a out log faults g :
  participants config = Some reg → known reg a →
  no_fault (take (length a) faults) →
  NoDup (display_name reg <$> a.*1) →
  ∃ assignments_by_name w',
    send_loop a config administrator (alert_subject assignment_uuid)
              email_content Dict.empty (World out log faults g)
    = (Returned assignments_by_name, w')
    ∧ generate_administrator_email_message assignment_uuid assignments_by_name
                                           administrator
      = subject_and_content
          ("Secret Santa Assignments (" +:+ assignment_uuid +:+ ")")
          (foldr String.append "" (summary_line reg <$> a)).
Proof.
  intros Hreg Hknown Hfaults Hnodup. eexists _, _. split.
  { by apply (send_loop_run config reg). }
  unfold generate_administrator_email_message.
  rewrite administrator_content_spec, by_name_fresh; [|done|].
  - simpl. by rewrite <- list_fmap_compose.
  - intros n _. apply not_elem_of_nil.
Qed.

Lemma summary_lists_every_pair_witness :
  ∃ assignments_by_name w',
    send_loop example_assignment example_config "administrator@gmail.com"
              (alert_subject "21f7d68") None Dict.empty (World [] [] [] [])
    = (Returned assignments_by_name, w')
    ∧ generate_administrator_email_message "21f7d68" assignments_by_name
                                           "administrator@gmail.com"
      = "Subject: Secret Santa Assignments (21f7d68)" +:+ LF +:+ LF
        +:+ "Ann will give to Cy." +:+ CRLF
        +:+ "Cy will give to Bob." +:+ CRLF
        +:+ "Bob will give to Ann." +:+ CRLF.
Proof.
  apply (summary_lists_every_pair example_config example_registry
           "administrator@gmail.com" "21f7d68" None example_assignment
           [] [] [] []).
  - reflexivity.
  - apply (bool_decide_unpack _). vm_compute. exact I.
  - vm_compute. constructor.
  - apply (bool_decide_unpack _). vm_compute. exact I.
Defined.

(** X14. When two givers have the same name, the name dictionary that the
    sending loop builds for the administrator's summary has fewer entries
    than the assignment: a later giver overwrites the earlier one of the
    same name, although each of them has been mailed. *)
Theorem namesakes_are_merged_in_the_summary config reg administrator
    assignment_uuid email_content a out log faults g :
  participants config = Some reg → known reg a →
  no_fault (take (length a) faults) →
  ¬ NoDup (display_name reg <$> a.*1) →
  ∃ assignments_by_name w',
    send_loop a config administrator (alert_subject assignment_uuid)
              email_content Dict.empty (World out log faults g)
    = (Returned assignments_by_name, w')
    ∧ length assignments_by_name < length a
    ∧ length (omap recipient (drop (length log) (smtp_log w'))) = length a.
Proof.
  intros Hreg Hknown Hfaults Hdup. eexists _, _. split.
  { by apply (send_loop_run config reg). }
  split.
  - apply (by_name_merges reg a []). by right.
  - simpl. rewrite drop_app_length, recipients_of_mails.
    by rewrite !length_fmap.
Qed.

Lemma namesakes_are_merged_in_the_summary_witness :
  ∃ assignments_by_name w',
    send_loop [("a", "b"); ("b", "a")] namesake_config
              "administrator@gmail.com" (alert_subject "21f7d68") None
              Dict.empty (World [] [] [] [])
    = (Returned assignments_by_name, w')
    ∧ length assignments_by_name < 2
    ∧ length (omap recipient (drop 0 (smtp_log w'))) = 2.
Proof.
  apply (namesakes_are_merged_in_the_summary namesake_config namesake_registry
           "administrator@gmail.com" "21f7d68" None [("a", "b"); ("b", "a")]
           [] [] [] []).
  - reflexivity.
  - apply (bool_decide_unpack _). vm_compute. exact I.
  - vm_compute. constructor.
  - apply (bool_decide_unpack _). vm_compute. exact I.
Defined.

Lemma address_keys_values reg :
  Dict.wf reg → address reg <$> Dict.keys reg = email <$> Dict.values reg.
Proof.
  intros Hwf. unfold Dict.keys, Dict.values. rewrite <- !list_fmap_compose.
  apply Forall_fmap_ext_1.
  apply Forall_forall. intros [k data] Hin. simpl. unfold address.
  by rewrite (dict_elem_of_get reg k data).
Qed.

(** X15. For an assignment that is a bijection on the participant ids, and
    when none of the [sendmail] calls of the loop raises, the sending loop
    mails every participant exactly once: the addresses it sends to are, up
    to order, the addresses of the registry. *)
Theorem every_participant_is_mailed_once config reg administrator
    assignment_uuid email_content a out faults g :
  participants config = Some reg → Dict.wf reg → valid_assignment reg a →
  no_fault (take (length a) faults) →
  ∃ assignments_by_name w',
    send_loop a config administrator (alert_subject assignment_uuid)
              email_content Dict.empty (World out [] faults g)
    = (Returned assignments_by_name, w')
    ∧ omap recipient (smtp_log w') ≡ₚ email <$> Dict.values reg.
Proof.
  intros Hreg Hwf Hvalid Hfaults. eexists _, _. split.
  { apply (send_loop_run config reg); [done| |done].
    by apply valid_assignment_known. }
  simpl. rewrite recipients_of_mails, <- address_keys_values by done.
  destruct Hvalid as (Hkeys & _). by rewrite <- Hkeys.
Qed.

Lemma every_participant_is_mailed_once_witness :
  ∃ assignments_by_name w',
    send_loop example_assignment example_config "administrator@gmail.com"
              (alert_subject "21f7d68") None Dict.empty (World [] [] [] [])
    = (Returned assignments_by_name, w')
    ∧ omap recipient (smtp_log w')
      ≡ₚ ["ann@example.org"; "bob@example.org"; "cy@example.org"].
Proof.
  apply (every_participant_is_mailed_once example_config example_registry
           "administrator@gmail.com" "21f7d68" None example_assignment
           [] [] []).
  - reflexivity.
  - unfold Dict.wf. apply (bool_decide_unpack _). vm_compute. exact I.
  - apply single_attempt_valid.
    + split.
      * unfold Dict.wf. apply (bool_decide_unpack _). vm_compute. exact I.
      * apply (bool_decide_unpack _). vm_compute. exact I.
    + apply (get_assignments_Some example_config example_registry
               [1; 1; 0; 1; 0] _ []); [reflexivity|].
      vm_compute. reflexivity.
  - vm_compute. constructor.
Defined.

(** ** The program as a whole *)

Lemma parse_config_file_fields contents config :
  parse_config_file contents = Ok config →
  is_Some (administrator_email config)
  ∧ is_Some (administrator_email_password config).
Proof.
  unfold parse_config_file.
  destruct (parse_lines 0 _ _) as [st|] eqn:Hlines; [|done]. simpl.
  by intros (-> & reg & _ & _ & Hadmin & Hpw)%check_config_Ok.
Qed.

(** The program from the opening of the configuration file to the end of
    the retry loop, for any continuation [rest]. *)
Lemma program_start fs file out log faults g :
  ∃ (r : outcome (config * option assignment)) g',
    (∀ B (rest : config → option assignment → W B),
        (contents ← open_file fs file;
         config ← of_result (parse_config_file contents);
         assignments ←
           run_random (assign_with_retries (MAX_ASSIGNMENT_ATTEMPTS + 2)
                                           MAX_ASSIGNMENT_ATTEMPTS config);
         rest config assignments) (World out log faults g)
        = match r with
          | Returned (config, assignments) =>
              rest config assignments (World out log faults g')
          | Failed f => (Failed f, World out log faults g')
          end)
    ∧ ((fs file = None ∧ r = Failed (OSError file) ∧ g' = g)
       ∨ ∃ contents, fs file = Some contents
           ∧ ((∃ e, parse_config_file contents = Raise e
                    ∧ r = Failed (Uncaught e) ∧ g' = g)
              ∨ (∃ config, parse_config_file contents = Ok config
                    ∧ r = Failed (Uncaught (AssignmentInfeasible 4)))
              ∨ (∃ config reg a,
                    parse_config_file contents = Ok config
                    ∧ participants config = Some reg
                    ∧ valid_assignment reg a
                    ∧ r = Returned (config, Some a)))).
Proof.
  unfold open_file. destruct (fs file) as [contents|] eqn:Hfile.
  - destruct (parse_config_file contents) as [config|e] eqn:Hparse.
    + destruct (parse_config_file_Ok _ _ Hparse) as (reg & Hreg & _ & Hinv).
      destruct (assign_with_retries_outcome config reg g Hreg)
        as (r & g' & Hrun & Hr).
      destruct Hr as [-> | (a & -> & _ & Ha)].
      * exists (Failed (Uncaught (AssignmentInfeasible 4))), g'. split.
        { intros B rest.
          unfold mbind, W_bind, W_then, mret, W_ret, W_unit. cbv beta iota.
          rewrite Hparse. unfold of_result, mret, W_ret, W_unit, run_random.
          cbv beta iota. unfold generator at 1. by rewrite Hrun. }
        right. exists contents. split; [done|]. right. left. by exists config.
      * exists (Returned (config, Some a)), g'. split.
        { intros B rest.
          unfold mbind, W_bind, W_then, mret, W_ret, W_unit. cbv beta iota.
          rewrite Hparse. unfold of_result, mret, W_ret, W_unit, run_random.
          cbv beta iota. unfold generator at 1. by rewrite Hrun. }
        right. exists contents. split; [done|].
        right. right. exists config, reg, a. split_and!; [done..| |done].
        by apply single_attempt_valid.
    + exists (Failed (Uncaught e)), g. split.
      { intros B rest.
        unfold mbind, W_bind, W_then, mret, W_ret, W_unit. cbv beta iota.
        by rewrite Hparse. }
      right. exists contents. split; [done|]. left. by exists e.
  - exists (Failed (OSError file)), g. split; [done|]. by left.
Qed.

Lemma program_invoked fs entropy argv inv w :
  read_arguments argv w = (Returned inv, w) →
  program fs entropy argv w
  = (contents ← open_file fs (config_filename inv);
     config ← of_result (parse_config_file contents);
     assignments ←
       run_random (assign_with_retries (MAX_ASSIGNMENT_ATTEMPTS + 2)
                                       MAX_ASSIGNMENT_ATTEMPTS config);
     match assignments with
     | None => mret None
     | Some assignments =>
         let assignment_uuid := assignment_uuid entropy in
         if should_send_email inv then
           email_content ← get_email_content fs (email_content_filename inv);
           _ ← send_assignment_emails assignment_uuid assignments config
                                      email_content;
           mret (Some ())
         else
           _ ← pretty_print_assignments assignment_uuid assignments config;
           mret (Some ())
     end) w.
Proof.
  intros Hread. unfold program. unfold mbind at 1, W_bind at 1, W_then at 1.
  by rewrite Hread.
Qed.

(** X16. Called with a number of arguments other than one or two, the script
    prints the two usage texts, naming the program as it was called, and
    exits with status 1; it opens no file, draws no random number and does
    not contact the server. *)
Theorem wrong_argument_count_exits_with_1 fs entropy prog rest w :
  length rest ≠ 1 → length rest ≠ 2 →
  program fs entropy (prog :: rest) w
  = (Failed (SystemExit 1),
     World (stdout w ++ [Text (usage_send prog); Text (usage_print prog)])
           (smtp_log w) (smtp_faults w) (generator w)).
Proof.
  intros H1 H2. destruct rest as [|a1 [|a2 [|a3 rest]]]; simplify_eq/=;
    unfold program, mbind, W_bind, W_then, print; simpl;
    by rewrite <- app_assoc.
Qed.

Lemma wrong_argument_count_exits_with_1_witness :
  program example_files example_entropy ["secret_santa.py"] (World [] [] [] [])
  = (Failed (SystemExit 1),
     World [Text (usage_send "secret_santa.py");
            Text (usage_print "secret_santa.py")] [] [] []).
Proof.
  apply (wrong_argument_count_exits_with_1 example_files example_entropy
           "secret_santa.py" [] (World [] [] [] [])).
  - simpl. lia.
  - simpl. lia.
Defined.

(** X17. With [-p] the script never contacts the server, and it ends in one
    of four ways: [OSError] for a configuration file that cannot be opened;
    the exception of [parse_config_file]; the infeasibility error carrying 4
    attempts (nothing is printed in these three); or it returns after
    printing the identifier and, for every giver of an assignment that is a
    bijection on the participant ids and respects every exclusion, one line
    with the names of the giver and the receiver. *)
Theorem print_mode_outcomes fs entropy prog file out log faults g :
  ∃ r w',
    program fs entropy [prog; "-p"; file] (World out log faults g) = (r, w')
    ∧ smtp_log w' = log ∧ smtp_faults w' = faults
    ∧ ((fs file = None ∧ r = Failed (OSError file)
        ∧ stdout w' = out ∧ generator w' = g)
       ∨ ∃ contents, fs file = Some contents
           ∧ ((∃ e, parse_config_file contents = Raise e
                    ∧ r = Failed (Uncaught e)
                    ∧ stdout w' = out ∧ generator w' = g)
              ∨ (∃ config, parse_config_file contents = Ok config
                    ∧ r = Failed (Uncaught (AssignmentInfeasible 4))
                    ∧ stdout w' = out)
              ∨ (∃ config reg a,
                    parse_config_file contents = Ok config
                    ∧ participants config = Some reg
                    ∧ valid_assignment reg a
                    ∧ r = Returned (Some ())
                    ∧ stdout w'
                      = out ++ Text ("Assignment Id: "
                                     +:+ assignment_uuid entropy)
                               :: (printed_pair reg <$> a)))).
Proof.
  rewrite (program_invoked _ _ _ (Invocation file false None)) by done.
  destruct (program_start fs file out log faults g)
    as (r & g' & Hrest & Hcases).
  cbn [config_filename should_send_email email_content_filename].
  rewrite Hrest. clear Hrest.
  destruct Hcases as [(Hfile & -> & ->)
    | (contents & Hfile & [(e & Hparse & -> & ->)
         | [(config & Hparse & ->) | (config & reg & a & Hparse & Hreg & Ha & ->)]])].
  - eexists _, _. split; [done|]. split_and!; [done..|]. by left.
  - eexists _, _. split; [done|]. split_and!; [done..|]. right.
    exists contents. split; [done|]. left. by exists e.
  - eexists _, _. split; [done|]. split_and!; [done..|]. right.
    exists contents. split; [done|]. right. left. by exists config.
  - cbv beta iota zeta. unfold pretty_print_assignments.
    unfold mbind at 1 2, W_bind at 1 2, W_then at 1 2, print at 1.
    cbn [stdout smtp_log smtp_faults generator].
    rewrite (pretty_print_loop_run config reg)
      by (done || by apply valid_assignment_known).
    eexists _, _. split; [done|]. split_and!; [done..|]. right.
    exists contents. split; [done|]. right. right. exists config, reg, a.
    split_and!; [done..|]. simpl. by rewrite <- app_assoc.
Qed.

(** The program in send mode, once the additional content is at hand. *)
Lemma send_mode_run fs entropy argv inv file email_content out log faults g :
  read_arguments argv (World out log faults g)
  = (Returned inv, World out log faults g) →
  config_filename inv = file → should_send_email inv = true →
  (∀ w, get_email_content fs (email_content_filename inv) w
        = (Returned email_content, w)) →
  ∃ r w',
    program fs entropy argv (World out log faults g) = (r, w')
    ∧ ((fs file = None ∧ r = Failed (OSError file)
        ∧ stdout w' = out ∧ smtp_log w' = log)
       ∨ ∃ contents, fs file = Some contents
           ∧ ((∃ e, parse_config_file contents = Raise e
                    ∧ r = Failed (Uncaught e)
                    ∧ stdout w' = out ∧ smtp_log w' = log)
              ∨ (∃ config, parse_config_file contents = Ok config
                    ∧ r = Failed (Uncaught (AssignmentInfeasible 4))
                    ∧ stdout w' = out ∧ smtp_log w' = log)
              ∨ (∃ config reg administrator password a,
                    parse_config_file contents = Ok config
                    ∧ administrator_email config = Some administrator
                    ∧ administrator_email_password config = Some password
                    ∧ participants config = Some reg
                    ∧ valid_assignment reg a
                    ∧ ((no_fault (take (length a + 5) faults)
                        ∧ r = Returned (Some ())
                        ∧ stdout w'
                          = out ++ (sent_line reg <$> a)
                                ++ [Text ("Sent all assignments to "
                                          +:+ administrator +:+ ".")]
                        ∧ smtp_log w'
                          = log ++ (Done <$> session_setup administrator
                                                            password)
                                ++ (Done <$> (mail_to reg administrator
                                                (assignment_uuid entropy)
                                                email_content
                                              <$> a))
                                ++ [Done (summary_mail reg administrator
                                            (assignment_uuid entropy) a);
                                    Done SMTP_quit])
                       ∨ (¬ no_fault (take (length a + 5) faults)
                          ∧ (r = Failed SendFailed
                             ∨ ∃ text, r = Failed (SMTPError text))))))).
Proof.
  intros Hread <- Hsend Hcontent.
  rewrite (program_invoked _ _ _ inv) by done.
  destruct (program_start fs (config_filename inv) out log faults g)
    as (r & g' & Hrest & Hcases).
  rewrite Hrest, Hsend. clear Hrest.
  destruct Hcases as [(Hfile & -> & ->)
    | (contents & Hfile & [(e & Hparse & -> & ->)
         | [(config & Hparse & ->) | (config & reg & a & Hparse & Hreg & Ha & ->)]])].
  - eexists _, _. split; [done|]. by left.
  - eexists _, _. split; [done|]. right.
    exists contents. split; [done|]. left. by exists e.
  - eexists _, _. split; [done|]. right.
    exists contents. split; [done|]. right. left. by exists config.
  - destruct (parse_config_file_fields _ _ Hparse)
      as [[administrator Hadmin] [password Hpw]].
    pose proof (valid_assignment_known reg a Ha) as Hknown.
    cbv beta iota zeta.
    unfold mbind at 1, W_bind at 1, W_then at 1. rewrite Hcontent.
    unfold mbind at 1, W_bind at 1, W_then at 1.
    destruct (decide (Forall (λ fault, fault = None)
                             (take (length a + 5) faults))) as [Hfaults|Hfaults].
    + rewrite (send_assignment_emails_run config reg administrator password)
        by done.
      eexists _, _. split; [done|]. right.
      exists contents. split; [done|]. right. right.
      exists config, reg, administrator, password, a.
      split_and!; [done..|]. left. by split_and!.
    + destruct (send_assignment_emails_fails config reg administrator password
                  (assignment_uuid entropy) email_content a out log faults g'
                  Hadmin Hpw Hreg Hknown Hfaults) as (f & w' & Hrun & Hf).
      rewrite Hrun. eexists _, _. split; [done|]. right.
      exists contents. split; [done|]. right. right.
      exists config, reg, administrator, password, a.
      split_and!; [done..|]. right. split; [done|].
      destruct Hf as [->|[text ->]]; [by left|right; by exists text].
Qed.

(** X18. In send mode, that is called with the configuration file alone or
    with the configuration file and the file of additional content (an
    empty file name counts as none; otherwise the file is read and its line
    ends are translated), the script ends in one of five ways: [OSError]
    for a configuration file that cannot be opened; the exception of
    [parse_config_file]; the infeasibility error carrying 4 attempts (in
    these three nothing is printed and the server is not contacted); when
    none of the calls to [smtplib] raises, it returns after one session in
    which every giver of an assignment, which is a bijection on the
    participant ids and respects every exclusion, is mailed their receiver
    with the additional content, the administrator is mailed the summary,
    and the session is closed; and when one of these calls raises, be it by
    a refusal of the server or by [smtplib] itself (as [sendmail] does for a
    message that is not ASCII), it ends in the exception of an opening call
    or of quit, or in the generic "Failed to send all e-mails
    successfully.". *)
Theorem send_mode_outcomes fs entropy argv prog file email_content out log
    faults g :
  (argv = [prog; file] ∧ email_content = None)
  ∨ (file ≠ "-p" ∧ argv = [prog; file; ""] ∧ email_content = None)
  ∨ (∃ content_filename text,
        file ≠ "-p" ∧ content_filename ≠ ""
        ∧ argv = [prog; file; content_filename]
        ∧ fs content_filename = Some text
        ∧ email_content = Some (universal_newlines text)) →
  ∃ r w',
    program fs entropy argv (World out log faults g) = (r, w')
    ∧ ((fs file = None ∧ r = Failed (OSError file)
        ∧ stdout w' = out ∧ smtp_log w' = log)
       ∨ ∃ contents, fs file = Some contents
           ∧ ((∃ e, parse_config_file contents = Raise e
                    ∧ r = Failed (Uncaught e)
                    ∧ stdout w' = out ∧ smtp_log w' = log)
              ∨ (∃ config, parse_config_file contents = Ok config
                    ∧ r = Failed (Uncaught (AssignmentInfeasible 4))
                    ∧ stdout w' = out ∧ smtp_log w' = log)
              ∨ (∃ config reg administrator password a,
                    parse_config_file contents = Ok config
                    ∧ administrator_email config = Some administrator
                    ∧ administrator_email_password config = Some password
                    ∧ participants config = Some reg
                    ∧ valid_assignment reg a
                    ∧ ((no_fault (take (length a + 5) faults)
                        ∧ r = Returned (Some ())
                        ∧ stdout w'
                          = out ++ (sent_line reg <$> a)
                                ++ [Text ("Sent all assignments to "
                                          +:+ administrator +:+ ".")]
                        ∧ smtp_log w'
                          = log ++ (Done <$> session_setup administrator
                                                            password)
                                ++ (Done <$> (mail_to reg administrator
                                                (assignment_uuid entropy)
                                                email_content
                                              <$> a))
                                ++ [Done (summary_mail reg administrator
                                            (assignment_uuid entropy) a);
                                    Done SMTP_quit])
                       ∨ (¬ no_fault (take (length a + 5) faults)
                          ∧ (r = Failed SendFailed
                             ∨ ∃ text, r = Failed (SMTPError text))))))).
Proof.
  intros [[-> ->] | [(Hfile & -> & ->)
    | (content_filename & text & Hfile & Hne & -> & Htext & ->)]].
  - by apply (send_mode_run _ _ _ (Invocation file true None)).
  - apply (send_mode_run _ _ _ (Invocation file true (Some ""))); [|done..].
    unfold read_arguments. by rewrite decide_False.
  - apply (send_mode_run _ _ _
             (Invocation file true (Some content_filename))); [|done..|].
    + unfold read_arguments. by rewrite decide_False.
    + intros w. destruct content_filename as [|c content_filename]; [done|].
      simpl. unfold open_file. by rewrite Htext.
Qed.

Lemma send_mode_outcomes_witness :
  let email_content := Some ("Merry Christmas!" +:+ end_of_line) in
  ∃ r w',
    program example_files example_entropy example_argv
            (World [] [] example_faults [1; 2; 3; 1; 1; 2; 1; 0; 1; 1; 0])
    = (r, w')
    ∧ ((example_files "config.txt" = None ∧ r = Failed (OSError "config.txt")
        ∧ stdout w' = [] ∧ smtp_log w' = [])
       ∨ ∃ contents, example_files "config.txt" = Some contents
           ∧ ((∃ e, parse_config_file contents = Raise e
                    ∧ r = Failed (Uncaught e)
                    ∧ stdout w' = [] ∧ smtp_log w' = [])
              ∨ (∃ config, parse_config_file contents = Ok config
                    ∧ r = Failed (Uncaught (AssignmentInfeasible 4))
                    ∧ stdout w' = [] ∧ smtp_log w' = [])
              ∨ (∃ config reg administrator password a,
                    parse_config_file contents = Ok config
                    ∧ administrator_email config = Some administrator
                    ∧ administrator_email_password config = Some password
                    ∧ participants config = Some reg
                    ∧ valid_assignment reg a
                    ∧ ((no_fault (take (length a + 5) example_faults)
                        ∧ r = Returned (Some ())
                        ∧ stdout w'
                          = [] ++ (sent_line reg <$> a)
                                ++ [Text ("Sent all assignments to "
                                          +:+ administrator +:+ ".")]
                        ∧ smtp_log w'
                          = [] ++ (Done <$> session_setup administrator
                                                            password)
                                ++ (Done <$> (mail_to reg administrator
                                                (assignment_uuid example_entropy)
                                                email_content
                                              <$> a))
                                ++ [Done (summary_mail reg administrator
                                            (assignment_uuid example_entropy) a);
                                    Done SMTP_quit])
                       ∨ (¬ no_fault (take (length a + 5) example_faults)
                          ∧ (r = Failed SendFailed
                             ∨ ∃ text, r = Failed (SMTPError text))))))).
Proof.
  apply (send_mode_outcomes example_files example_entropy example_argv
           "secret_santa.py" "config.txt"
           (Some ("Merry Christmas!" +:+ end_of_line)) [] []
           example_faults [1; 2; 3; 1; 1; 2; 1; 0; 1; 1; 0]).
  right. right. exists "greeting.txt", example_greeting. split_and!.
  - vm_compute. discriminate.
  - vm_compute. discriminate.
  - reflexivity.
  - vm_compute. reflexivity.
  - vm_compute. reflexivity.
Defined.

Lemma send_assignment_emails_unreached fs entropy argv inv cfile out log faults g :
  read_arguments argv (World out log faults g)
  = (Returned inv, World out log faults g) →
  should_send_email inv = true →
  email_content_filename inv = Some cfile → cfile ≠ "" → fs cfile = None →
  ∃ f g',
    program fs entropy argv (World out log faults g)
    = (Failed f, World out log faults g').
Proof.
  intros Hread Hsend Hcontent Hne Hmissing.
  rewrite (program_invoked _ _ _ inv) by done.
  destruct (program_start fs (config_filename inv) out log faults g)
    as (r & g' & Hrest & Hcases).
  rewrite Hrest, Hsend, Hcontent. clear Hrest.
  destruct Hcases as [(Hfile & -> & ->)
    | (contents & Hfile & [(e & Hparse & -> & ->)
         | [(config & Hparse & ->) | (config & reg & a & Hparse & Hreg & Ha & ->)]])];
    [by eexists _, _..|].
  cbv beta iota zeta. destruct cfile as [|c cfile]; [done|].
  unfold get_email_content, open_file. rewrite Hmissing.
  by eexists _, _.
Qed.

(** X19. When the file of additional content cannot be opened, the script
    ends in an exception and has neither printed anything nor contacted the
    server: the content is read before the session is opened. *)
Theorem unreadable_content_file_sends_nothing fs entropy prog file cfile
    out log faults g :
  file ≠ "-p" → cfile ≠ "" → fs cfile = None →
  ∃ f g',
    program fs entropy [prog; file; cfile] (World out log faults g)
    = (Failed f, World out log faults g').
Proof.
  intros Hfile Hne Hmissing.
  apply (send_assignment_emails_unreached _ _ _
           (Invocation file true (Some cfile)) cfile); try done.
  unfold read_arguments. by rewrite decide_False.
Qed.

Lemma unreadable_content_file_sends_nothing_witness :
  ∃ f g',
    program example_files example_entropy
            ["secret_santa.py"; "config.txt"; "missing.txt"]
            (World [] [] [] [1; 2; 3; 1; 1; 2; 1; 0; 1; 1; 0])
    = (Failed f, World [] [] [] g').
Proof.
  apply (unreadable_content_file_sends_nothing example_files example_entropy
           "secret_santa.py" "config.txt" "missing.txt").
  - vm_compute. discriminate.
  - vm_compute. discriminate.
  - vm_compute. reflexivity.
Defined.
